(** * SODAX Brand Bible service: a shallow embedding and its properties

    The development follows [src/services/brandBible.ts], the constants of
    [constants.ts] and the handlers of [src/tools/brandBible.ts].

    Conventions of the model.
    - A JavaScript string is a Rocq [string]; one [ascii] stands for one
      code unit.  The model covers code units below 128: case mapping
      ([toLowerCase], the [i] flag), white space ([\s], [trim]) and line
      terminators are those of the ASCII range.
    - Numbers that the service computes are small integers; they are [Z].
    - [Date.now()] and [new Date()] are clock readings in milliseconds,
      supplied by the environment of each call.
    - The network ([axios.get]) and the DOM library ([cheerio]) are outside
      the repository: the outcome of a request is an input of the call, and
      the two DOM traversals are parameters of the development. *)

From Stdlib Require Import String Ascii List ZArith Lia Bool Arith PeanoNat.
From Stdlib Require Import Sorting.Permutation Sorting.Sorted.
Import ListNotations.

Open Scope string_scope.
Open Scope Z_scope.

(* ================================================================= *)
(** ** JavaScript string primitives *)

Module JsString.

Definition code (c : ascii) : nat := nat_of_ascii c.

Definition isUpper (c : ascii) : bool :=
  ((65 <=? code c) && (code c <=? 90))%nat.

Definition isLower (c : ascii) : bool :=
  ((97 <=? code c) && (code c <=? 122))%nat.

Definition isDigit (c : ascii) : bool :=
  ((48 <=? code c) && (code c <=? 57))%nat.

(** White space and line terminators: TAB, LF, VT, FF, CR, SP. *)
Definition isSpace (c : ascii) : bool :=
  (((9 <=? code c) && (code c <=? 13)) || (code c =? 32))%nat.

(** [.] of a regular expression: anything but LF and CR. *)
Definition isLineTerminator (c : ascii) : bool :=
  ((code c =? 10) || (code c =? 13))%nat.

Definition lowerChar (c : ascii) : ascii :=
  if isUpper c then ascii_of_nat (code c + 32) else c.

Definition upperChar (c : ascii) : ascii :=
  if isLower c then ascii_of_nat (code c - 32) else c.

(** [s.toLowerCase()] *)
Fixpoint toLowerCase (s : string) : string :=
  match s with
  | EmptyString => EmptyString
  | String c s' => String (lowerChar c) (toLowerCase s')
  end.

(** [s.slice(0, n)] *)
Fixpoint take (n : nat) (s : string) : string :=
  match n, s with
  | O, _ => EmptyString
  | _, EmptyString => EmptyString
  | S n', String c s' => String c (take n' s')
  end.

Fixpoint rev_append (acc s : string) : string :=
  match acc with
  | EmptyString => s
  | String c acc' => rev_append acc' (String c s)
  end.

(** Reversal, used for fields accumulated back to front. *)
Definition rev (s : string) : string := rev_append s EmptyString.

Fixpoint trimStart (s : string) : string :=
  match s with
  | EmptyString => EmptyString
  | String c s' => if isSpace c then trimStart s' else s
  end.

(** [s.trim()] *)
Definition trim (s : string) : string :=
  rev (trimStart (rev (trimStart s))).

(** [s.startsWith(p)] *)
Fixpoint startsWith (p s : string) : bool :=
  match p, s with
  | EmptyString, _ => true
  | String _ _, EmptyString => false
  | String a p', String b s' => Ascii.eqb a b && startsWith p' s'
  end.

(** [s.includes(t)] *)
Fixpoint includes (t s : string) : bool :=
  match s with
  | EmptyString => startsWith t EmptyString
  | String _ s' => startsWith t s || includes t s'
  end.

(** [s.split(sep)] for a non-empty string separator: the separator is
    looked for from left to right, and the search resumes after each
    occurrence.  [skip] counts the code units of the occurrence being
    stepped over; [acc] is the current piece, reversed. *)
Fixpoint splitOn (sep : string) (skip : nat) (acc s : string) : list string :=
  match s with
  | EmptyString => [rev acc]
  | String c s' =>
      match skip with
      | S k => splitOn sep k acc s'
      | O =>
          if startsWith sep s
          then rev acc :: splitOn sep (String.length sep - 1)%nat EmptyString s'
          else splitOn sep O (String c acc) s'
      end
  end.

Fixpoint chars (s : string) : list string :=
  match s with
  | EmptyString => []
  | String c s' => String c EmptyString :: chars s'
  end.

(** [s.split(sep)]: with the empty separator the string falls apart into
    its code units (and the empty string into no piece at all). *)
Definition split (sep s : string) : list string :=
  match sep with
  | EmptyString => chars s
  | String _ _ => splitOn sep O EmptyString s
  end.

(** [s.split(/\s+/)]: the pieces between maximal runs of white space; a
    run at either end leaves an empty piece there.  [inRun] tells that
    the previous code unit belonged to a run. *)
Fixpoint splitSpaces (inRun : bool) (acc s : string) : list string :=
  match s with
  | EmptyString => [rev acc]
  | String c s' =>
      if isSpace c
      then (if inRun then splitSpaces true EmptyString s'
            else rev acc :: splitSpaces true EmptyString s')
      else splitSpaces false (String c acc) s'
  end.

Definition splitWhitespace (s : string) : list string :=
  splitSpaces false EmptyString s.

(** [xs.join(sep)] *)
Definition join (sep : string) (xs : list string) : string :=
  String.concat sep xs.

End JsString.

Import JsString.

(* ================================================================= *)
(** ** Regular expressions

    The patterns of the service are built with [new RegExp(source, "i")]
    and run with [String.prototype.match].  They use literals, classes,
    sequence, alternation, greedy and lazy repetition, one capture group, a
    positive lookahead and [$].  The matcher below is the backtracking
    matcher of ECMAScript for this fragment, in continuation-passing
    style: [k] is what remains to be matched after [r]. *)

Module Regex.

Inductive regex : Type :=
| Eps                               (* the empty pattern *)
| Lit (c : ascii)                   (* a pattern character *)
| Class (p : ascii -> bool)         (* \s, \d, [A-Z], ., [\s\S] *)
| Seq (r1 r2 : regex)
| Alt (r1 r2 : regex)               (* r1|r2 *)
| Star (greedy : bool) (r : regex)  (* r* and r*? *)
| Group (r : regex)                 (* (r), capture group 1 *)
| Look (r : regex)                  (* (?=r) *)
| Eoi.                              (* $ without the m flag *)

Definition plus (r : regex) : regex := Seq r (Star true r).

Fixpoint seqs (rs : list regex) : regex :=
  match rs with
  | [] => Eps
  | [r] => r
  | r :: rs' => Seq r (seqs rs')
  end.

(** A matcher: what it does with the input, the capture and the
    continuation. *)
Definition matcher : Type :=
  string -> string -> (string -> string -> option string) -> option string.

(** The loop of a repetition whose body is matched by [body].  An
    iteration that consumes nothing is rejected, so every iteration
    shortens the input and the fuel [S (length s)] that [run] gives is
    never used up. *)
Fixpoint repeatMatcher (body : matcher) (greedy : bool)
         (k : string -> string -> option string)
         (fuel : nat) (s cap : string) {struct fuel} : option string :=
  match fuel with
  | O => None
  | S fuel' =>
      let d := fun s1 cap1 =>
                 if (String.length s1 <? String.length s)%nat
                 then repeatMatcher body greedy k fuel' s1 cap1
                 else None in
      if greedy
      then match body s cap d with
           | Some res => Some res
           | None => k s cap
           end
      else match k s cap with
           | Some res => Some res
           | None => body s cap d
           end
  end.

Section Matcher.

Variable ignoreCase : bool.

(** Canonicalisation of the [i] flag is upper-casing. *)
Definition litMatches (c x : ascii) : bool :=
  if ignoreCase then Ascii.eqb (upperChar c) (upperChar x) else Ascii.eqb c x.

(** Under [i] a class accepts [x] when it holds a character with the
    canonical form of [x]: [x] itself or its other case. *)
Definition classMatches (p : ascii -> bool) (x : ascii) : bool :=
  if ignoreCase then p x || p (upperChar x) || p (lowerChar x) else p x.

(** [run r s cap k]: match [r] at the front of [s], then continue with
    [k] on the rest; [cap] is the text of group 1 so far.  [None] is
    failure, which sends the caller to its next alternative. *)
Fixpoint run (r : regex) (s cap : string)
         (k : string -> string -> option string) {struct r} : option string :=
  match r with
  | Eps => k s cap
  | Lit c =>
      match s with
      | String x s' => if litMatches c x then k s' cap else None
      | EmptyString => None
      end
  | Class p =>
      match s with
      | String x s' => if classMatches p x then k s' cap else None
      | EmptyString => None
      end
  | Seq r1 r2 => run r1 s cap (fun s1 cap1 => run r2 s1 cap1 k)
  | Alt r1 r2 =>
      match run r1 s cap k with
      | Some res => Some res
      | None => run r2 s cap k
      end
  | Star greedy r1 =>
      repeatMatcher (run r1) greedy k (S (String.length s)) s cap
  | Group r1 =>
      run r1 s cap
          (fun s1 _ => k s1 (take (String.length s - String.length s1)%nat s))
  | Look r1 =>
      match run r1 s cap (fun _ cap1 => Some cap1) with
      | Some cap1 => k s cap1
      | None => None
      end
  | Eoi =>
      match s with
      | EmptyString => k s cap
      | String _ _ => None
      end
  end.

(** [s.match(r)] without the [g] flag: the first start index at which
    [r] matches; the result is the text of group 1 ([match[1]]), or
    [None] for [null]. *)
Fixpoint exec (r : regex) (s : string) : option string :=
  match run r s EmptyString (fun _ cap => Some cap) with
  | Some cap => Some cap
  | None =>
      match s with
      | EmptyString => None
      | String _ s' => exec r s'
      end
  end.

End Matcher.

(** The classes of the patterns. *)
Definition space : regex := Class isSpace.                     (* \s *)
Definition digit : regex := Class isDigit.                     (* \d *)
Definition upper : regex := Class isUpper.                     (* [A-Z] *)
Definition anything : regex := Class (fun _ => true).          (* [\s\S] *)
Definition dot : regex := Class (fun c => negb (isLineTerminator c)). (* . *)

Definition backslash : ascii := ascii_of_nat 92.

(** The syntax characters [^$\.*+?()[]{}|]. *)
Definition isSyntaxChar (c : ascii) : bool :=
  Ascii.eqb c backslash || includes (String c EmptyString) "^$.*+?()[]{}|".

(** Pattern source made of pattern characters and identity escapes:
    [\c] and a plain [c] both stand for the character [c]. *)
Fixpoint escaped (src : string) : regex :=
  match src with
  | EmptyString => Eps
  | String c rest =>
      if Ascii.eqb c backslash
      then match rest with
           | String d rest' => Seq (Lit d) (escaped rest')
           | EmptyString => Eps
           end
      else Seq (Lit c) (escaped rest)
  end.

(** Pattern source interpolated as it is: the identifiers of the
    taxonomy are digits and dots, and an unescaped dot is the wildcard. *)
Fixpoint interpolated (src : string) : regex :=
  match src with
  | EmptyString => Eps
  | String c rest =>
      Seq (if Ascii.eqb c "."%char then dot else Lit c) (interpolated rest)
  end.

(** The pattern that matches [s] literally. *)
Fixpoint literal (s : string) : regex :=
  match s with
  | EmptyString => Eps
  | String c rest => Seq (Lit c) (literal rest)
  end.

End Regex.

Import Regex.

(* ================================================================= *)
(** ** Constants ([constants.ts]) *)

Definition BRAND_BIBLE_URL : string :=
  "https://iconfoundation.notion.site/brand-bible-v1".

Definition CHARACTER_LIMIT : Z := 25000.

Definition CACHE_TTL_MS : Z := 5 * 60 * 1000.

(** A [Record<string, string>] read with [Object.entries]: the keys of
    both tables are enumerated in the order in which they are written
    (the keys of [SECTION_NAMES] are integer keys written in ascending
    order; those of [SUBSECTION_NAMES] are not integer keys). *)
Definition table : Type := list (string * string).

Definition SECTION_NAMES : table :=
  [ ("1", "Brand Essence and Foundations");
    ("2", "Positioning and Messaging Architecture");
    ("3", "Verbal Identity");
    ("4", "Visual Identity");
    ("5", "Brand Expression Across Channels");
    ("6", "Brand Use in Partnerships and Integrations") ].

Definition SUBSECTION_NAMES : table :=
  [ ("1.1", "Brand Overview");
    ("1.2", "Brand Purpose");
    ("1.3", "Brand Promise");
    ("1.4", "Brand Values");
    ("1.5", "Brand Personality");
    ("1.6", "Core Brand Idea");
    ("2.1", "Market Context");
    ("2.2", "Category Definition");
    ("2.3", "Problem Statement");
    ("2.4", "SODAX Positioning Statement");
    ("2.5", "Audience Segmentation");
    ("2.6", "Messaging Pillars");
    ("2.7", "Value Propositions by Audience");
    ("2.8", "Competitive Differentiation");
    ("2.9", "Proof Points");
    ("2.10", "Positioning Guardrails");
    ("3.1", "Tone of Voice");
    ("3.2", "Writing Principles");
    ("3.3", "How We Talk to B2B Builders");
    ("3.4", "How We Talk to B2C Users");
    ("3.5", "Messaging Do's and Don'ts");
    ("3.6", "Example Message Patterns");
    ("4.1", "Logo Usage");
    ("4.2", "Selected Color Palette");
    ("4.3", "Typography");
    ("4.4", "Iconography");
    ("4.5", "Layout and Composition");
    ("4.6", "Motion and Animation");
    ("4.7", "Accessibility Standards");
    ("5.1", "Shared Principles (All Channels)");
    ("5.2", "X");
    ("5.3", "Reddit");
    ("5.4", "YouTube");
    ("5.5", "Consistency Rule");
    ("6.1", "Core Principle");
    ("6.2", "Partner Announcements");
    ("6.3", "Visual Presence in Partner Contexts");
    ("6.4", "Case Studies (External)");
    ("6.5", "Developer-facing Contexts") ].

(** [Object.keys(t)] *)
Definition keys (t : table) : list string := map fst t.

(** [t[key]] for an own key of the table. *)
Fixpoint lookup (key : string) (t : table) : option string :=
  match t with
  | [] => None
  | (k, v) :: t' => if String.eqb k key then Some v else lookup key t'
  end.

(* ================================================================= *)
(** ** Data model ([types.ts]) *)

Record BrandSubsection : Type := mkSubsection {
  sub_id : string;
  sub_title : string;
  sub_content : string
}.

Record BrandSection : Type := mkSection {
  id : string;
  title : string;
  content : string;
  subsections : list BrandSubsection
}.

Record BrandBibleData : Type := mkData {
  version : string;
  lastUpdated : string;
  sections : list BrandSection;
  rawContent : string;
  fetchedAt : Z                 (* a [Date], in milliseconds *)
}.

Record SearchResult : Type := mkResult {
  sectionId : string;
  sectionTitle : string;
  subsectionId : option string;
  subsectionTitle : option string;
  res_content : string;
  relevance : Z
}.

(* ================================================================= *)
(** ** Segmentation ([parseSections] and its helpers) *)

(** [str.replace(/[.*+?^${}()|[\]\\]/g, "\\$&")] *)
Fixpoint escapeRegex (str : string) : string :=
  match str with
  | EmptyString => EmptyString
  | String c rest =>
      if isSyntaxChar c
      then String backslash (String c (escapeRegex rest))
      else String c (escapeRegex rest)
  end.

Definition getDefaultSectionDescription (sectionNum : string) : string :=
  let descriptions : table :=
    [ ("1", "Defines SODAX's core identity, purpose, promise, values, personality, and central brand idea.");
      ("2", "Covers market positioning, audience segmentation, messaging pillars, value propositions, and competitive differentiation.");
      ("3", "SODAX is serious infrastructure. Our voice should feel calm, competent, and human. We translate complex cross-network execution into language that is clear, credible, and easy to repeat.");
      ("4", "SODAX's visual identity is adaptive, not rigid. It scales in intensity based on context, intent, and user mindset.");
      ("5", "Defines how the SODAX brand should appear across public channels with consistency of meaning while allowing platform-native expression.");
      ("6", "Defines how SODAX should be represented when it appears outside its own managed channels.") ] in
  match lookup sectionNum descriptions with
  | Some (String c d) => String c d
  | _ => "Brand guidelines content."
  end.

(** [`${sectionNum}\\.\\s*${escapeRegex(sectionName)}([\\s\\S]*?)(?=\\d+\\.\\s+[A-Z]|$)`] *)
Definition sectionRegex (sectionNum sectionName : string) : regex :=
  seqs [ interpolated sectionNum;
         Lit "."; Star true space;
         escaped (escapeRegex sectionName);
         Group (Star false anything);
         Look (Alt (seqs [plus digit; Lit "."; plus space; upper]) Eoi) ].

Definition extractSectionContent (content sectionNum sectionName : string) : string :=
  match exec true (sectionRegex sectionNum sectionName) content with
  | Some capture => take 2000 (trim capture)
  | None => getDefaultSectionDescription sectionNum
  end.

(** [`${subId}\\s*${escapedName}([\\s\\S]*?)(?=\\d+\\.\\d+|\\d+\\.|$)`] *)
Definition subsectionRegex (subId subName : string) : regex :=
  let escapedName := escapeRegex subName in
  seqs [ interpolated subId;
         Star true space;
         escaped escapedName;
         Group (Star false anything);
         Look (Alt (seqs [plus digit; Lit "."; plus digit])
                   (Alt (seqs [plus digit; Lit "."]) Eoi)) ].

Definition extractSubsectionContent (content subId subName : string) : string :=
  match exec true (subsectionRegex subId subName) content with
  | Some capture => take 1500 (trim capture)
  | None =>
      "Content for " ++ subName ++ ". Please refer to the full Brand Bible for details."
  end.

Definition parseSections (content : string) : list BrandSection :=
  map (fun '(sectionNum, sectionName) =>
         let subsections :=
           map (fun '(subId, subName) =>
                  mkSubsection subId subName
                               (extractSubsectionContent content subId subName))
               (filter (fun '(subId, _) => startsWith (sectionNum ++ ".") subId)
                       SUBSECTION_NAMES) in
         let sectionContent := extractSectionContent content sectionNum sectionName in
         mkSection sectionNum sectionName sectionContent subsections)
      SECTION_NAMES.

(* ================================================================= *)
(** ** Relevance scoring ([calculateRelevance]) *)

Definition brandKeywords : list string :=
  [ "logo"; "color"; "typography"; "font"; "voice"; "tone";
    "message"; "audience"; "value"; "positioning"; "visual";
    "identity"; "brand"; "sodax" ].

(** [contentLower.split(term).length - 1] *)
Definition occurrences (term contentLower : string) : Z :=
  Z.of_nat (List.length (split term contentLower)) - 1.

(** The body of the first loop: the score after [term] has been seen. *)
Definition scoreTerm (contentLower : string) (score : Z) (term : string) : Z :=
  if includes term contentLower
  then
    let score := score + 10 in
    let matches := occurrences term contentLower in
    score + Z.min matches 5
  else score.

(** The body of the second loop. *)
Definition scoreKeyword (contentLower : string) (queryTerms : list string)
           (score : Z) (keyword : string) : Z :=
  if existsb (fun t => includes keyword t || includes t keyword) queryTerms
  then (if includes keyword contentLower then score + 5 else score)
  else score.

Definition calculateRelevance (content : string) (queryTerms : list string) : Z :=
  let contentLower := toLowerCase content in
  let score := 0 in
  let score := fold_left (scoreTerm contentLower) queryTerms score in
  let score := fold_left (scoreKeyword contentLower queryTerms) brandKeywords score in
  score.

(* ================================================================= *)
(** ** Ranking ([searchBrandBible] on a snapshot) *)

(** [Array.prototype.sort] is stable, and with a comparator that is
    consistent, as the difference of two scores is, its result is fixed by
    the language: the elements in the order of the comparator, equal ones
    in their original order.  Insertion from the right computes it: [x]
    moves behind [y] only when [comparefn x y > 0]. *)
Section Sort.

Context {A : Type}.
Variable comparefn : A -> A -> Z.

Fixpoint insertSorted (x : A) (l : list A) : list A :=
  match l with
  | [] => [x]
  | y :: l' => if 0 <? comparefn x y then y :: insertSorted x l' else x :: l
  end.

Definition sort (l : list A) : list A := fold_right insertSorted [] l.

End Sort.

Definition sectionResult (section : BrandSection) (sectionRelevance : Z) : SearchResult :=
  {| sectionId := id section;
     sectionTitle := title section;
     subsectionId := None;
     subsectionTitle := None;
     res_content := content section;
     relevance := sectionRelevance |}.

Definition subsectionResult (section : BrandSection) (sub : BrandSubsection)
           (subRelevance : Z) : SearchResult :=
  {| sectionId := id section;
     sectionTitle := title section;
     subsectionId := Some (sub_id sub);
     subsectionTitle := Some (sub_title sub);
     res_content := sub_content sub;
     relevance := subRelevance |}.

(** [query.toLowerCase().split(/\s+/).filter(t => t.length > 2)] *)
Definition queryTermsOf (query : string) : list string :=
  let queryLower := toLowerCase query in
  filter (fun t => (2 <? String.length t)%nat) (splitWhitespace queryLower).

(** What the two nested loops push for one section. *)
Definition resultsOfSection (queryTerms : list string) (section : BrandSection)
  : list SearchResult :=
  let sectionRelevance :=
    calculateRelevance (title section ++ " " ++ content section) queryTerms in
  (if 0 <? sectionRelevance then [sectionResult section sectionRelevance] else [])
  ++ flat_map
       (fun sub =>
          let subRelevance :=
            calculateRelevance (sub_title sub ++ " " ++ sub_content sub) queryTerms in
          if 0 <? subRelevance then [subsectionResult section sub subRelevance] else [])
       (subsections section).

(** The results in the order in which they are pushed. *)
Definition collectResults (data : BrandBibleData) (queryTerms : list string)
  : list SearchResult :=
  flat_map (resultsOfSection queryTerms) (sections data).

(** The body of [searchBrandBible] once the snapshot is at hand. *)
Definition rankSnapshot (data : BrandBibleData) (query : string) : list SearchResult :=
  let queryTerms := queryTermsOf query in
  let results := collectResults data queryTerms in
  sort (fun a b => relevance b - relevance a) results.

(* ================================================================= *)
(** ** Effects: exceptions and the module-level cache *)

(** A thrown value, identified with the message a handler prints for it. *)
Definition exn : Type := string.

Inductive outcome (A : Type) : Type :=
| Returned (a : A)
| Threw (e : exn).

Arguments Returned {A} a.
Arguments Threw {A} e.

(** [let cachedData: BrandBibleData | null = null; let cacheTimestamp = 0] *)
Record cache : Type := mkCache {
  cachedData : option BrandBibleData;
  cacheTimestamp : Z
}.

Definition initialCache : cache := mkCache None 0.

(** A computation of the service: it may throw, and it reads and writes
    the cache. *)
Definition M (A : Type) : Type := cache -> outcome A * cache.

Definition ret {A} (a : A) : M A := fun st => (Returned a, st).

Definition throw {A} (e : exn) : M A := fun st => (Threw e, st).

Definition bind {A B} (m : M A) (f : A -> M B) : M B :=
  fun st =>
    match m st with
    | (Returned a, st') => f a st'
    | (Threw e, st') => (Threw e, st')
    end.

Definition lift {A} (o : outcome A) : M A := fun st => (o, st).

Definition get : M cache := fun st => (Returned st, st).

Definition put (st : cache) : M unit := fun _ => (Returned tt, st).

(** [try { m } catch (error) { h error }] *)
Definition tryCatch {A} (m : M A) (h : exn -> M A) : M A :=
  fun st =>
    match m st with
    | (Returned a, st') => (Returned a, st')
    | (Threw e, st') => h e st'
    end.

Declare Scope monad_scope.
Delimit Scope monad_scope with monad.
Notation "x <- m ;; k" := (bind m (fun x => k))
  (at level 61, m at next level, right associativity) : monad_scope.
Notation "m ;;; k" := (bind m (fun _ => k))
  (at level 61, right associativity) : monad_scope.
Open Scope monad_scope.

(** How [axios.get] ends. *)
Inductive axiosOutcome : Type :=
| Response (data : string)
| AxiosError (status : option Z) (code : option string) (message : string)
| OtherError (e : exn).

(** What one call of [getBrandBible] observes of the outside: the clock at
    its entry, the end of the request if one is made, and the clock when
    the snapshot is assembled. *)
Record env : Type := mkEnv {
  dateNow : Z;
  axiosGet : axiosOutcome;
  newDate : Z
}.

Definition fetchBrandBibleHtml (e : env) : outcome string :=
  match axiosGet e with
  | Response data => Returned data
  | AxiosError status code message =>
      if match status with Some s => s =? 404 | None => false end
      then Threw "Brand Bible page not found. The URL may have changed."
      else if match code with Some c => String.eqb c "ECONNABORTED" | None => false end
      then Threw "Request timed out while fetching Brand Bible. Please try again."
      else Threw ("Failed to fetch Brand Bible: " ++ message)
  | OtherError err => Threw err
  end.

(** [/Brand Bible v([\d.]+)/] *)
Definition versionRegex : regex :=
  seqs [ literal "Brand Bible v";
         Group (plus (Class (fun c => isDigit c || Ascii.eqb c "."%char))) ].

(** [/Last updated\s*[-\u2013]\s*(.+?)(?=This Brand Bible|$)/i], where
    [\u2013] stands for the en dash that the source writes in the class;
    the hyphen is the dash below 128. *)
Definition dateRegex : regex :=
  seqs [ literal "Last updated"; Star true space;
         Class (fun c => Ascii.eqb c "-"%char); Star true space;
         Group (Seq dot (Star false dot));
         Look (Alt (literal "This Brand Bible") Eoi) ].

(** What the service reads from the document tree that [cheerio.load]
    builds: [$("body").text()] and the flattened text that
    [extractTextContent] assembles while walking the tree. *)
Record page : Type := mkPage {
  pageText : string;
  textContent : string
}.

Section Service.

(** The DOM library; an exception raised while the tree is built or
    walked is a [Threw]. *)
Variable cheerio : string -> outcome page.

Definition parseBrandBible (html : string) (e : env) : outcome BrandBibleData :=
  match cheerio html with
  | Threw err => Threw err
  | Returned doc =>
      let versionMatch := exec false versionRegex (pageText doc) in
      let dateMatch := exec true dateRegex (pageText doc) in
      let version := match versionMatch with Some v => v | None => "unknown" end in
      let lastUpdated := match dateMatch with Some d => trim d | None => "unknown" end in
      let rawContent := textContent doc in
      let sections := parseSections rawContent in
      Returned {| version := version;
                  lastUpdated := lastUpdated;
                  sections := sections;
                  rawContent := rawContent;
                  fetchedAt := newDate e |}
  end.

Definition getBrandBible (e : env) : M BrandBibleData :=
  let now := dateNow e in
  let rebuild : M BrandBibleData :=
    html <- lift (fetchBrandBibleHtml e) ;;
    data <- lift (parseBrandBible html e) ;;
    put (mkCache (Some data) now) ;;;
    ret data in
  st <- get ;;
  match cachedData st with
  | Some data =>
      if now - cacheTimestamp st <? CACHE_TTL_MS then ret data else rebuild
  | None => rebuild
  end.

Definition getSection (sectionId : string) (e : env) : M (option BrandSection) :=
  data <- getBrandBible e ;;
  ret (find (fun s => String.eqb (id s) sectionId) (sections data)).

(** The loop of [getSubsection] over the sections. *)
Fixpoint findSubsection (subsectionId : string) (secs : list BrandSection)
  : option BrandSubsection :=
  match secs with
  | [] => None
  | section :: rest =>
      match find (fun sub => String.eqb (sub_id sub) subsectionId)
                 (subsections section) with
      | Some subsection => Some subsection
      | None => findSubsection subsectionId rest
      end
  end.

Definition getSubsection (subsectionId : string) (e : env) : M (option BrandSubsection) :=
  data <- getBrandBible e ;;
  ret (findSubsection subsectionId (sections data)).

Definition searchBrandBible (query : string) (e : env) : M (list SearchResult) :=
  data <- getBrandBible e ;;
  ret (rankSnapshot data query).

Definition clearCache : M unit := put (mkCache None 0).

End Service.

(* ================================================================= *)
(** ** The tool layer ([src/tools/brandBible.ts])

    A handler answers with a text and, when it succeeds, with the
    [structuredContent] of which the text is a rendering (Markdown or
    JSON, as [response_format] asks).  The model keeps the texts of the
    error answers and the structured content of the successful ones. *)

Inductive toolResult (A : Type) : Type :=
| TextOnly (text : string)
| Structured (output : A).

Arguments TextOnly {A} text.
Arguments Structured {A} output.

Record SectionOutput : Type := mkSectionOutput {
  so_sectionId : string;
  so_title : string;
  so_content : string;
  so_subsections : list BrandSubsection;
  so_source : string
}.

Record SubsectionOutput : Type := mkSubsectionOutput {
  sso_id : string;
  sso_title : string;
  sso_content : string;
  sso_source : string
}.

Record SearchOutput : Type := mkSearchOutput {
  se_query : string;
  se_results : list SearchResult;
  se_totalResults : nat;
  se_source : string
}.

Record RefreshOutput : Type := mkRefreshOutput {
  ro_status : string;
  ro_message : string;
  ro_version : string;
  ro_lastUpdated : string;
  ro_fetchedAt : Z;
  ro_source : string
}.

(** The line feed of the template literals. *)
Definition newline : string := String (ascii_of_nat 10) EmptyString.

Section Tools.

Variable cheerio : string -> outcome page.

Definition sodax_get_section (section_id : string) (e : env)
  : M (toolResult SectionOutput) :=
  tryCatch
    (section <- getSection cheerio section_id e ;;
     match section with
     | None =>
         ret (TextOnly ("Error: Section '" ++ section_id
                          ++ "' not found. Valid sections are 1-6."))
     | Some section =>
         ret (Structured
                {| so_sectionId := id section;
                   so_title := title section;
                   so_content := content section;
                   so_subsections :=
                     map (fun sub => mkSubsection (sub_id sub) (sub_title sub)
                                                  (sub_content sub))
                         (subsections section);
                   so_source := BRAND_BIBLE_URL |})
     end)
    (fun error => ret (TextOnly ("Error fetching section: " ++ error))).

Definition sodax_get_subsection (subsection_id : string) (e : env)
  : M (toolResult SubsectionOutput) :=
  tryCatch
    (subsection <- getSubsection cheerio subsection_id e ;;
     match subsection with
     | None =>
         let availableIds := join ", " (keys SUBSECTION_NAMES) in
         ret (TextOnly ("Error: Subsection '" ++ subsection_id ++ "' not found."
                          ++ newline ++ newline
                          ++ "Available subsections: " ++ availableIds))
     | Some subsection =>
         ret (Structured
                {| sso_id := sub_id subsection;
                   sso_title := sub_title subsection;
                   sso_content := sub_content subsection;
                   sso_source := BRAND_BIBLE_URL |})
     end)
    (fun error => ret (TextOnly ("Error fetching subsection: " ++ error))).

(** [limit] is an integer from 1 to 20 by the input schema, so that
    [results.slice(0, limit)] keeps the first [limit] results. *)
Definition sodax_search_brand_bible (query : string) (limit : nat) (e : env)
  : M (toolResult SearchOutput) :=
  tryCatch
    (results <- searchBrandBible cheerio query e ;;
     let limitedResults := firstn limit results in
     ret (Structured
            {| se_query := query;
               se_results := limitedResults;
               se_totalResults := List.length results;
               se_source := BRAND_BIBLE_URL |}))
    (fun error => ret (TextOnly ("Error searching brand bible: " ++ error))).

Definition sodax_refresh_brand_bible (e : env) : M (toolResult RefreshOutput) :=
  tryCatch
    (clearCache ;;;
     data <- getBrandBible cheerio e ;;
     ret (Structured
            {| ro_status := "success";
               ro_message := "Brand bible cache refreshed successfully";
               ro_version := version data;
               ro_lastUpdated := lastUpdated data;
               ro_fetchedAt := fetchedAt data;
               ro_source := BRAND_BIBLE_URL |}))
    (fun error => ret (TextOnly ("Error refreshing cache: " ++ error))).

End Tools.

(** The states of the cache that the service can reach from the start of
    the process: every step is a call of one of the two exported
    operations that write the cache. *)
Inductive reachable (cheerio : string -> outcome page) : cache -> Prop :=
| reach_init : reachable cheerio initialCache
| reach_get : forall st e,
    reachable cheerio st -> reachable cheerio (snd (getBrandBible cheerio e st))
| reach_clear : forall st,
    reachable cheerio st -> reachable cheerio (snd (clearCache st)).

(* ================================================================= *)
(** ** Vocabulary of the statements *)

Fixpoint sumZ (l : list Z) : Z :=
  match l with
  | [] => 0
  | x :: l' => x + sumZ l'
  end.

(** What one query term adds to the score in the first loop of
    [calculateRelevance]. *)
Definition directContribution (contentLower term : string) : Z :=
  scoreTerm contentLower 0 term.

(** What the second loop of [calculateRelevance] adds to the score. *)
Definition keywordBoost (contentLower : string) (queryTerms : list string) : Z :=
  fold_left (scoreKeyword contentLower queryTerms) brandKeywords 0.

(** The contribution of a term as the specification words it: 10, and one
    more for each occurrence beyond the first, at most 5 more. *)
Definition specContribution (contentLower term : string) : Z :=
  if includes term contentLower
  then 10 + Z.min (occurrences term contentLower - 1) 5
  else 0.

(** The score as the specification words it. *)
Definition specRelevance (content : string) (queryTerms : list string) : Z :=
  sumZ (map (specContribution (toLowerCase content)) queryTerms)
  + keywordBoost (toLowerCase content) queryTerms.

(** The entries of the Taxonomy Table under section [s]: those whose
    identifier is [s] followed by a dot, in the order of the table. *)
Definition taxonomyUnder (s : string) : table :=
  filter (fun '(subId, _) => startsWith (s ++ ".") subId) SUBSECTION_NAMES.

(** A snapshot is segmented when its sections are those that the
    segmenter cuts out of its own flattened text. *)
Definition segmented (data : BrandBibleData) : Prop :=
  sections data = parseSections (rawContent data).

(** The cache holds nothing, or a segmented snapshot. *)
Definition wellFormed (st : cache) : Prop :=
  forall data, cachedData st = Some data -> segmented data.

(** A flattened text in which a title is followed at once by the next
    numbered title: five paragraphs, one per line. *)
Definition adjacentTitles : string :=
  "1. Brand Essence and Foundations" ++ newline
  ++ "1.1 Brand Overview" ++ newline
  ++ "1.2 Brand Purpose" ++ newline
  ++ "Why SODAX exists." ++ newline
  ++ "2. Positioning and Messaging Architecture".

(** The guard of [getBrandBible]: a snapshot is cached and its time stamp
    is less than the time to live behind the clock. *)
Definition fresh (e : env) (st : cache) : bool :=
  match cachedData st with
  | Some _ => dateNow e - cacheTimestamp st <? CACHE_TTL_MS
  | None => false
  end.

(** A document tree for a page of plain text: both traversals return the
    text itself. *)
Definition plainText (html : string) : outcome page :=
  Returned (mkPage html html).

(** A DOM library that throws on every page. *)
Definition brokenDom (html : string) : outcome page :=
  Threw "Cannot read the document".

(** Every section and subsection of a snapshot as a search result with
    its score, in the order of encounter: the sections in the order of the
    snapshot, each one followed by its subsections in their order. *)
Definition scoredEntries (data : BrandBibleData) (queryTerms : list string)
  : list SearchResult :=
  flat_map
    (fun section =>
       sectionResult section
         (calculateRelevance (title section ++ " " ++ content section) queryTerms)
       :: map (fun sub =>
                 subsectionResult section sub
                   (calculateRelevance (sub_title sub ++ " " ++ sub_content sub)
                                       queryTerms))
              (subsections section))
    (sections data).

(** The order of encounter over the Taxonomy Table: each section, then
    the subsections under it, in the order of the two tables. *)
Definition encounterOrder : list (string * option string) :=
  flat_map (fun entry =>
              (fst entry, None)
              :: map (fun sub => (fst entry, Some (fst sub)))
                     (taxonomyUnder (fst entry)))
           SECTION_NAMES.

Definition positive (r : SearchResult) : bool := 0 <? relevance r.

Definition scoreIs (v : Z) (r : SearchResult) : bool := relevance r =? v.

(** A small page and the environments of a few calls, for the concrete
    instances of the statements: a first visit, a visit inside the window
    of the cache, one after it, one within the clock tick in which the
    first snapshot was assembled, and one that meets a 404. *)
Definition samplePage : string :=
  "SODAX Brand Bible v1.0 Last updated - March 2025" ++ newline
  ++ "4. Visual Identity" ++ newline
  ++ "The logo adapts to its context." ++ newline
  ++ "4.1 Logo Usage" ++ newline
  ++ "Keep clear space around the logo.".

Definition firstVisit : env := mkEnv 1000 (Response samplePage) 1200.

Definition visitInWindow : env := mkEnv 200000 (Response samplePage) 200300.

Definition visitAfterWindow : env := mkEnv 301000 (Response samplePage) 301400.

Definition visitInSameTick : env := mkEnv 1200 (Response samplePage) 1200.

(** A visit whose request takes 29 seconds, and one that begins 300
    seconds after the first began, 271 seconds after its snapshot was
    assembled. *)
Definition slowVisit : env := mkEnv 0 (Response samplePage) 29000.

Definition visitAtExpiry : env := mkEnv 300000 (Response samplePage) 300400.

Definition visitNotFound : env :=
  mkEnv 301000 (AxiosError (Some 404) None "Request failed with status code 404") 301400.

(** A matcher is extensional when it uses its continuation only through
    the results of the continuation. *)
Definition extensional (m : matcher) : Prop :=
  forall s cap k k',
    (forall s1 cap1, k s1 cap1 = k' s1 cap1) -> m s cap k = m s cap k'.

(* ================================================================= *)
(** ** Further operations of the service and of the tool layer *)

(** The end of [extractTextContent]:
    [text.replace(/\n{3,}/g, "\n\n").replace(/^\s+|\s+$/g, "").trim()].

    The first replacement keeps two line feeds of every run of three or
    more; [run] counts the line feeds seen since the last other code
    unit. *)
Fixpoint collapseNewlines (run : nat) (text : string) : string :=
  match text with
  | EmptyString => EmptyString
  | String c rest =>
      if Ascii.eqb c (ascii_of_nat 10)
      then (if (run <? 2)%nat
            then String c (collapseNewlines (S run) rest)
            else collapseNewlines (S run) rest)
      else String c (collapseNewlines O rest)
  end.

(** The second replacement removes the white space at both ends, as
    [trim] does after it. *)
Definition cleanText (text : string) : string :=
  trim (trim (collapseNewlines O text)).

(** The Markdown text of the section tool: [lines.join("\n")]. *)
Definition sectionMarkdownLines (section : BrandSection) : list string :=
  let lines :=
    [ "# " ++ id section ++ ". " ++ title section;
      "";
      content section;
      "";
      "## Subsections";
      "" ] in
  let pushed :=
    flat_map (fun sub =>
                [ "### " ++ sub_id sub ++ " " ++ sub_title sub;
                  sub_content sub;
                  "" ])
             (subsections section) in
  app lines (app pushed [ "---"; "*Source: " ++ BRAND_BIBLE_URL ++ "*" ]).

Definition sectionMarkdown (section : BrandSection) : string :=
  join newline (sectionMarkdownLines section).

(** [if (textContent.length > CHARACTER_LIMIT) textContent =
    textContent.slice(0, CHARACTER_LIMIT) + ...] of the section tool. *)
Definition truncateSectionText (textContent : string) : string :=
  if CHARACTER_LIMIT <? Z.of_nat (String.length textContent)
  then take (Z.to_nat CHARACTER_LIMIT) textContent
       ++ newline ++ newline
       ++ "[Content truncated. Use sodax_get_subsection for specific subsections.]"
  else textContent.

Record OverviewSection : Type := mkOverviewSection {
  os_id : string;
  os_title : string;
  os_subsectionCount : nat
}.

Record OverviewOutput : Type := mkOverviewOutput {
  ov_version : string;
  ov_lastUpdated : string;
  ov_source : string;
  ov_sections : list OverviewSection;
  ov_summary : string
}.

Record ListedSection : Type := mkListedSection {
  ls_id : string;
  ls_title : string;
  ls_subsections : list (string * string)     (* [{ id, title }] *)
}.

Record ListOutput : Type := mkListOutput {
  lo_sections : list ListedSection
}.

Section MoreTools.

Variable cheerio : string -> outcome page.

Definition sodax_get_brand_overview (e : env) : M (toolResult OverviewOutput) :=
  tryCatch
    (data <- getBrandBible cheerio e ;;
     ret (Structured
            {| ov_version := version data;
               ov_lastUpdated := lastUpdated data;
               ov_source := BRAND_BIBLE_URL;
               ov_sections :=
                 map (fun s => {| os_id := id s;
                                  os_title := title s;
                                  os_subsectionCount := List.length (subsections s) |})
                     (sections data);
               ov_summary := "This Brand Bible defines how SODAX should be represented externally. It sets the foundations for positioning, voice, and visual expression across all public contexts." |}))
    (fun error => ret (TextOnly ("Error fetching brand bible overview: " ++ error))).

(** The tool that lists the subsections reads the two tables only. *)
Definition sodax_list_subsections : M (toolResult ListOutput) :=
  tryCatch
    (let output :=
       {| lo_sections :=
            map (fun '(id, title) =>
                   {| ls_id := id;
                      ls_title := title;
                      ls_subsections :=
                        map (fun '(subId, subTitle) => (subId, subTitle))
                            (filter (fun '(subId, _) => startsWith (id ++ ".") subId)
                                    SUBSECTION_NAMES) |})
                SECTION_NAMES |} in
     ret (Structured output))
    (fun error => ret (TextOnly ("Error listing subsections: " ++ error))).

End MoreTools.

(** *** Vocabulary of the further statements *)

(** The test of the second loop of [calculateRelevance]: some query term
    holds the keyword or is held by it. *)
Definition related (queryTerms : list string) (keyword : string) : bool :=
  existsb (fun t => includes keyword t || includes t keyword) queryTerms.

Fixpoint hasSpace (s : string) : bool :=
  match s with
  | EmptyString => false
  | String c s' => isSpace c || hasSpace s'
  end.

Fixpoint allSpaces (s : string) : bool :=
  match s with
  | EmptyString => true
  | String c s' => isSpace c && allSpaces s'
  end.

(** [p] at the front of [s], the case of letters set aside: what follows
    it in [s]. *)
Fixpoint stripPrefixIgnoreCase (p s : string) : option string :=
  match p with
  | EmptyString => Some s
  | String a p' =>
      match s with
      | String b s' =>
          if Ascii.eqb (upperChar a) (upperChar b)
          then stripPrefixIgnoreCase p' s' else None
      | EmptyString => None
      end
  end.

(** Two strings that differ in the case of letters only. *)
Fixpoint equalIgnoreCase (a b : string) : bool :=
  match a, b with
  | EmptyString, EmptyString => true
  | String x a', String y b' =>
      Ascii.eqb (upperChar x) (upperChar y) && equalIgnoreCase a' b'
  | _, _ => false
  end.

(** What an identifier interpolated into a pattern accepts: itself, the
    case of letters set aside, with any code unit that is not a line
    terminator in the place of each of its dots. *)
Fixpoint acceptedAs (identifier heading : string) : bool :=
  match identifier, heading with
  | EmptyString, EmptyString => true
  | String a identifier', String b heading' =>
      (if Ascii.eqb a "."%char
       then negb (isLineTerminator b)
       else Ascii.eqb (upperChar a) (upperChar b))
      && acceptedAs identifier' heading'
  | _, _ => false
  end.

(** The text of three line feeds. *)
Definition threeNewlines : string := newline ++ newline ++ newline.

(** [t] is a part of [s]: some text, then [t], then some text. *)
Definition isPartOf (t s : string) : Prop :=
  exists a b, s = a ++ t ++ b.

(** [s1] is an end of [s]. *)
Definition isSuffixOf (s1 s : string) : Prop :=
  exists a, s = a ++ s1.

Definition headIsSpace (s : string) : bool :=
  match s with
  | EmptyString => false
  | String c _ => isSpace c
  end.

Fixpoint lastIsSpace (s : string) : bool :=
  match s with
  | EmptyString => false
  | String c EmptyString => isSpace c
  | String _ s' => lastIsSpace s'
  end.

(** A snapshot of the sample page, as the first visit assembles it. *)
Definition sampleSnapshot : BrandBibleData :=
  {| version := "1.0";
     lastUpdated := "unknown";
     sections := parseSections samplePage;
     rawContent := samplePage;
     fetchedAt := 1200 |}.

(** Every code unit of [s] passes the test [p]. *)
Fixpoint allChars (p : ascii -> bool) (s : string) : bool :=
  match s with
  | EmptyString => true
  | String c s' => p c && allChars p s'
  end.

(** What a successful run owes to its continuation: the continuation was
    entered on an end of the input, with the capture it was given or with
    a part of the input. *)
Definition traceable (m : matcher) : Prop :=
  forall s cap k res,
    m s cap k = Some res ->
    exists s1 cap1,
      k s1 cap1 = Some res
      /\ isSuffixOf s1 s
      /\ (cap1 = cap \/ isPartOf cap1 s).

(* ================================================================= *)
(** ** The grammar of patterns

    [new RegExp(source, flags)] reads its source by the grammar of
    ECMAScript patterns; without the [u] flag that is the grammar with the
    extensions of Annex B.  [parsePattern] reads the part of the grammar
    that the syntax tree [regex] expresses, one code unit at a time: in it
    a syntax character has its special meaning unless a backslash stands
    before it.  Its [None] stands for a [SyntaxError] (nothing to repeat,
    a parenthesis or a class left open, a backslash at the end, a range
    out of order) and for a construct outside that part: repetition
    bounded in braces, the assertions [^], [\b], [\B] and [(?!],
    lookbehind, a negated class, back references, named and further
    capturing groups, numeric and letter escapes other than the ones
    listed, a repetition of a lookahead or of a pattern that holds the
    capturing group, a disjunction with the capturing group in one of
    its alternatives, and an optional pattern that can match the empty
    string. *)

Module PatternSyntax.

Inductive quantifier : Type := ZeroOrMore | OneOrMore | ZeroOrOne.

Definition quantified (q : quantifier) (greedy : bool) (r : regex) : regex :=
  match q with
  | ZeroOrMore => Star greedy r
  | OneOrMore => Seq r (Star greedy r)
  | ZeroOrOne => if greedy then Alt r Eps else Alt Eps r
  end.

Fixpoint hasGroup (r : regex) : bool :=
  match r with
  | Eps | Lit _ | Class _ | Eoi => false
  | Seq r1 r2 | Alt r1 r2 => hasGroup r1 || hasGroup r2
  | Star _ r1 | Look r1 => hasGroup r1
  | Group _ => true
  end.

(** [false] only when every match of the pattern consumes input. *)
Fixpoint nullable (r : regex) : bool :=
  match r with
  | Eps | Eoi | Star _ _ | Look _ => true
  | Lit _ | Class _ => false
  | Seq r1 r2 => nullable r1 && nullable r2
  | Alt r1 r2 => nullable r1 || nullable r2
  | Group r1 => nullable r1
  end.

(** The last term of the alternative that is being read: what a
    quantifier that comes next would apply to. *)
Inductive term : Type :=
| Atom (r : regex)                      (* takes a quantifier *)
| Greedy (q : quantifier) (r : regex)   (* r*, r+, r?: a further ? makes it lazy *)
| Fixed (r : regex).                    (* an assertion, a lazy repetition *)

Definition termRegex (t : term) : regex :=
  match t with
  | Atom r => r
  | Greedy q r => quantified q true r
  | Fixed r => r
  end.

(** A disjunction that is being read. *)
Record frame : Type := mkFrame {
  alternatives : list regex;    (* the alternatives read, the last one first *)
  terms : list regex;           (* the terms of this alternative, the last one first *)
  lastTerm : option term
}.

Definition emptyFrame : frame := mkFrame [] [] None.

Definition closedTerms (f : frame) : list regex :=
  match lastTerm f with
  | Some t => termRegex t :: terms f
  | None => terms f
  end.

Definition alternativeOf (f : frame) : regex := seqs (List.rev (closedTerms f)).

Fixpoint disjunction (r : regex) (others : list regex) : regex :=
  match others with
  | [] => r
  | r' :: others' => Alt r (disjunction r' others')
  end.

Definition frameRegex (f : frame) : regex :=
  match List.rev (alternativeOf f :: alternatives f) with
  | [] => Eps
  | r :: others => disjunction r others
  end.

(** The capturing group stands in no alternative of a disjunction of
    several: where it does, a match can leave it undefined. *)
Definition groupTakesPart (f : frame) : bool :=
  match alternatives f with
  | [] => true
  | _ :: _ => negb (existsb hasGroup (alternativeOf f :: alternatives f))
  end.

Definition push (t : term) (f : frame) : frame :=
  mkFrame (alternatives f) (closedTerms f) (Some t).

Definition nextAlternative (f : frame) : frame :=
  mkFrame (alternativeOf f :: alternatives f) [] None.

Definition quantify (q : quantifier) (f : frame) : option frame :=
  match lastTerm f with
  | Some (Atom r) =>
      if hasGroup r then None
      else match q with
           | ZeroOrOne =>
               if nullable r then None
               else Some (mkFrame (alternatives f) (terms f) (Some (Greedy q r)))
           | _ => Some (mkFrame (alternatives f) (terms f) (Some (Greedy q r)))
           end
  | Some (Greedy q' r) =>
      match q with
      | ZeroOrOne =>
          Some (mkFrame (alternatives f) (terms f) (Some (Fixed (quantified q' false r))))
      | _ => None
      end
  | Some (Fixed _) => None
  | None => None
  end.

Inductive groupKind : Type := Capturing | NonCapturing | Lookahead.

Definition closeGroup (kind : groupKind) (r : regex) : term :=
  match kind with
  | Capturing => Atom (Group r)
  | NonCapturing => Atom r
  | Lookahead => Fixed (Look r)
  end.

(** An atom of a class: one character, or the set of a class escape. *)
Inductive classAtom : Type :=
| One (c : ascii)
| Many (p : ascii -> bool).

Definition atomSet (a : classAtom) : ascii -> bool :=
  match a with
  | One c => Ascii.eqb c
  | Many p => p
  end.

Definition union (p q : ascii -> bool) : ascii -> bool := fun x => p x || q x.

Definition complement (p : ascii -> bool) : ascii -> bool := fun x => negb (p x).

Definition between (lo hi : ascii) : ascii -> bool :=
  fun x => ((code lo <=? code x) && (code x <=? code hi))%nat.

Definition isWord (c : ascii) : bool :=
  isUpper c || isLower c || isDigit c || Ascii.eqb c "_".

Record classState : Type := mkClass {
  members : ascii -> bool;        (* the set read so far *)
  previous : option classAtom;    (* the atom that a - would take as its bound *)
  dash : bool                     (* a - after [previous], its other bound not read *)
}.

Definition emptyClass : classState := mkClass (fun _ => false) None false.

Definition addAtom (a : classAtom) (cs : classState) : option classState :=
  if dash cs
  then match previous cs, a with
       | Some (One lo), One hi =>
           if (code lo <=? code hi)%nat
           then Some (mkClass (union (members cs) (between lo hi)) None false)
           else None
       | _, _ =>
           (* Annex B: a set as a bound makes the - a member *)
           Some (mkClass (union (union (members cs) (Ascii.eqb "-")) (atomSet a))
                         None false)
       end
  else Some (mkClass (union (members cs) (atomSet a)) (Some a) false).

Definition classDash (cs : classState) : option classState :=
  match previous cs with
  | Some _ =>
      if dash cs then addAtom (One "-") cs
      else Some (mkClass (members cs) (previous cs) true)
  | None => addAtom (One "-") cs
  end.

Definition closedMembers (cs : classState) : ascii -> bool :=
  if dash cs then union (members cs) (Ascii.eqb "-") else members cs.

(** What follows a backslash: the class escapes, the control escapes and
    the identity escapes of the characters that are no letter, digit or
    underscore. *)
Definition escapeAtom (c : ascii) : option classAtom :=
  if Ascii.eqb c "d" then Some (Many isDigit)
  else if Ascii.eqb c "D" then Some (Many (complement isDigit))
  else if Ascii.eqb c "s" then Some (Many isSpace)
  else if Ascii.eqb c "S" then Some (Many (complement isSpace))
  else if Ascii.eqb c "w" then Some (Many isWord)
  else if Ascii.eqb c "W" then Some (Many (complement isWord))
  else if Ascii.eqb c "t" then Some (One (ascii_of_nat 9))
  else if Ascii.eqb c "n" then Some (One (ascii_of_nat 10))
  else if Ascii.eqb c "v" then Some (One (ascii_of_nat 11))
  else if Ascii.eqb c "f" then Some (One (ascii_of_nat 12))
  else if Ascii.eqb c "r" then Some (One (ascii_of_nat 13))
  else if isWord c then None
  else Some (One c).

Inductive mode : Type :=
| Normal
| Escape                         (* after a backslash *)
| GroupStart                     (* after ( *)
| GroupModifier                  (* after (? *)
| ClassStart                     (* after [ *)
| InClass (cs : classState)
| ClassEscape (cs : classState). (* after a backslash in a class *)

Record state : Type := mkState {
  current : frame;
  enclosing : list (groupKind * frame);  (* the groups open around it, innermost first *)
  captures : bool;                       (* the capturing group has been opened *)
  reading : mode
}.

Definition initialState : state := mkState emptyFrame [] false Normal.

Definition setFrame (st : state) (f : frame) : state :=
  mkState f (enclosing st) (captures st) Normal.

Definition setMode (st : state) (m : mode) : state :=
  mkState (current st) (enclosing st) (captures st) m.

Definition pushTerm (t : term) (st : state) : state :=
  setFrame st (push t (current st)).

Definition openGroup (kind : groupKind) (st : state) : option state :=
  match kind with
  | Capturing =>
      if captures st then None
      else Some (mkState emptyFrame ((kind, current st) :: enclosing st) true Normal)
  | _ =>
      Some (mkState emptyFrame ((kind, current st) :: enclosing st) (captures st) Normal)
  end.

Definition closeParen (st : state) : option state :=
  match enclosing st with
  | [] => None
  | (kind, outer) :: others =>
      if groupTakesPart (current st)
      then Some (mkState (push (closeGroup kind (frameRegex (current st))) outer)
                         others (captures st) Normal)
      else None
  end.

Definition stepNormal (st : state) (c : ascii) : option state :=
  if negb (isSyntaxChar c) then Some (pushTerm (Atom (Lit c)) st)
  else if Ascii.eqb c backslash then Some (setMode st Escape)
  else if Ascii.eqb c "(" then Some (setMode st GroupStart)
  else if Ascii.eqb c ")" then closeParen st
  else if Ascii.eqb c "|" then Some (setFrame st (nextAlternative (current st)))
  else if Ascii.eqb c "[" then Some (setMode st ClassStart)
  else if Ascii.eqb c "*" then option_map (setFrame st) (quantify ZeroOrMore (current st))
  else if Ascii.eqb c "+" then option_map (setFrame st) (quantify OneOrMore (current st))
  else if Ascii.eqb c "?" then option_map (setFrame st) (quantify ZeroOrOne (current st))
  else if Ascii.eqb c "." then Some (pushTerm (Atom dot) st)
  else if Ascii.eqb c "$" then Some (pushTerm (Fixed Eoi) st)
  else if Ascii.eqb c "]" || Ascii.eqb c "}" then Some (pushTerm (Atom (Lit c)) st)
  else None.

Definition atomTerm (a : classAtom) : term :=
  match a with
  | One c => Atom (Lit c)
  | Many p => Atom (Class p)
  end.

Definition stepClass (st : state) (cs : classState) (c : ascii) : option state :=
  if Ascii.eqb c "]" then Some (pushTerm (Atom (Class (closedMembers cs))) st)
  else if Ascii.eqb c backslash then Some (setMode st (ClassEscape cs))
  else if Ascii.eqb c "-"
       then option_map (fun cs' => setMode st (InClass cs')) (classDash cs)
       else option_map (fun cs' => setMode st (InClass cs')) (addAtom (One c) cs).

Definition step (st : state) (c : ascii) : option state :=
  match reading st with
  | Normal => stepNormal st c
  | Escape => option_map (fun a => pushTerm (atomTerm a) st) (escapeAtom c)
  | GroupStart =>
      if Ascii.eqb c "?" then Some (setMode st GroupModifier)
      else match openGroup Capturing st with
           | Some st' => stepNormal st' c
           | None => None
           end
  | GroupModifier =>
      if Ascii.eqb c ":" then openGroup NonCapturing st
      else if Ascii.eqb c "=" then openGroup Lookahead st
      else None
  | ClassStart => if Ascii.eqb c "^" then None else stepClass st emptyClass c
  | InClass cs => stepClass st cs c
  | ClassEscape cs =>
      let a := if Ascii.eqb c "b" then Some (One (ascii_of_nat 8)) else escapeAtom c in
      match a with
      | Some a' => option_map (fun cs' => setMode st (InClass cs')) (addAtom a' cs)
      | None => None
      end
  end.

Fixpoint readAll (st : state) (src : string) : option state :=
  match src with
  | EmptyString => Some st
  | String c rest =>
      match step st c with
      | Some st' => readAll st' rest
      | None => None
      end
  end.

Definition finish (st : state) : option regex :=
  match reading st, enclosing st with
  | Normal, [] =>
      if groupTakesPart (current st) then Some (frameRegex (current st)) else None
  | _, _ => None
  end.

Definition parsePattern (src : string) : option regex :=
  match readAll initialState src with
  | Some st => finish st
  | None => None
  end.

(** *** What the sources of the service are read as *)

(** A frame after the terms [ts] have been read one after the other. *)
Definition pushAll (ts : list term) (f : frame) : frame :=
  fold_left (fun f' t => push t f') ts f.

(** An identifier without syntax characters other than the dot is read
    as [interpolated] has it: the dot as the wildcard, the rest as
    literals. *)
Definition identifierTerm (c : ascii) : term :=
  Atom (if Ascii.eqb c "." then dot else Lit c).

(** What the parts of the sources after the title are read as. *)
Definition captureRead : regex :=
  Group (Star false (Class (union (union (fun _ => false) isSpace) (complement isSpace)))).

Definition sectionLookRead : regex :=
  Look (Alt (seqs [ Seq (Class isDigit) (Star true (Class isDigit));
                    Lit ".";
                    Seq (Class isSpace) (Star true (Class isSpace));
                    Class (union (union (fun _ => false) (Ascii.eqb "A")) (between "A" "Z")) ])
            Eoi).

Definition subsectionLookRead : regex :=
  Look (Alt (seqs [ Seq (Class isDigit) (Star true (Class isDigit));
                    Lit ".";
                    Seq (Class isDigit) (Star true (Class isDigit)) ])
            (Alt (seqs [ Seq (Class isDigit) (Star true (Class isDigit)); Lit "." ])
                 Eoi)).

(** The terms that the two sources are read as. *)
Definition sectionTerms (identifier name : string) : list term :=
  (map identifierTerm (list_ascii_of_string identifier)
   ++ [Atom (Lit "."); Greedy ZeroOrMore (Class isSpace)]
   ++ map (fun c => Atom (Lit c)) (list_ascii_of_string name)
   ++ [Atom captureRead; Fixed sectionLookRead])%list.

Definition subsectionTerms (identifier name : string) : list term :=
  (map identifierTerm (list_ascii_of_string identifier)
   ++ [Greedy ZeroOrMore (Class isSpace)]
   ++ map (fun c => Atom (Lit c)) (list_ascii_of_string name)
   ++ [Atom captureRead; Fixed subsectionLookRead])%list.

End PatternSyntax.

(** The sources that [extractSectionContent] and
    [extractSubsectionContent] hand to [new RegExp]: the template
    literals of the code, where [\\] is one backslash. *)
Definition sectionSource (sectionNum sectionName : string) : string :=
  sectionNum ++ "\.\s*" ++ escapeRegex sectionName
    ++ "([\s\S]*?)(?=\d+\.\s+[A-Z]|$)".

Definition subsectionSource (subId subName : string) : string :=
  let escapedName := escapeRegex subName in
  subId ++ "\s*" ++ escapedName ++ "([\s\S]*?)(?=\d+\.\d+|\d+\.|$)".

(** Two patterns that no input, capture and continuation tell apart. *)
Definition equivalent (r1 r2 : regex) : Prop :=
  forall (ignoreCase : bool) (s cap : string) (k : string -> string -> option string),
    run ignoreCase r1 s cap k = run ignoreCase r2 s cap k.

(** The identifiers that [interpolated] reads as the grammar does: no
    syntax character but the dot. *)
Definition plainIdentifier (identifier : string) : bool :=
  allChars (fun c => negb (isSyntaxChar c) || Ascii.eqb c ".") identifier.

(* ================================================================= *)
(** * Properties *)

(** ** Strings *)

Lemma splitOn_length (sep : string) :
  forall s skip acc, (1 <= List.length (splitOn sep skip acc s))%nat.
Proof.
  induction s as [|c s IH]; intros skip acc; simpl.
  - lia.
  - destruct skip as [|k].
    + destruct (startsWith sep (String c s)); simpl.
      * lia.
      * apply IH.
    + apply IH.
Qed.

Lemma startsWith_empty_r (t : string) :
  startsWith t EmptyString = true -> t = EmptyString.
Proof. destruct t; simpl; congruence. Qed.

(** A separator that occurs is found at least once by [split]. *)
Lemma includes_splitOn (sep : string) :
  sep <> EmptyString ->
  forall s acc,
    includes sep s = true ->
    (2 <= List.length (splitOn sep 0 acc s))%nat.
Proof.
  intros Hsep; induction s as [|c s IH]; intros acc Hin; simpl in *.
  - apply startsWith_empty_r in Hin. contradiction.
  - destruct (startsWith sep (String c s)) eqn:Hpre; simpl.
    + pose proof (splitOn_length sep s (String.length sep - 1) EmptyString). lia.
    + simpl in Hin. apply IH. exact Hin.
Qed.

Lemma includes_occurrences (term contentLower : string) :
  term <> EmptyString ->
  includes term contentLower = true ->
  1 <= occurrences term contentLower.
Proof.
  intros Hne Hin. unfold occurrences, split.
  destruct term as [|a term]; [contradiction|].
  pose proof (includes_splitOn (String a term) Hne contentLower EmptyString Hin).
  lia.
Qed.

Lemma take_length (n : nat) :
  forall s, (String.length (take n s) <= n)%nat.
Proof.
  induction n as [|n IH]; intros s; simpl.
  - lia.
  - destruct s as [|c s]; simpl.
    + lia.
    + specialize (IH s). lia.
Qed.

(** ** The matcher *)

Lemma repeatMatcher_ext (body : matcher) (greedy : bool) :
  extensional body ->
  forall fuel s cap k k',
    (forall s1 cap1, k s1 cap1 = k' s1 cap1) ->
    repeatMatcher body greedy k fuel s cap = repeatMatcher body greedy k' fuel s cap.
Proof.
  intros Hbody. induction fuel as [|fuel IH]; intros s cap k k' Hk; simpl.
  - reflexivity.
  - rewrite (Hk s cap).
    rewrite (Hbody s cap _
               (fun s1 cap1 =>
                  if (String.length s1 <? String.length s)%nat
                  then repeatMatcher body greedy k' fuel s1 cap1 else None)).
    + reflexivity.
    + intros s1 cap1. destruct (String.length s1 <? String.length s)%nat.
      * apply IH, Hk.
      * reflexivity.
Qed.

Lemma run_ext (ignoreCase : bool) (r : regex) : extensional (run ignoreCase r).
Proof.
  induction r as [| c | p | r1 IH1 r2 IH2 | r1 IH1 r2 IH2 | greedy r1 IH1
                 | r1 IH1 | r1 IH1 |];
    intros s cap k k' Hk.
  - apply Hk.
  - simpl. destruct s as [|x s]; [reflexivity|]. destruct (litMatches _ c x); auto.
  - simpl. destruct s as [|x s]; [reflexivity|]. destruct (classMatches _ p x); auto.
  - simpl. apply IH1. intros s1 cap1. apply IH2, Hk.
  - simpl. rewrite (IH1 s cap k k' Hk), (IH2 s cap k k' Hk). reflexivity.
  - change (repeatMatcher (run ignoreCase r1) greedy k (S (String.length s)) s cap
            = repeatMatcher (run ignoreCase r1) greedy k' (S (String.length s)) s cap).
    apply repeatMatcher_ext; assumption.
  - simpl. apply IH1. intros s1 cap1. apply Hk.
  - simpl. destruct (run ignoreCase r1 s cap _); [apply Hk | reflexivity].
  - simpl. destruct s; [apply Hk | reflexivity].
Qed.

(** More fuel than the input is long is as good as any other such
    amount. *)
Lemma repeatMatcher_fuel (body : matcher) (greedy : bool)
      (k : string -> string -> option string) :
  extensional body ->
  forall fuel1 fuel2 s cap,
    (String.length s < fuel1)%nat ->
    (String.length s < fuel2)%nat ->
    repeatMatcher body greedy k fuel1 s cap = repeatMatcher body greedy k fuel2 s cap.
Proof.
  intros Hbody. induction fuel1 as [|fuel1 IH]; intros fuel2 s cap H1 H2.
  - lia.
  - destruct fuel2 as [|fuel2]; [lia|]. simpl.
    rewrite (Hbody s cap _
               (fun s1 cap1 =>
                  if (String.length s1 <? String.length s)%nat
                  then repeatMatcher body greedy k fuel2 s1 cap1 else None)).
    + reflexivity.
    + intros s1 cap1.
      destruct (Nat.ltb_spec (String.length s1) (String.length s)).
      * apply IH; lia.
      * reflexivity.
Qed.

(** The repetition as ECMAScript defines it, without fuel: match the
    body and then the repetition again, provided that the body has
    consumed something, or go on with the continuation; which of the two
    is tried first is what greedy and lazy mean. *)
Lemma run_star (ignoreCase greedy : bool) (r : regex) (s cap : string)
      (k : string -> string -> option string) :
  run ignoreCase (Star greedy r) s cap k
  = let d := fun s1 cap1 =>
               if (String.length s1 <? String.length s)%nat
               then run ignoreCase (Star greedy r) s1 cap1 k
               else None in
    if greedy
    then match run ignoreCase r s cap d with
         | Some res => Some res
         | None => k s cap
         end
    else match k s cap with
         | Some res => Some res
         | None => run ignoreCase r s cap d
         end.
Proof.
  change (run ignoreCase (Star greedy r) s cap k)
    with (repeatMatcher (run ignoreCase r) greedy k (S (String.length s)) s cap).
  cbn [repeatMatcher]. cbv zeta.
  rewrite (run_ext ignoreCase r s cap _
             (fun s1 cap1 =>
                if (String.length s1 <? String.length s)%nat
                then run ignoreCase (Star greedy r) s1 cap1 k else None)).
  - reflexivity.
  - intros s1 cap1.
    destruct (Nat.ltb_spec (String.length s1) (String.length s)); [|reflexivity].
    change (run ignoreCase (Star greedy r) s1 cap1 k)
      with (repeatMatcher (run ignoreCase r) greedy k (S (String.length s1)) s1 cap1).
    apply repeatMatcher_fuel; [apply run_ext | lia | lia].
Qed.

(** Escaping makes every character of a title a literal of the pattern. *)
Lemma escaped_escapeRegex (str : string) :
  escaped (escapeRegex str) = literal str.
Proof.
  induction str as [|c str IH]; simpl.
  - reflexivity.
  - destruct (isSyntaxChar c) eqn:Hsyntax; simpl.
    + rewrite IH. reflexivity.
    + unfold isSyntaxChar in Hsyntax.
      apply orb_false_iff in Hsyntax. destruct Hsyntax as [Hback _].
      rewrite Hback, IH. reflexivity.
Qed.

(** ** Scoring *)

Lemma scoreTerm_shift (cl : string) (z : Z) (t : string) :
  scoreTerm cl z t = z + directContribution cl t.
Proof.
  unfold directContribution, scoreTerm.
  destruct (includes t cl); lia.
Qed.

Lemma fold_scoreTerm (cl : string) :
  forall terms z,
    fold_left (scoreTerm cl) terms z = z + sumZ (map (directContribution cl) terms).
Proof.
  induction terms as [|t terms IH]; intros z; simpl.
  - lia.
  - rewrite IH, scoreTerm_shift. lia.
Qed.

Lemma fold_scoreKeyword (cl : string) (terms : list string) :
  forall kws z,
    fold_left (scoreKeyword cl terms) kws z
    = z + fold_left (scoreKeyword cl terms) kws 0.
Proof.
  induction kws as [|kw kws IH]; intros z; simpl.
  - lia.
  - rewrite IH. rewrite (IH (scoreKeyword cl terms 0 kw)).
    unfold scoreKeyword.
    destruct (existsb _ terms); [destruct (includes kw cl)|]; lia.
Qed.

(** The score is the sum of the contributions of the terms and of the
    keyword boost. *)
Lemma calculateRelevance_sum (c : string) (terms : list string) :
  calculateRelevance c terms
  = sumZ (map (directContribution (toLowerCase c)) terms)
    + keywordBoost (toLowerCase c) terms.
Proof.
  unfold calculateRelevance, keywordBoost.
  rewrite fold_scoreKeyword, fold_scoreTerm. lia.
Qed.

Lemma length_gt_nonempty (t : string) :
  (2 < String.length t)%nat -> t <> EmptyString.
Proof. intros H ->. simpl in H. lia. Qed.

(** C1 (as amended).  For every content [c] and every list of query terms
    of length above 2, the score is the sum of the direct-occurrence
    contributions of the terms and of the keyword boost; a term that
    occurs in the lower-cased content contributes 10 plus the number of its
    occurrences as [split] counts them, the first one included, that number
    capped at 5: between 11 and 15; a term that does not occur
    contributes 0. *)
Theorem direct_occurrence_contribution :
  forall (c : string) (terms : list string),
    Forall (fun t => (2 < String.length t)%nat) terms ->
    calculateRelevance c terms
    = sumZ (map (directContribution (toLowerCase c)) terms)
      + keywordBoost (toLowerCase c) terms
    /\ Forall (fun t =>
                 (includes t (toLowerCase c) = true ->
                  directContribution (toLowerCase c) t
                  = 10 + Z.min (occurrences t (toLowerCase c)) 5
                  /\ 1 <= occurrences t (toLowerCase c)
                  /\ 11 <= directContribution (toLowerCase c) t <= 15)
                 /\ (includes t (toLowerCase c) = false ->
                     directContribution (toLowerCase c) t = 0))
              terms.
Proof.
  intros c terms Hlen. split.
  - apply calculateRelevance_sum.
  - induction Hlen as [|t terms Ht _ IH]; constructor; [|exact IH].
    unfold directContribution, scoreTerm. split; intros Hin; rewrite Hin.
    + pose proof (includes_occurrences t (toLowerCase c)
                    (length_gt_nonempty t Ht) Hin) as Hocc.
      repeat split; lia.
    + reflexivity.
Qed.

Lemma direct_occurrence_contribution_witness :
  calculateRelevance "Logo Usage: the logo, again the logo" ["logo"; "usage"; "palette"]
  = 13 + 11 + 0 + 5.
Proof.
  destruct (direct_occurrence_contribution
              "Logo Usage: the logo, again the logo" ["logo"; "usage"; "palette"])
    as [Hsum _].
  - repeat constructor.
  - rewrite Hsum. reflexivity.
Defined.

(** C1, as the specification words it, fails: a term that occurs once
    adds 11 to the score, not 10. *)
Lemma single_occurrence_scores_eleven :
  includes "partner" (toLowerCase "Partner Announcements") = true
  /\ occurrences "partner" (toLowerCase "Partner Announcements") = 1
  /\ directContribution (toLowerCase "Partner Announcements") "partner" = 11
  /\ specContribution (toLowerCase "Partner Announcements") "partner" = 10
  /\ calculateRelevance "Partner Announcements" ["partner"] = 11
  /\ specRelevance "Partner Announcements" ["partner"] = 10
  /\ calculateRelevance "Partner Announcements" ["partner"]
     <> specRelevance "Partner Announcements" ["partner"].
Proof. repeat split; try reflexivity. discriminate. Qed.

(** ** Segmentation *)

Lemma default_description_nonempty (sectionNum : string) :
  getDefaultSectionDescription sectionNum <> EmptyString.
Proof.
  unfold getDefaultSectionDescription.
  destruct (lookup sectionNum _) as [[|c d]|]; discriminate.
Qed.

Lemma default_description_length (sectionNum : string) :
  (String.length (getDefaultSectionDescription sectionNum) <= 2000)%nat.
Proof.
  unfold getDefaultSectionDescription, lookup.
  repeat match goal with
         | |- context [String.eqb ?k sectionNum] => destruct (String.eqb k sectionNum)
         end;
    apply Nat.leb_le; vm_compute; reflexivity.
Qed.

Lemma append_length (a b : string) :
  String.length (a ++ b) = (String.length a + String.length b)%nat.
Proof. induction a as [|c a IH]; simpl; [reflexivity | now rewrite IH]. Qed.

Lemma extractSectionContent_length (content sectionNum sectionName : string) :
  (String.length (extractSectionContent content sectionNum sectionName) <= 2000)%nat.
Proof.
  unfold extractSectionContent.
  destruct (exec true _ content).
  - apply take_length.
  - apply default_description_length.
Qed.

Lemma extractSubsectionContent_length (content subId subName : string) :
  (String.length subName <= 1400)%nat ->
  (String.length (extractSubsectionContent content subId subName) <= 1500)%nat.
Proof.
  intros Hname. unfold extractSubsectionContent.
  destruct (exec true _ content).
  - apply take_length.
  - rewrite !append_length. simpl. lia.
Qed.

Lemma subsection_titles_short :
  Forall (fun entry => (String.length (snd entry) <= 1400)%nat) SUBSECTION_NAMES.
Proof.
  apply Forall_forall. intros entry Hin.
  apply Nat.leb_le.
  revert entry Hin. apply Forall_forall.
  unfold SUBSECTION_NAMES. repeat constructor.
Qed.

(** C7.  Whatever the flattened text is, every section that the segmenter
    produces has a content of at most 2000 code units and each of its
    subsections a content of at most 1500, whether the content was cut out
    of the text or is a fallback. *)
Theorem segment_contents_bounded :
  forall flatText : string,
    Forall (fun section =>
              (String.length (content section) <= 2000)%nat
              /\ Forall (fun sub => (String.length (sub_content sub) <= 1500)%nat)
                        (subsections section))
           (parseSections flatText).
Proof.
  intros flatText. unfold parseSections.
  apply Forall_map, Forall_forall.
  intros [sectionNum sectionName] _. cbn [content subsections]. split.
  - apply extractSectionContent_length.
  - apply Forall_map, Forall_forall.
    intros [subId subName] Hin. cbn [sub_content].
    apply extractSubsectionContent_length.
    apply filter_In in Hin. destruct Hin as [Hin _].
    pose proof subsection_titles_short as Hshort.
    rewrite Forall_forall in Hshort. exact (Hshort _ Hin).
Qed.

(** C4 (as amended).  For every flattened text: when the pattern of a
    section or of a subsection has no match, the content is the fallback,
    a canned description or the placeholder that names the title, and it
    is not empty; when the pattern matches, the content is the captured
    text, trimmed and cut to 2000, respectively 1500, code units. *)
Theorem segment_fallback_nonempty :
  forall flatText : string,
    (forall sectionNum sectionName,
        exec true (sectionRegex sectionNum sectionName) flatText = None ->
        extractSectionContent flatText sectionNum sectionName
        = getDefaultSectionDescription sectionNum
        /\ extractSectionContent flatText sectionNum sectionName <> EmptyString)
    /\ (forall subId subName,
           exec true (subsectionRegex subId subName) flatText = None ->
           extractSubsectionContent flatText subId subName
           = "Content for " ++ subName
               ++ ". Please refer to the full Brand Bible for details."
           /\ extractSubsectionContent flatText subId subName <> EmptyString)
    /\ (forall sectionNum sectionName capture,
           exec true (sectionRegex sectionNum sectionName) flatText = Some capture ->
           extractSectionContent flatText sectionNum sectionName
           = take 2000 (trim capture))
    /\ (forall subId subName capture,
           exec true (subsectionRegex subId subName) flatText = Some capture ->
           extractSubsectionContent flatText subId subName
           = take 1500 (trim capture)).
Proof.
  intros flatText.
  split; [|split; [|split]].
  - intros sectionNum sectionName Hno.
    unfold extractSectionContent. rewrite Hno.
    split; [reflexivity | apply default_description_nonempty].
  - intros subId subName Hno.
    unfold extractSubsectionContent. rewrite Hno.
    split; [reflexivity | discriminate].
  - intros sectionNum sectionName capture Hyes.
    unfold extractSectionContent. now rewrite Hyes.
  - intros subId subName capture Hyes.
    unfold extractSubsectionContent. now rewrite Hyes.
Qed.

Lemma segment_fallback_nonempty_witness :
  extractSectionContent "Welcome to SODAX" "3" "Verbal Identity" <> EmptyString
  /\ extractSubsectionContent "Welcome to SODAX" "3.1" "Tone of Voice" <> EmptyString
  /\ extractSectionContent adjacentTitles "1" "Brand Essence and Foundations"
     = take 2000 (trim (newline ++ "1.1 Brand Overview" ++ newline
                          ++ "1.2 Brand Purpose" ++ newline
                          ++ "Why SODAX exists." ++ newline))
  /\ extractSubsectionContent adjacentTitles "1.2" "Brand Purpose"
     = take 1500 (trim (newline ++ "Why SODAX exists." ++ newline)).
Proof.
  destruct (segment_fallback_nonempty "Welcome to SODAX") as (Hsec & Hsub & _).
  destruct (segment_fallback_nonempty adjacentTitles) as (_ & _ & Hcut & Hsubcut).
  split; [apply Hsec; reflexivity|].
  split; [apply Hsub; reflexivity|].
  split; [apply Hcut; reflexivity | apply Hsubcut; reflexivity].
Defined.

(** C4, as the specification words it, fails: in [adjacentTitles] the
    patterns of subsection 1.1 and of section 2 match, each with a
    capture that trims to nothing, and the contents are empty. *)
Lemma matched_title_with_empty_content :
  exec true (subsectionRegex "1.1" "Brand Overview") adjacentTitles = Some newline
  /\ extractSubsectionContent adjacentTitles "1.1" "Brand Overview" = EmptyString
  /\ exec true (sectionRegex "2" "Positioning and Messaging Architecture")
          adjacentTitles = Some EmptyString
  /\ extractSectionContent adjacentTitles "2" "Positioning and Messaging Architecture"
     = EmptyString
  /\ map (fun section => (id section, content section))
         (firstn 2 (skipn 1 (parseSections adjacentTitles)))
     = [ ("2", EmptyString);
         ("3", getDefaultSectionDescription "3") ]
  /\ map (fun sub => (sub_id sub, sub_content sub))
         (firstn 2 (flat_map subsections (parseSections adjacentTitles)))
     = [ ("1.1", EmptyString); ("1.2", "Why SODAX exists.") ].
Proof. repeat split; vm_compute; reflexivity. Qed.

(** ** The cache *)

Section CacheProperties.

Variable cheerio : string -> outcome page.

(** A call that finds a fresh snapshot returns it and writes nothing. *)
Lemma getBrandBible_hit (e : env) (st : cache) (data : BrandBibleData) :
  cachedData st = Some data ->
  dateNow e - cacheTimestamp st < CACHE_TTL_MS ->
  getBrandBible cheerio e st = (Returned data, st).
Proof.
  intros Hdata Hfresh.
  unfold getBrandBible, bind, get. rewrite Hdata.
  apply Z.ltb_lt in Hfresh. rewrite Hfresh. reflexivity.
Qed.

(** A call that finds no fresh snapshot fetches and parses; the cache is
    written only when both steps have returned. *)
Lemma getBrandBible_miss (e : env) (st : cache) :
  fresh e st = false ->
  getBrandBible cheerio e st
  = match fetchBrandBibleHtml e with
    | Threw err => (Threw err, st)
    | Returned html =>
        match parseBrandBible cheerio html e with
        | Threw err => (Threw err, st)
        | Returned data => (Returned data, mkCache (Some data) (dateNow e))
        end
    end.
Proof.
  unfold fresh, getBrandBible, bind, get, lift, put, ret.
  destruct (cachedData st) as [data|]; [intros ->|intros _];
    destruct (fetchBrandBibleHtml e) as [html|err]; try reflexivity;
    destruct (parseBrandBible cheerio html e); reflexivity.
Qed.

Lemma parseBrandBible_returns (html : string) (e : env) (data : BrandBibleData) :
  parseBrandBible cheerio html e = Returned data ->
  fetchedAt data = newDate e /\ segmented data.
Proof.
  unfold parseBrandBible.
  destruct (cheerio html) as [doc|err]; [|discriminate].
  intros [= <-]. split; reflexivity.
Qed.

Lemma fresh_true (e : env) (st : cache) :
  fresh e st = true ->
  exists data, cachedData st = Some data
               /\ dateNow e - cacheTimestamp st < CACHE_TTL_MS.
Proof.
  unfold fresh. destruct (cachedData st) as [data|]; [|discriminate].
  intros H. apply Z.ltb_lt in H. eauto.
Qed.

(** The snapshot that a call returns is the one it leaves in the cache. *)
Lemma getBrandBible_returns_cached (e : env) (st st' : cache) (data : BrandBibleData) :
  getBrandBible cheerio e st = (Returned data, st') ->
  cachedData st' = Some data.
Proof.
  destruct (fresh e st) eqn:Hf.
  - destruct (fresh_true e st Hf) as (d & Hd & Hlt).
    rewrite (getBrandBible_hit e st d Hd Hlt). intros [= <- <-]. exact Hd.
  - rewrite (getBrandBible_miss e st Hf).
    destruct (fetchBrandBibleHtml e) as [html|err]; [|discriminate].
    destruct (parseBrandBible cheerio html e) as [d|err]; [|discriminate].
    intros [= <- <-]. reflexivity.
Qed.

Lemma getBrandBible_wellFormed (e : env) (st : cache) :
  wellFormed st -> wellFormed (snd (getBrandBible cheerio e st)).
Proof.
  intros Hwf. destruct (fresh e st) eqn:Hf.
  - destruct (fresh_true e st Hf) as (d & Hd & Hlt).
    rewrite (getBrandBible_hit e st d Hd Hlt). exact Hwf.
  - rewrite (getBrandBible_miss e st Hf).
    destruct (fetchBrandBibleHtml e) as [html|err]; [|exact Hwf].
    destruct (parseBrandBible cheerio html e) as [d|err] eqn:Hp; [|exact Hwf].
    intros d' [= <-]. apply (parseBrandBible_returns html e d Hp).
Qed.

(** Every reachable cache holds nothing or a segmented snapshot. *)
Lemma reachable_wellFormed (st : cache) :
  reachable cheerio st -> wellFormed st.
Proof.
  induction 1 as [|st e _ IH|st _ _].
  - intros d. discriminate.
  - apply getBrandBible_wellFormed, IH.
  - intros d. discriminate.
Qed.

Lemma returned_segmented (e : env) (st st' : cache) (data : BrandBibleData) :
  reachable cheerio st ->
  getBrandBible cheerio e st = (Returned data, st') ->
  segmented data.
Proof.
  intros Hr Hget.
  pose proof (getBrandBible_wellFormed e st (reachable_wellFormed st Hr)) as Hwf.
  rewrite Hget in Hwf. apply Hwf.
  exact (getBrandBible_returns_cached e st st' data Hget).
Qed.

(** C2.  Let a call find no fresh snapshot and store [data1].  The time
    stamp of the store is the clock that the storing call read at its
    entry, before the request, not [fetchedAt data1], which is read when
    the snapshot is assembled.  A second call whose clock at entry is
    less than the time to live after that time stamp, with nothing in
    between, returns [data1] itself, with its [fetchedAt], and leaves the
    cache as it is.  A second call made once the time to live has elapsed
    since that time stamp, whose request and parse go through, stores and
    returns a new snapshot stamped with the clock of its assembly; that
    stamp is later than [fetchedAt data1] as soon as the first call took
    less than the time to live and the clock did not run backwards during
    the second. *)
Theorem cache_ttl_window :
  forall (st0 st1 : cache) (e1 e2 : env) (data1 : BrandBibleData),
    fresh e1 st0 = false ->
    getBrandBible cheerio e1 st0 = (Returned data1, st1) ->
    (dateNow e2 - dateNow e1 < CACHE_TTL_MS ->
     getBrandBible cheerio e2 st1 = (Returned data1, st1))
    /\ (CACHE_TTL_MS <= dateNow e2 - dateNow e1 ->
        forall html doc,
          axiosGet e2 = Response html ->
          cheerio html = Returned doc ->
          newDate e1 - dateNow e1 < CACHE_TTL_MS ->
          dateNow e2 <= newDate e2 ->
          exists data2,
            getBrandBible cheerio e2 st1
            = (Returned data2, mkCache (Some data2) (dateNow e2))
            /\ fetchedAt data2 = newDate e2
            /\ fetchedAt data1 < fetchedAt data2).
Proof.
  intros st0 st1 e1 e2 data1 Hstale Hcall1.
  rewrite (getBrandBible_miss e1 st0 Hstale) in Hcall1.
  destruct (fetchBrandBibleHtml e1) as [html1|err]; [|discriminate].
  destruct (parseBrandBible cheerio html1 e1) as [d|err] eqn:Hparse1; [|discriminate].
  injection Hcall1 as <- <-.
  destruct (parseBrandBible_returns html1 e1 d Hparse1) as [Hstamp1 _].
  split.
  - intros Hwithin. apply getBrandBible_hit; [reflexivity | exact Hwithin].
  - intros Hexpired html doc Hget Hdoc Hshort Hclock.
    assert (Hstale2 : fresh e2 (mkCache (Some d) (dateNow e1)) = false).
    { unfold fresh. cbn [cachedData cacheTimestamp]. apply Z.ltb_ge. exact Hexpired. }
    rewrite (getBrandBible_miss e2 _ Hstale2).
    unfold fetchBrandBibleHtml. rewrite Hget.
    unfold parseBrandBible. rewrite Hdoc.
    eexists. split; [reflexivity|].
    cbn [fetchedAt]. split; [reflexivity | lia].
Qed.

(** C3.  When a call of [getBrandBible] finds no fresh snapshot and the
    fetch, or the parse that follows it, throws, the call throws the same
    error and the cache, snapshot and time stamp, is as it was. *)
Theorem failed_rebuild_keeps_cache :
  forall (st : cache) (e : env) (err : exn),
    fresh e st = false ->
    (fetchBrandBibleHtml e = Threw err
     \/ exists html, fetchBrandBibleHtml e = Returned html
                     /\ parseBrandBible cheerio html e = Threw err) ->
    getBrandBible cheerio e st = (Threw err, st).
Proof.
  intros st e err Hstale Hfail.
  rewrite (getBrandBible_miss e st Hstale).
  destruct Hfail as [Hfetch | (html & Hfetch & Hparse)]; rewrite Hfetch.
  - reflexivity.
  - rewrite Hparse. reflexivity.
Qed.

(** Whatever a throwing call of [getBrandBible] met, it wrote nothing. *)
Lemma getBrandBible_throw_keeps_cache (st st' : cache) (e : env) (err : exn) :
  getBrandBible cheerio e st = (Threw err, st') -> st' = st.
Proof.
  destruct (fresh e st) eqn:Hf.
  - destruct (fresh_true e st Hf) as (d & Hd & Hlt).
    rewrite (getBrandBible_hit e st d Hd Hlt). discriminate.
  - rewrite (getBrandBible_miss e st Hf).
    destruct (fetchBrandBibleHtml e) as [html|err']; [|now intros [= _ <-]].
    destruct (parseBrandBible cheerio html e) as [d|err']; [discriminate|].
    now intros [= _ <-].
Qed.

End CacheProperties.

(** ** Refresh *)

Section RefreshProperties.

Variable cheerio : string -> outcome page.

(** [clearCache] followed by [getBrandBible] always fetches. *)
Lemma refresh_steps (e : env) (st : cache) :
  (clearCache ;;; getBrandBible cheerio e) st
  = match fetchBrandBibleHtml e with
    | Threw err => (Threw err, initialCache)
    | Returned html =>
        match parseBrandBible cheerio html e with
        | Threw err => (Threw err, initialCache)
        | Returned data => (Returned data, mkCache (Some data) (dateNow e))
        end
    end.
Proof.
  unfold bind at 1. unfold clearCache, put.
  apply getBrandBible_miss. reflexivity.
Qed.

(** A refresh whose request and parse go through stores a snapshot
    stamped with the clock of its assembly, and shows that stamp. *)
Lemma refresh_rebuilds (st : cache) (e : env) (html : string) (doc : page) :
  axiosGet e = Response html ->
  cheerio html = Returned doc ->
  exists (new : BrandBibleData) (out : RefreshOutput),
    sodax_refresh_brand_bible cheerio e st
    = (Returned (Structured out), mkCache (Some new) (dateNow e))
    /\ ro_fetchedAt out = fetchedAt new
    /\ fetchedAt new = newDate e.
Proof.
  intros Hget Hdoc.
  unfold sodax_refresh_brand_bible, tryCatch.
  unfold bind at 1. unfold clearCache, put. unfold bind at 1.
  rewrite (getBrandBible_miss cheerio e (mkCache None 0) eq_refl).
  unfold fetchBrandBibleHtml. rewrite Hget.
  unfold parseBrandBible. rewrite Hdoc.
  unfold ret. do 2 eexists. split; [reflexivity|].
  cbn [ro_fetchedAt fetchedAt]. split; reflexivity.
Qed.

(** C8 (as amended).  When the refresh tool replaces a snapshot [old]
    and its request and parse go through, the new snapshot is stamped
    with the clock read while it is assembled, and the answer of the
    tool shows that stamp; if the clock has not run backwards since
    [old] was assembled, the new [fetchedAt] is greater than or equal to
    that of [old]. *)
Theorem refresh_stamp :
  forall (st : cache) (e : env) (old : BrandBibleData) (html : string) (doc : page),
    cachedData st = Some old ->
    axiosGet e = Response html ->
    cheerio html = Returned doc ->
    fetchedAt old <= newDate e ->
    exists (new : BrandBibleData) (out : RefreshOutput),
      sodax_refresh_brand_bible cheerio e st
      = (Returned (Structured out), mkCache (Some new) (dateNow e))
      /\ ro_fetchedAt out = fetchedAt new
      /\ fetchedAt new = newDate e
      /\ fetchedAt old <= fetchedAt new.
Proof.
  intros st e old html doc _ Hget Hdoc Hclock.
  destruct (refresh_rebuilds st e html doc Hget Hdoc)
    as (new & out & Hrun & Hout & Hnew).
  exists new, out. repeat split; try assumption.
  rewrite Hnew. exact Hclock.
Qed.

End RefreshProperties.

(** ** Sorting *)

Section SortFacts.

Context {A : Type}.
Variable key : A -> Z.

Let byKeyDescending (a b : A) : Z := key b - key a.
Let ordered (a b : A) : Prop := key b <= key a.

Lemma insertSorted_perm (x : A) (l : list A) :
  Permutation (insertSorted byKeyDescending x l) (x :: l).
Proof.
  induction l as [|y l IH]; simpl.
  - apply Permutation_refl.
  - destruct (0 <? byKeyDescending x y).
    + apply Permutation_trans with (y :: x :: l).
      * apply perm_skip, IH.
      * apply perm_swap.
    + apply Permutation_refl.
Qed.

Lemma sort_perm (l : list A) :
  Permutation (sort byKeyDescending l) l.
Proof.
  induction l as [|x l IH]; simpl.
  - apply perm_nil.
  - apply Permutation_trans with (x :: sort byKeyDescending l).
    + apply insertSorted_perm.
    + apply perm_skip, IH.
Qed.

Lemma insertSorted_sorted (x : A) (l : list A) :
  StronglySorted ordered l ->
  StronglySorted ordered (insertSorted byKeyDescending x l).
Proof.
  induction 1 as [|y l Hsorted IH Hall]; simpl.
  - constructor; constructor.
  - destruct (0 <? byKeyDescending x y) eqn:Hcmp.
    + apply Z.ltb_lt in Hcmp. unfold byKeyDescending in Hcmp.
      constructor; [exact IH|].
      apply Forall_forall. intros z Hz.
      apply (Permutation_in _ (insertSorted_perm x l)) in Hz.
      destruct Hz as [<-|Hz].
      * unfold ordered. lia.
      * rewrite Forall_forall in Hall. apply Hall, Hz.
    + apply Z.ltb_ge in Hcmp. unfold byKeyDescending in Hcmp.
      constructor; [constructor; assumption|].
      constructor.
      * unfold ordered. lia.
      * apply Forall_forall. intros z Hz.
        rewrite Forall_forall in Hall. specialize (Hall z Hz).
        unfold ordered in *. lia.
Qed.

Lemma sort_sorted (l : list A) :
  StronglySorted ordered (sort byKeyDescending l).
Proof.
  induction l as [|x l IH]; simpl.
  - constructor.
  - apply insertSorted_sorted, IH.
Qed.

(** Insertion moves [x] only past elements of another key, so the
    elements of one key keep their order. *)
Lemma insertSorted_filter (v : Z) (x : A) (l : list A) :
  filter (fun a => key a =? v) (insertSorted byKeyDescending x l)
  = filter (fun a => key a =? v) (x :: l).
Proof.
  induction l as [|y l IH]; simpl.
  - reflexivity.
  - destruct (0 <? byKeyDescending x y) eqn:Hcmp; [|reflexivity].
    apply Z.ltb_lt in Hcmp. unfold byKeyDescending in Hcmp.
    simpl. rewrite IH. simpl.
    destruct (key y =? v) eqn:Hy, (key x =? v) eqn:Hx; try reflexivity.
    apply Z.eqb_eq in Hy, Hx. lia.
Qed.

Lemma sort_stable (v : Z) (l : list A) :
  filter (fun a => key a =? v) (sort byKeyDescending l)
  = filter (fun a => key a =? v) l.
Proof.
  induction l as [|x l IH]; simpl.
  - reflexivity.
  - rewrite insertSorted_filter. simpl. now rewrite IH.
Qed.

End SortFacts.

(** ** Search *)

(** The proofs below never look inside the score or the patterns. *)
Opaque calculateRelevance extractSectionContent extractSubsectionContent.

Lemma filter_flat_map {A B : Type} (p : B -> bool) (f : A -> list B) (l : list A) :
  filter p (flat_map f l) = flat_map (fun x => filter p (f x)) l.
Proof.
  induction l as [|x l IH]; simpl.
  - reflexivity.
  - now rewrite filter_app, IH.
Qed.

Lemma filter_map_singletons {A B : Type} (p : B -> bool) (f : A -> B) (l : list A) :
  filter p (map f l) = flat_map (fun x => if p (f x) then [f x] else []) l.
Proof.
  induction l as [|x l IH]; simpl.
  - reflexivity.
  - rewrite IH. destruct (p (f x)); reflexivity.
Qed.

Lemma filter_cons_app {A : Type} (p : A -> bool) (x : A) (l : list A) :
  filter p (x :: l) = ((if p x then [x] else []) ++ filter p l)%list.
Proof. simpl. destruct (p x); reflexivity. Qed.

Lemma positive_sectionResult (section : BrandSection) (r : Z) :
  positive (sectionResult section r) = (0 <? r).
Proof. reflexivity. Qed.

Lemma positive_subsectionResult (section : BrandSection) (sub : BrandSubsection) (r : Z) :
  positive (subsectionResult section sub r) = (0 <? r).
Proof. reflexivity. Qed.

(** The two loops push the entries of positive score, in the order of
    encounter. *)
Lemma collectResults_filter (data : BrandBibleData) (queryTerms : list string) :
  collectResults data queryTerms = filter positive (scoredEntries data queryTerms).
Proof.
  unfold collectResults, scoredEntries.
  rewrite filter_flat_map.
  apply flat_map_ext. intros section.
  unfold resultsOfSection.
  rewrite filter_cons_app, filter_map_singletons, positive_sectionResult.
  apply f_equal. apply flat_map_ext. intros sub.
  rewrite positive_subsectionResult. reflexivity.
Qed.

(** ** Lookups in the taxonomy *)

Lemma find_table_none (key : string) (t : table) :
  ~ In key (keys t) ->
  find (fun entry => String.eqb (fst entry) key) t = None.
Proof.
  induction t as [|[k v] t IH]; simpl; intros Hnot.
  - reflexivity.
  - destruct (String.eqb_spec k key) as [->|_].
    + exfalso. apply Hnot. now left.
    + apply IH. intros Hin. apply Hnot. now right.
Qed.

Lemma find_map_sections (f : string * string -> BrandSection) (key : string) :
  (forall entry, id (f entry) = fst entry) ->
  forall t : table,
    find (fun section => String.eqb (id section) key) (map f t)
    = option_map f (find (fun entry => String.eqb (fst entry) key) t).
Proof.
  intros Hid. induction t as [|entry t IH]; simpl.
  - reflexivity.
  - rewrite Hid. destruct (String.eqb (fst entry) key); [reflexivity | exact IH].
Qed.

(** The section that the segmenter builds for one entry of the table. *)
Lemma parseSections_map (flatText : string) :
  parseSections flatText
  = map (fun entry =>
           mkSection (fst entry) (snd entry)
                     (extractSectionContent flatText (fst entry) (snd entry))
                     (map (fun sub =>
                             mkSubsection (fst sub) (snd sub)
                                          (extractSubsectionContent flatText
                                                                    (fst sub) (snd sub)))
                          (taxonomyUnder (fst entry))))
        SECTION_NAMES.
Proof.
  unfold parseSections, taxonomyUnder.
  apply map_ext. intros [sectionNum sectionName]. cbn [fst snd].
  f_equal. apply map_ext. intros [subId subName]. reflexivity.
Qed.

Lemma find_section_known (flatText s : string) :
  In s (keys SECTION_NAMES) ->
  exists section,
    find (fun section => String.eqb (id section) s) (parseSections flatText)
    = Some section
    /\ id section = s
    /\ map (fun sub => (sub_id sub, sub_title sub)) (subsections section)
       = taxonomyUnder s.
Proof.
  intros Hin. rewrite parseSections_map.
  rewrite find_map_sections by reflexivity.
  assert (Hfound : exists name,
             find (fun entry => String.eqb (fst entry) s) SECTION_NAMES
             = Some (s, name)).
  { simpl in Hin.
    repeat (destruct Hin as [<-|Hin]; [eexists; reflexivity|]).
    contradiction. }
  destruct Hfound as [name ->]. cbn [option_map fst snd].
  eexists. split; [reflexivity|]. cbn [id subsections]. split; [reflexivity|].
  rewrite map_map. cbn [sub_id sub_title].
  rewrite <- (map_id (taxonomyUnder s)) at 2.
  apply map_ext. intros [subId subName]. reflexivity.
Qed.

Lemma find_section_unknown (flatText s : string) :
  ~ In s (keys SECTION_NAMES) ->
  find (fun section => String.eqb (id section) s) (parseSections flatText) = None.
Proof.
  intros Hnot. rewrite parseSections_map.
  rewrite find_map_sections by reflexivity.
  now rewrite find_table_none.
Qed.

Lemma taxonomyUnder_keys (s subId subName : string) :
  In (subId, subName) (taxonomyUnder s) -> In subId (keys SUBSECTION_NAMES).
Proof.
  unfold taxonomyUnder. intros Hin. apply filter_In in Hin. destruct Hin as [Hin _].
  unfold keys. apply in_map_iff. exists (subId, subName). split; [reflexivity | exact Hin].
Qed.

Lemma findSubsection_none (subsectionId : string) (secs : list BrandSection) :
  Forall (fun section =>
            Forall (fun sub => sub_id sub <> subsectionId) (subsections section))
         secs ->
  findSubsection subsectionId secs = None.
Proof.
  induction 1 as [|section secs Hsubs _ IH]; simpl.
  - reflexivity.
  - destruct (find _ (subsections section)) as [sub|] eqn:Hfind; [|exact IH].
    apply find_some in Hfind. destruct Hfind as [Hin Heq].
    apply String.eqb_eq in Heq.
    rewrite Forall_forall in Hsubs. now apply Hsubs in Hin.
Qed.

Lemma sections_subs_in_taxonomy (flatText : string) :
  Forall (fun section =>
            Forall (fun sub => In (sub_id sub) (keys SUBSECTION_NAMES))
                   (subsections section))
         (parseSections flatText).
Proof.
  rewrite parseSections_map. apply Forall_map, Forall_forall.
  intros entry _.
  apply Forall_map, Forall_forall. intros [subId subName] Hin.
  exact (taxonomyUnder_keys _ _ _ Hin).
Qed.

Lemma find_subsection_unknown (flatText subsectionId : string) :
  ~ In subsectionId (keys SUBSECTION_NAMES) ->
  findSubsection subsectionId (parseSections flatText) = None.
Proof.
  intros Hnot. apply findSubsection_none.
  eapply Forall_impl; [|apply sections_subs_in_taxonomy].
  intros section Hsec. eapply Forall_impl; [|exact Hsec].
  intros sub Hsub Heq. apply Hnot. rewrite <- Heq. exact Hsub.
Qed.

Lemma map_flat_map_list {A B C : Type} (g : B -> C) (f : A -> list B) (l : list A) :
  map g (flat_map f l) = flat_map (fun x => map g (f x)) l.
Proof.
  induction l as [|x l IH]; simpl.
  - reflexivity.
  - now rewrite map_app, IH.
Qed.

Lemma flat_map_map_list {A B C : Type} (f : B -> list C) (h : A -> B) (l : list A) :
  flat_map f (map h l) = flat_map (fun x => f (h x)) l.
Proof.
  induction l as [|x l IH]; simpl.
  - reflexivity.
  - now rewrite IH.
Qed.

(** The identifiers of the entries of one section, whatever the score. *)
Lemma entries_of_section_ids (score : string -> Z) (section : BrandSection) :
  map (fun r => (sectionId r, subsectionId r))
      (sectionResult section (score (title section ++ " " ++ content section))
       :: map (fun sub => subsectionResult section sub
                            (score (sub_title sub ++ " " ++ sub_content sub)))
              (subsections section))
  = (id section, None)
    :: map (fun sub => (id section, Some (sub_id sub))) (subsections section).
Proof.
  simpl. f_equal. rewrite map_map. reflexivity.
Qed.

Lemma scoredEntries_ids (data : BrandBibleData) (queryTerms : list string) :
  map (fun r => (sectionId r, subsectionId r)) (scoredEntries data queryTerms)
  = flat_map (fun section =>
                (id section, None)
                :: map (fun sub => (id section, Some (sub_id sub)))
                       (subsections section))
             (sections data).
Proof.
  unfold scoredEntries. rewrite map_flat_map_list.
  apply flat_map_ext. intros section.
  exact (entries_of_section_ids (fun c => calculateRelevance c queryTerms) section).
Qed.

Lemma parseSections_ids (flatText : string) :
  flat_map (fun section =>
              (id section, None)
              :: map (fun sub => (id section, Some (sub_id sub)))
                     (subsections section))
           (parseSections flatText)
  = encounterOrder.
Proof.
  rewrite parseSections_map.
  generalize (extractSectionContent flatText) (extractSubsectionContent flatText).
  intros sectionContent subsectionContent.
  rewrite flat_map_map_list. unfold encounterOrder.
  apply flat_map_ext. intros entry. cbn [id subsections].
  apply f_equal. rewrite map_map. reflexivity.
Qed.

(** In a segmented snapshot the entries are met in the order of the
    Taxonomy Table. *)
Lemma scoredEntries_order (data : BrandBibleData) (queryTerms : list string) :
  segmented data ->
  map (fun r => (sectionId r, subsectionId r)) (scoredEntries data queryTerms)
  = encounterOrder.
Proof.
  intros Hseg. rewrite scoredEntries_ids, Hseg. apply parseSections_ids.
Qed.

(** C5.  For every snapshot and query, the list that the search computes
    is a rearrangement of the sections and subsections of positive score,
    in descending order of score, those of equal score in the order of
    encounter (a section before its subsections; for a segmented snapshot,
    sections and subsections in the order of the Taxonomy Table);
    [searchBrandBible] returns this whole list, and the search tool keeps
    its first [limit] elements while reporting its full length. *)
Theorem search_ranking :
  forall (data : BrandBibleData) (query : string),
    let ranked := rankSnapshot data query in
    let scored := scoredEntries data (queryTermsOf query) in
    Permutation ranked (filter positive scored)
    /\ StronglySorted (fun a b => relevance b <= relevance a) ranked
    /\ (forall v, filter (scoreIs v) ranked = filter (scoreIs v) (filter positive scored))
    /\ (segmented data ->
        map (fun r => (sectionId r, subsectionId r)) scored = encounterOrder)
    /\ (forall cheerio e st st' limit,
           getBrandBible cheerio e st = (Returned data, st') ->
           searchBrandBible cheerio query e st = (Returned ranked, st')
           /\ sodax_search_brand_bible cheerio query limit e st
              = (Returned (Structured {| se_query := query;
                                         se_results := firstn limit ranked;
                                         se_totalResults := List.length ranked;
                                         se_source := BRAND_BIBLE_URL |}),
                 st')).
Proof.
  intros data query ranked scored.
  unfold ranked, scored, rankSnapshot.
  rewrite collectResults_filter.
  split; [|split; [|split; [|split]]].
  - apply (sort_perm relevance).
  - apply (sort_sorted relevance).
  - intros v. apply (sort_stable relevance).
  - apply scoredEntries_order.
  - intros cheerio e st st' limit Hget.
    assert (Hsearch : searchBrandBible cheerio query e st
                      = (Returned (rankSnapshot data query), st')).
    { unfold searchBrandBible, bind. rewrite Hget. reflexivity. }
    unfold rankSnapshot in Hsearch. rewrite collectResults_filter in Hsearch.
    split; [exact Hsearch|].
    unfold sodax_search_brand_bible, tryCatch, bind.
    rewrite Hsearch. reflexivity.
Qed.

Section AccessorProperties.

Variable cheerio : string -> outcome page.

(** C6.  In every reachable state of the cache and for every section
    identifier [s] of the taxonomy, when the snapshot is at hand,
    [getSection s] returns a section whose [id] is [s] and whose
    subsections are, identifier and title, the entries of the Taxonomy
    Table whose identifier starts with [s] and a dot, in the order of the
    table. *)
Theorem getSection_of_taxonomy :
  forall (st st' : cache) (e : env) (data : BrandBibleData) (s : string),
    reachable cheerio st ->
    In s ["1"; "2"; "3"; "4"; "5"; "6"] ->
    getBrandBible cheerio e st = (Returned data, st') ->
    exists section,
      getSection cheerio s e st = (Returned (Some section), st')
      /\ id section = s
      /\ map (fun sub => (sub_id sub, sub_title sub)) (subsections section)
         = taxonomyUnder s.
Proof.
  intros st st' e data s Hreach Hin Hget.
  pose proof (returned_segmented cheerio e st st' data Hreach Hget) as Hseg.
  destruct (find_section_known (rawContent data) s Hin)
    as (section & Hfind & Hid & Hsubs).
  exists section. split; [|split; assumption].
  unfold getSection, bind. rewrite Hget. unfold ret.
  rewrite Hseg, Hfind. reflexivity.
Qed.

(** C9.  In every reachable state of the cache, when the snapshot is at
    hand: for a section identifier outside the taxonomy [getSection]
    returns [null] and the section tool answers with the text that
    names the identifier and the valid range 1-6; for a subsection
    identifier outside the taxonomy [getSubsection] returns [null] and
    the subsection tool answers with the text that names the identifier
    and lists every subsection identifier of the table. *)
Theorem unknown_id_not_found :
  forall (st st' : cache) (e : env) (data : BrandBibleData),
    reachable cheerio st ->
    getBrandBible cheerio e st = (Returned data, st') ->
    (forall sectionId,
        ~ In sectionId (keys SECTION_NAMES) ->
        getSection cheerio sectionId e st = (Returned None, st')
        /\ sodax_get_section cheerio sectionId e st
           = (Returned (TextOnly ("Error: Section '" ++ sectionId
                                    ++ "' not found. Valid sections are 1-6.")),
              st'))
    /\ (forall subsectionId,
           ~ In subsectionId (keys SUBSECTION_NAMES) ->
           getSubsection cheerio subsectionId e st = (Returned None, st')
           /\ sodax_get_subsection cheerio subsectionId e st
              = (Returned
                   (TextOnly
                      ("Error: Subsection '" ++ subsectionId ++ "' not found."
                         ++ newline ++ newline ++ "Available subsections: "
                         ++ "1.1, 1.2, 1.3, 1.4, 1.5, 1.6, 2.1, 2.2, 2.3, 2.4, 2.5, 2.6, 2.7, 2.8, 2.9, 2.10, 3.1, 3.2, 3.3, 3.4, 3.5, 3.6, 4.1, 4.2, 4.3, 4.4, 4.5, 4.6, 4.7, 5.1, 5.2, 5.3, 5.4, 5.5, 6.1, 6.2, 6.3, 6.4, 6.5")),
                 st')).
Proof.
  intros st st' e data Hreach Hget.
  pose proof (returned_segmented cheerio e st st' data Hreach Hget) as Hseg.
  split.
  - intros sectionId Hnot.
    assert (Hnone : getSection cheerio sectionId e st = (Returned None, st')).
    { unfold getSection, bind. rewrite Hget. unfold ret.
      rewrite Hseg, find_section_unknown by exact Hnot. reflexivity. }
    split; [exact Hnone|].
    unfold sodax_get_section, tryCatch, bind. rewrite Hnone. reflexivity.
  - intros subsectionId Hnot.
    assert (Hnone : getSubsection cheerio subsectionId e st = (Returned None, st')).
    { unfold getSubsection, bind. rewrite Hget. unfold ret.
      rewrite Hseg, find_subsection_unknown by exact Hnot. reflexivity. }
    split; [exact Hnone|].
    unfold sodax_get_subsection, tryCatch, bind. rewrite Hnone. reflexivity.
Qed.

End AccessorProperties.

(** ** Queries without a usable term *)

Lemma isSpace_lowerChar (c : ascii) : isSpace (lowerChar c) = isSpace c.
Proof. destruct c as [[] [] [] [] [] [] [] []]; reflexivity. Qed.

Lemma toLowerCase_length (s : string) :
  String.length (toLowerCase s) = String.length s.
Proof. induction s as [|c s IH]; simpl; [reflexivity | now rewrite IH]. Qed.

Lemma toLowerCase_rev_append (a b : string) :
  toLowerCase (JsString.rev_append a b)
  = JsString.rev_append (toLowerCase a) (toLowerCase b).
Proof.
  revert b. induction a as [|c a IH]; intros b; simpl.
  - reflexivity.
  - now rewrite IH.
Qed.

Lemma toLowerCase_rev (a : string) :
  toLowerCase (JsString.rev a) = JsString.rev (toLowerCase a).
Proof. unfold JsString.rev. now rewrite toLowerCase_rev_append. Qed.

(** Lower-casing does not move the white space: the pieces of the
    lower-cased query are the lower-cased pieces of the query. *)
Lemma splitSpaces_toLowerCase (s : string) :
  forall inRun acc,
    splitSpaces inRun (toLowerCase acc) (toLowerCase s)
    = map toLowerCase (splitSpaces inRun acc s).
Proof.
  induction s as [|c s IH]; intros inRun acc; simpl.
  - now rewrite toLowerCase_rev.
  - rewrite isSpace_lowerChar. destruct (isSpace c).
    + destruct inRun.
      * apply (IH true EmptyString).
      * simpl. rewrite toLowerCase_rev. f_equal. apply (IH true EmptyString).
    + apply (IH false (String c acc)).
Qed.

Lemma splitWhitespace_toLowerCase (query : string) :
  splitWhitespace (toLowerCase query) = map toLowerCase (splitWhitespace query).
Proof. exact (splitSpaces_toLowerCase query false EmptyString). Qed.

Lemma queryTermsOf_short (query : string) :
  Forall (fun t => (String.length t <= 2)%nat) (splitWhitespace query) ->
  queryTermsOf query = [].
Proof.
  intros Hshort. unfold queryTermsOf.
  rewrite splitWhitespace_toLowerCase.
  induction Hshort as [|t ts Ht _ IH]; simpl.
  - reflexivity.
  - rewrite toLowerCase_length.
    destruct (Nat.ltb_spec 2 (String.length t)); [lia | exact IH].
Qed.

Lemma scoreKeyword_no_terms (cl : string) (kws : list string) (z : Z) :
  fold_left (scoreKeyword cl []) kws z = z.
Proof.
  revert z. induction kws as [|kw kws IH]; intros z; simpl.
  - reflexivity.
  - apply IH.
Qed.

Transparent calculateRelevance.

(** Without a term nothing scores. *)
Lemma calculateRelevance_no_terms (c : string) :
  calculateRelevance c [] = 0.
Proof.
  unfold calculateRelevance. simpl fold_left at 2.
  apply scoreKeyword_no_terms.
Qed.

Opaque calculateRelevance.

Lemma collectResults_no_terms (data : BrandBibleData) :
  collectResults data [] = [].
Proof.
  unfold collectResults.
  induction (sections data) as [|section secs IH]; simpl.
  - reflexivity.
  - rewrite IH, app_nil_r. unfold resultsOfSection.
    rewrite calculateRelevance_no_terms. simpl.
    induction (subsections section) as [|sub subs IHs]; simpl.
    + reflexivity.
    + rewrite calculateRelevance_no_terms. exact IHs.
Qed.

(** C10.  For every snapshot: the empty query, and every query whose
    pieces between runs of white space all have at most 2 code units,
    leaves no term, every section and subsection scores 0, and the ranked
    list is empty; [searchBrandBible] returns the empty list. *)
Theorem short_query_no_results :
  forall (data : BrandBibleData),
    rankSnapshot data "" = []
    /\ (forall query,
           Forall (fun t => (String.length t <= 2)%nat) (splitWhitespace query) ->
           queryTermsOf query = []
           /\ Forall (fun r => relevance r = 0)
                     (scoredEntries data (queryTermsOf query))
           /\ rankSnapshot data query = []
           /\ (forall cheerio e st st',
                  getBrandBible cheerio e st = (Returned data, st') ->
                  searchBrandBible cheerio query e st = (Returned [], st'))).
Proof.
  intros data.
  assert (Hgen : forall query,
             Forall (fun t => (String.length t <= 2)%nat) (splitWhitespace query) ->
             rankSnapshot data query = []).
  { intros query Hshort. unfold rankSnapshot.
    rewrite (queryTermsOf_short query Hshort), collectResults_no_terms.
    reflexivity. }
  split.
  - apply Hgen. repeat constructor.
  - intros query Hshort.
    split; [exact (queryTermsOf_short query Hshort)|].
    split; [|split].
    + rewrite (queryTermsOf_short query Hshort). unfold scoredEntries.
      apply Forall_flat_map, Forall_forall. intros section _.
      constructor.
      * apply calculateRelevance_no_terms.
      * apply Forall_map, Forall_forall. intros sub _.
        apply calculateRelevance_no_terms.
    + exact (Hgen query Hshort).
    + intros cheerio e st st' Hget.
      unfold searchBrandBible, bind. rewrite Hget. unfold ret.
      now rewrite (Hgen query Hshort).
Qed.

(** ** Concrete instances *)

(** The first visit stores a snapshot stamped 1200 under the time stamp
    1000. *)
Lemma firstVisit_stores :
  exists data,
    getBrandBible plainText firstVisit initialCache
    = (Returned data, mkCache (Some data) 1000)
    /\ fetchedAt data = 1200.
Proof.
  eexists. split.
  - rewrite getBrandBible_miss by reflexivity. reflexivity.
  - reflexivity.
Qed.

Lemma cache_ttl_window_witness :
  fresh firstVisit initialCache = false
  /\ exists data1 st1,
      getBrandBible plainText firstVisit initialCache = (Returned data1, st1)
      /\ getBrandBible plainText visitInWindow st1 = (Returned data1, st1)
      /\ exists data2,
          getBrandBible plainText visitAfterWindow st1
          = (Returned data2, mkCache (Some data2) 301000)
          /\ fetchedAt data2 = 301400
          /\ fetchedAt data1 < fetchedAt data2.
Proof.
  split; [reflexivity|].
  destruct firstVisit_stores as (data1 & Hcall1 & _).
  exists data1, (mkCache (Some data1) 1000).
  split; [exact Hcall1|].
  destruct (cache_ttl_window plainText initialCache _ firstVisit visitInWindow
                             data1 eq_refl Hcall1) as [Hhit _].
  destruct (cache_ttl_window plainText initialCache _ firstVisit visitAfterWindow
                             data1 eq_refl Hcall1) as [_ Hmiss].
  split.
  - apply Hhit. reflexivity.
  - apply (Hmiss ltac:(discriminate) samplePage (mkPage samplePage samplePage));
      (reflexivity || discriminate).
Defined.

(** C2, as the specification words it, fails: the window is not counted
    from the moment the snapshot was stored.  The first call begins at 0
    and assembles its snapshot at 29000; a call that begins at 300000,
    only 271000 after [fetchedAt], is not served from the cache: it
    rebuilds and returns another snapshot, with another [fetchedAt]. *)
Lemma rebuild_within_ttl_of_fetchedAt :
  exists data1 st1 data2 st2,
    getBrandBible plainText slowVisit initialCache = (Returned data1, st1)
    /\ cachedData st1 = Some data1
    /\ fetchedAt data1 = 29000
    /\ dateNow visitAtExpiry - fetchedAt data1 < CACHE_TTL_MS
    /\ getBrandBible plainText visitAtExpiry st1 = (Returned data2, st2)
    /\ fetchedAt data2 = 300400
    /\ data2 <> data1.
Proof.
  assert (Hfirst : exists data,
             getBrandBible plainText slowVisit initialCache
             = (Returned data, mkCache (Some data) 0)
             /\ fetchedAt data = 29000).
  { eexists. split.
    - rewrite getBrandBible_miss by reflexivity. reflexivity.
    - reflexivity. }
  destruct Hfirst as (data1 & Hcall1 & Hstamp1).
  assert (Hsecond : exists data,
             getBrandBible plainText visitAtExpiry (mkCache (Some data1) 0)
             = (Returned data, mkCache (Some data) 300000)
             /\ fetchedAt data = 300400).
  { eexists. split.
    - rewrite getBrandBible_miss by reflexivity. reflexivity.
    - reflexivity. }
  destruct Hsecond as (data2 & Hcall2 & Hstamp2).
  exists data1, (mkCache (Some data1) 0), data2, (mkCache (Some data2) 300000).
  repeat split; try assumption.
  - rewrite Hstamp1. reflexivity.
  - intros Hsame. rewrite Hsame, Hstamp1 in Hstamp2. discriminate.
Qed.

Lemma failed_rebuild_keeps_cache_witness :
  exists data1 st1,
    getBrandBible plainText firstVisit initialCache = (Returned data1, st1)
    /\ cachedData st1 = Some data1
    /\ getBrandBible plainText visitNotFound st1
       = (Threw "Brand Bible page not found. The URL may have changed.", st1)
    /\ getBrandBible brokenDom visitAfterWindow st1
       = (Threw "Cannot read the document", st1).
Proof.
  destruct firstVisit_stores as (data1 & Hcall1 & _).
  exists data1, (mkCache (Some data1) 1000).
  split; [exact Hcall1|]. split; [reflexivity|]. split.
  - apply failed_rebuild_keeps_cache; [reflexivity | left; reflexivity].
  - apply failed_rebuild_keeps_cache; [reflexivity|].
    right. exists samplePage. split; reflexivity.
Defined.

Lemma refresh_stamp_witness :
  exists old st,
    getBrandBible plainText firstVisit initialCache = (Returned old, st)
    /\ exists new out,
        sodax_refresh_brand_bible plainText visitInWindow st
        = (Returned (Structured out), mkCache (Some new) 200000)
        /\ ro_fetchedAt out = 200300
        /\ fetchedAt new = 200300
        /\ fetchedAt old <= fetchedAt new.
Proof.
  destruct firstVisit_stores as (old & Hcall1 & Hstamp).
  exists old, (mkCache (Some old) 1000).
  split; [exact Hcall1|].
  destruct (refresh_stamp plainText (mkCache (Some old) 1000) visitInWindow old
                          samplePage (mkPage samplePage samplePage)
                          eq_refl eq_refl eq_refl)
    as (new & out & Hrun & Hout & Hnew & Hle).
  - rewrite Hstamp. discriminate.
  - exists new, out. rewrite Hout, Hnew in *. repeat split; try assumption.
Defined.

(** C8, as the specification words it, fails: a refresh that completes
    within the clock tick in which the replaced snapshot was assembled
    stamps the new snapshot with the same [fetchedAt], not a greater
    one. *)
Lemma refresh_within_one_tick :
  exists old st new out,
    getBrandBible plainText firstVisit initialCache = (Returned old, st)
    /\ cachedData st = Some old
    /\ sodax_refresh_brand_bible plainText visitInSameTick st
       = (Returned (Structured out), mkCache (Some new) 1200)
    /\ fetchedAt old = 1200
    /\ fetchedAt new = 1200
    /\ ro_fetchedAt out = 1200
    /\ ~ fetchedAt old < fetchedAt new.
Proof.
  destruct firstVisit_stores as (old & Hcall1 & Hstamp).
  exists old, (mkCache (Some old) 1000).
  destruct (refresh_rebuilds plainText (mkCache (Some old) 1000) visitInSameTick
                             samplePage (mkPage samplePage samplePage)
                             eq_refl eq_refl)
    as (new & out & Hrun & Hout & Hnew).
  exists new, out. change (newDate visitInSameTick) with 1200 in Hnew.
  repeat split; try assumption.
  - congruence.
  - lia.
Qed.

Lemma search_ranking_witness :
  exists data st',
    getBrandBible plainText firstVisit initialCache = (Returned data, st')
    /\ searchBrandBible plainText "Visual identity" firstVisit initialCache
       = (Returned (rankSnapshot data "Visual identity"), st')
    /\ sodax_search_brand_bible plainText "Visual identity" 2 firstVisit initialCache
       = (Returned (Structured
                      {| se_query := "Visual identity";
                         se_results := firstn 2 (rankSnapshot data "Visual identity");
                         se_totalResults := List.length (rankSnapshot data "Visual identity");
                         se_source := BRAND_BIBLE_URL |}),
          st').
Proof.
  destruct firstVisit_stores as (data & Hcall & _).
  exists data, (mkCache (Some data) 1000).
  split; [exact Hcall|].
  destruct (search_ranking data "Visual identity") as (_ & _ & _ & _ & Hrun).
  exact (Hrun plainText firstVisit initialCache _ 2%nat Hcall).
Defined.

(** The ranking of the sample page for the query [Visual identity]: four
    results, the two of score 16 in the order of their sections. *)
Example search_ranking_sample :
  forall data st',
    getBrandBible plainText firstVisit initialCache = (Returned data, st') ->
    map (fun r => (sectionId r, subsectionId r, relevance r))
        (rankSnapshot data "Visual identity")
    = [ ("4", None, 32); ("6", Some "6.3", 17); ("1", None, 16); ("3", None, 16) ].
Proof.
  intros data st' Hcall.
  rewrite getBrandBible_miss in Hcall by reflexivity.
  vm_compute in Hcall. injection Hcall as <- _.
  vm_compute. reflexivity.
Qed.

Lemma getSection_of_taxonomy_witness :
  exists data st' section,
    getBrandBible plainText firstVisit initialCache = (Returned data, st')
    /\ getSection plainText "4" firstVisit initialCache = (Returned (Some section), st')
    /\ id section = "4"
    /\ map (fun sub => (sub_id sub, sub_title sub)) (subsections section)
       = [ ("4.1", "Logo Usage"); ("4.2", "Selected Color Palette");
           ("4.3", "Typography"); ("4.4", "Iconography");
           ("4.5", "Layout and Composition"); ("4.6", "Motion and Animation");
           ("4.7", "Accessibility Standards") ].
Proof.
  destruct firstVisit_stores as (data & Hcall & _).
  destruct (getSection_of_taxonomy plainText initialCache _ firstVisit data "4"
                                   (reach_init plainText)
                                   ltac:(simpl; tauto) Hcall)
    as (section & Hget & Hid & Hsubs).
  exists data, (mkCache (Some data) 1000), section.
  repeat split; assumption.
Defined.

Lemma unknown_id_not_found_witness :
  exists data st',
    getBrandBible plainText firstVisit initialCache = (Returned data, st')
    /\ getSection plainText "9" firstVisit initialCache = (Returned None, st')
    /\ sodax_get_section plainText "9" firstVisit initialCache
       = (Returned (TextOnly "Error: Section '9' not found. Valid sections are 1-6."),
          st')
    /\ getSubsection plainText "3.99" firstVisit initialCache = (Returned None, st').
Proof.
  destruct firstVisit_stores as (data & Hcall & _).
  destruct (unknown_id_not_found plainText initialCache _ firstVisit data
                                 (reach_init plainText) Hcall)
    as [Hsection Hsubsection].
  exists data, (mkCache (Some data) 1000).
  assert (Hnine : ~ In "9" (keys SECTION_NAMES)).
  { simpl. intros H. repeat (destruct H as [H|H]; [discriminate|]). exact H. }
  assert (Hsub : ~ In "3.99" (keys SUBSECTION_NAMES)).
  { simpl. intros H. repeat (destruct H as [H|H]; [discriminate|]). exact H. }
  destruct (Hsection "9" Hnine) as [Hnull Htext].
  destruct (Hsubsection "3.99" Hsub) as [Hsubnull _].
  repeat split; assumption.
Defined.

Lemma short_query_no_results_witness :
  exists data st',
    getBrandBible plainText firstVisit initialCache = (Returned data, st')
    /\ Forall (fun t => (String.length t <= 2)%nat) (splitWhitespace "to be or")
    /\ rankSnapshot data "to be or" = []
    /\ searchBrandBible plainText "to be or" firstVisit initialCache = (Returned [], st').
Proof.
  destruct firstVisit_stores as (data & Hcall & _).
  exists data, (mkCache (Some data) 1000).
  assert (Hshort : Forall (fun t => (String.length t <= 2)%nat)
                          (splitWhitespace "to be or")).
  { repeat constructor. }
  destruct (short_query_no_results data) as [_ Hgen].
  destruct (Hgen "to be or" Hshort) as (_ & _ & Hrank & Hrun).
  repeat split; try assumption.
  exact (Hrun plainText firstVisit initialCache _ Hcall).
Defined.

(* ================================================================= *)
(** * Further properties *)

(** ** More on the score *)

Lemma occurrences_lower_bound (term contentLower : string) :
  -1 <= occurrences term contentLower.
Proof. unfold occurrences. lia. Qed.

Lemma directContribution_range (contentLower term : string) :
  0 <= directContribution contentLower term <= 15.
Proof.
  unfold directContribution, scoreTerm.
  pose proof (occurrences_lower_bound term contentLower).
  destruct (includes term contentLower); lia.
Qed.

Lemma directContribution_positive (contentLower term : string) :
  0 < directContribution contentLower term <-> includes term contentLower = true.
Proof.
  unfold directContribution, scoreTerm.
  pose proof (occurrences_lower_bound term contentLower).
  destruct (includes term contentLower); split; intros; try lia; congruence.
Qed.

Lemma sum_direct_range (contentLower : string) (terms : list string) :
  0 <= sumZ (map (directContribution contentLower) terms)
  <= 15 * Z.of_nat (List.length terms).
Proof.
  induction terms as [|t terms IH].
  - simpl. lia.
  - pose proof (directContribution_range contentLower t).
    cbn [map sumZ List.length]. lia.
Qed.

Lemma sum_direct_positive (contentLower : string) (terms : list string) :
  0 < sumZ (map (directContribution contentLower) terms)
  <-> exists t, In t terms /\ includes t contentLower = true.
Proof.
  induction terms as [|t terms IH]; cbn [map sumZ].
  - split; [lia | intros (t & [] & _)].
  - pose proof (directContribution_range contentLower t) as Ht.
    pose proof (sum_direct_range contentLower terms) as Hts.
    split.
    + intros Hpos.
      destruct (Z.eq_dec (directContribution contentLower t) 0) as [Hz|Hnz].
      * destruct IH as [IH _]. destruct IH as (u & Hu & Hin); [lia|].
        exists u. split; [now right | exact Hin].
      * exists t. split; [now left|].
        apply directContribution_positive. lia.
    + intros (u & [<-|Hu] & Hin).
      * apply directContribution_positive in Hin. lia.
      * assert (0 < sumZ (map (directContribution contentLower) terms))
          by (apply IH; eauto).
        lia.
Qed.

Lemma scoreKeyword_step (cl : string) (terms : list string) (z : Z) (kw : string) :
  scoreKeyword cl terms z kw
  = z + (if related terms kw && includes kw cl then 5 else 0).
Proof.
  unfold scoreKeyword, related.
  destruct (existsb _ terms); [destruct (includes kw cl)|]; simpl; lia.
Qed.

Lemma keyword_fold_range (cl : string) (terms kws : list string) :
  0 <= fold_left (scoreKeyword cl terms) kws 0 <= 5 * Z.of_nat (List.length kws).
Proof.
  induction kws as [|kw kws IH].
  - simpl. lia.
  - cbn [fold_left List.length]. rewrite fold_scoreKeyword, scoreKeyword_step.
    destruct (related terms kw && includes kw cl); lia.
Qed.

Lemma keyword_fold_positive (cl : string) (terms kws : list string) :
  0 < fold_left (scoreKeyword cl terms) kws 0
  <-> exists kw, In kw kws /\ related terms kw = true /\ includes kw cl = true.
Proof.
  induction kws as [|kw kws IH].
  - simpl. split; [lia | intros (kw & [] & _)].
  - cbn [fold_left]. rewrite fold_scoreKeyword, scoreKeyword_step.
    pose proof (keyword_fold_range cl terms kws) as Hrange.
    destruct (related terms kw && includes kw cl) eqn:Hkw.
    + split; [|lia]. intros _. apply andb_true_iff in Hkw.
      exists kw. split; [now left | exact Hkw].
    + split.
      * intros Hpos. destruct IH as [IH _].
        destruct IH as (k & Hin & Hk); [lia|].
        exists k. split; [now right | exact Hk].
      * intros (k & [<-|Hin] & Hrel & Hinc).
        -- rewrite Hrel, Hinc in Hkw. discriminate.
        -- assert (0 < fold_left (scoreKeyword cl terms) kws 0)
             by (apply IH; eauto).
           lia.
Qed.

(** X1.  A score is never negative and never above 15 for each query term
    plus 5 for each of the 14 brand keywords. *)
Theorem relevance_range :
  forall (c : string) (queryTerms : list string),
    0 <= calculateRelevance c queryTerms
    <= 15 * Z.of_nat (List.length queryTerms) + 70.
Proof.
  intros c terms. rewrite calculateRelevance_sum.
  pose proof (sum_direct_range (toLowerCase c) terms).
  pose proof (keyword_fold_range (toLowerCase c) terms brandKeywords) as Hk.
  unfold keywordBoost. change (Z.of_nat (List.length brandKeywords)) with 14 in Hk.
  lia.
Qed.

(** X2.  A score is positive exactly when a query term occurs in the
    lower-cased content, or a brand keyword occurs in it that holds a
    query term or is held by one: a block can match through a keyword
    although none of the query terms occurs in it. *)
Theorem relevance_positive_iff :
  forall (c : string) (queryTerms : list string),
    0 < calculateRelevance c queryTerms
    <-> (exists t, In t queryTerms /\ includes t (toLowerCase c) = true)
        \/ (exists keyword,
               In keyword brandKeywords
               /\ related queryTerms keyword = true
               /\ includes keyword (toLowerCase c) = true).
Proof.
  intros c terms. rewrite calculateRelevance_sum. unfold keywordBoost.
  pose proof (sum_direct_range (toLowerCase c) terms) as Hd.
  pose proof (keyword_fold_range (toLowerCase c) terms brandKeywords) as Hk.
  pose proof (sum_direct_positive (toLowerCase c) terms) as Hdp.
  pose proof (keyword_fold_positive (toLowerCase c) terms brandKeywords) as Hkp.
  split.
  - intros Hpos.
    destruct (Z.eq_dec (sumZ (map (directContribution (toLowerCase c)) terms)) 0).
    + right. apply Hkp. lia.
    + left. apply Hdp. lia.
  - intros [Ht|Hkw].
    + apply Hdp in Ht. lia.
    + apply Hkp in Hkw. lia.
Qed.

Lemma relevance_positive_iff_witness :
  includes "logos" (toLowerCase "Logo Usage") = false
  /\ 0 < calculateRelevance "Logo Usage" ["logos"].
Proof.
  split; [reflexivity|].
  apply (relevance_positive_iff "Logo Usage" ["logos"]).
  right. exists "logo". repeat split. simpl. tauto.
Defined.

(** ** Queries *)

Lemma lowerChar_idempotent (c : ascii) : lowerChar (lowerChar c) = lowerChar c.
Proof. destruct c as [[] [] [] [] [] [] [] []]; reflexivity. Qed.

Lemma toLowerCase_idempotent (s : string) :
  toLowerCase (toLowerCase s) = toLowerCase s.
Proof.
  induction s as [|c s IH]; simpl.
  - reflexivity.
  - now rewrite lowerChar_idempotent, IH.
Qed.

Lemma hasSpace_rev_append (a b : string) :
  hasSpace (JsString.rev_append a b) = hasSpace a || hasSpace b.
Proof.
  revert b. induction a as [|c a IH]; intros b; simpl.
  - reflexivity.
  - rewrite IH. simpl. destruct (isSpace c), (hasSpace a); reflexivity.
Qed.

(** No piece of a split at white space holds white space. *)
Lemma splitSpaces_pieces (s : string) :
  forall inRun acc,
    hasSpace acc = false ->
    Forall (fun t => hasSpace t = false) (splitSpaces inRun acc s).
Proof.
  induction s as [|c s IH]; intros inRun acc Hacc; simpl.
  - constructor; [|constructor].
    unfold JsString.rev. rewrite hasSpace_rev_append, Hacc. reflexivity.
  - destruct (isSpace c) eqn:Hc.
    + destruct inRun.
      * apply IH. reflexivity.
      * constructor; [|apply IH; reflexivity].
        unfold JsString.rev. rewrite hasSpace_rev_append, Hacc. reflexivity.
    + apply IH. simpl. now rewrite Hc, Hacc.
Qed.

(** X3.  Every term that a query yields is longer than 2 code units, holds
    no white space and is in lower case. *)
Theorem query_terms_wellformed :
  forall query : string,
    Forall (fun t => (2 < String.length t)%nat
                     /\ hasSpace t = false
                     /\ toLowerCase t = t)
           (queryTermsOf query).
Proof.
  intros query. unfold queryTermsOf.
  apply Forall_forall. intros t Hin.
  apply filter_In in Hin. destruct Hin as [Hin Hlen].
  apply Nat.ltb_lt in Hlen. split; [exact Hlen|]. split.
  - pose proof (splitSpaces_pieces (toLowerCase query) false EmptyString eq_refl)
      as Hpieces.
    rewrite Forall_forall in Hpieces. exact (Hpieces t Hin).
  - rewrite splitWhitespace_toLowerCase in Hin.
    apply in_map_iff in Hin. destruct Hin as (u & <- & _).
    apply toLowerCase_idempotent.
Qed.

(** X4.  Only the lower-cased forms count: two contents with the same
    lower-cased form score alike against any terms, and two queries with
    the same lower-cased form rank a snapshot alike; so do a query and its
    lower-cased form. *)
Theorem search_ignores_case :
  (forall (c1 c2 : string) (queryTerms : list string),
      toLowerCase c1 = toLowerCase c2 ->
      calculateRelevance c1 queryTerms = calculateRelevance c2 queryTerms)
  /\ (forall (data : BrandBibleData) (q1 q2 : string),
         toLowerCase q1 = toLowerCase q2 ->
         rankSnapshot data q1 = rankSnapshot data q2)
  /\ (forall (data : BrandBibleData) (query : string),
         rankSnapshot data (toLowerCase query) = rankSnapshot data query).
Proof.
  assert (Hquery : forall data q1 q2,
             toLowerCase q1 = toLowerCase q2 ->
             rankSnapshot data q1 = rankSnapshot data q2).
  { intros data q1 q2 Heq. unfold rankSnapshot, queryTermsOf. now rewrite Heq. }
  split; [|split].
  - intros c1 c2 terms Heq. rewrite !calculateRelevance_sum. now rewrite Heq.
  - exact Hquery.
  - intros data query. apply Hquery, toLowerCase_idempotent.
Qed.


(** ** The snapshot and the taxonomy *)

(** Every subsection of the table lies under one section of the table,
    and grouping by section keeps the order of the table. *)
Lemma taxonomy_partition :
  flat_map (fun entry => taxonomyUnder (fst entry)) SECTION_NAMES = SUBSECTION_NAMES.
Proof. reflexivity. Qed.

Lemma taxonomy_keys_nodup : NoDup (keys SUBSECTION_NAMES).
Proof.
  unfold keys, SUBSECTION_NAMES. cbn [map fst].
  repeat (constructor;
          [ cbn [In]; intros H;
            repeat (destruct H as [H|H]; [discriminate H|]); exact H | ]).
  constructor.
Qed.

Lemma parseSections_subsections (flatText : string) :
  flat_map subsections (parseSections flatText)
  = map (fun entry =>
           mkSubsection (fst entry) (snd entry)
                        (extractSubsectionContent flatText (fst entry) (snd entry)))
        SUBSECTION_NAMES.
Proof.
  rewrite parseSections_map.
  generalize (extractSectionContent flatText) (extractSubsectionContent flatText).
  intros sectionContent subsectionContent.
  rewrite flat_map_map_list. cbn [subsections].
  rewrite <- taxonomy_partition.
  rewrite map_flat_map_list. reflexivity.
Qed.

Lemma parseSections_titles (flatText : string) :
  map (fun s => (id s, title s)) (parseSections flatText) = SECTION_NAMES.
Proof.
  rewrite parseSections_map.
  generalize (extractSectionContent flatText) (extractSubsectionContent flatText).
  intros sectionContent subsectionContent.
  rewrite map_map. cbn [id title].
  rewrite <- (map_id SECTION_NAMES) at 2.
  apply map_ext. intros [k v]. reflexivity.
Qed.

Lemma parseSections_counts (flatText : string) :
  map (fun s => List.length (subsections s)) (parseSections flatText)
  = [6; 10; 6; 7; 5; 5]%nat.
Proof.
  rewrite parseSections_map.
  generalize (extractSectionContent flatText) (extractSubsectionContent flatText).
  intros sectionContent subsectionContent.
  rewrite map_map. cbn [subsections].
  erewrite map_ext; [|intros entry; apply length_map].
  reflexivity.
Qed.

(** X5.  Whatever the flattened text is, the snapshot has the shape of the
    Taxonomy Table: its sections carry the identifiers and titles of the
    section table in order; its subsections, taken section by section,
    are the entries of the subsection table in order, each once, with the
    content cut out for its identifier and title. *)
Theorem snapshot_follows_taxonomy :
  forall flatText : string,
    map (fun s => (id s, title s)) (parseSections flatText) = SECTION_NAMES
    /\ flat_map subsections (parseSections flatText)
       = map (fun entry =>
                mkSubsection (fst entry) (snd entry)
                             (extractSubsectionContent flatText (fst entry) (snd entry)))
             SUBSECTION_NAMES
    /\ map (fun s => List.length (subsections s)) (parseSections flatText)
       = [6; 10; 6; 7; 5; 5]%nat
    /\ NoDup (map sub_id (flat_map subsections (parseSections flatText))).
Proof.
  intros flatText.
  split; [apply parseSections_titles|].
  split; [apply parseSections_subsections|].
  split; [apply parseSections_counts|].
  rewrite parseSections_subsections, map_map. cbn [sub_id].
  exact taxonomy_keys_nodup.
Qed.

Lemma find_app_first {A : Type} (f : A -> bool) (l1 l2 : list A) :
  find f (l1 ++ l2)
  = match find f l1 with
    | Some x => Some x
    | None => find f l2
    end.
Proof.
  induction l1 as [|x l1 IH]; simpl.
  - reflexivity.
  - destruct (f x); [reflexivity | exact IH].
Qed.

(** The loop of [getSubsection] finds the first subsection with the
    identifier among all subsections. *)
Lemma findSubsection_flat (subsectionId : string) (secs : list BrandSection) :
  findSubsection subsectionId secs
  = find (fun sub => String.eqb (sub_id sub) subsectionId)
         (flat_map subsections secs).
Proof.
  induction secs as [|section secs IH]; simpl.
  - reflexivity.
  - rewrite find_app_first, IH. reflexivity.
Qed.

Lemma find_map_subsections (f : string * string -> BrandSubsection) (key : string) :
  (forall entry, sub_id (f entry) = fst entry) ->
  forall t : table,
    find (fun sub => String.eqb (sub_id sub) key) (map f t)
    = option_map f (find (fun entry => String.eqb (fst entry) key) t).
Proof.
  intros Hid. induction t as [|entry t IH]; simpl.
  - reflexivity.
  - rewrite Hid. destruct (String.eqb (fst entry) key); [reflexivity | exact IH].
Qed.

Lemma find_table_some (key : string) (t : table) :
  In key (keys t) ->
  exists v, lookup key t = Some v
            /\ find (fun entry => String.eqb (fst entry) key) t = Some (key, v).
Proof.
  induction t as [|[k v] t IH]; simpl; intros Hin.
  - contradiction.
  - destruct (String.eqb_spec k key) as [->|Hne].
    + exists v. split; reflexivity.
    + destruct Hin as [Heq|Hin]; [contradiction|]. apply IH, Hin.
Qed.

Lemma find_subsection_known (flatText subsectionId : string) :
  In subsectionId (keys SUBSECTION_NAMES) ->
  exists subTitle,
    lookup subsectionId SUBSECTION_NAMES = Some subTitle
    /\ findSubsection subsectionId (parseSections flatText)
       = Some (mkSubsection subsectionId subTitle
                            (extractSubsectionContent flatText subsectionId subTitle)).
Proof.
  intros Hin.
  destruct (find_table_some subsectionId SUBSECTION_NAMES Hin) as (v & Hlook & Hfind).
  exists v. split; [exact Hlook|].
  rewrite findSubsection_flat, parseSections_subsections.
  rewrite find_map_subsections by reflexivity.
  rewrite Hfind. reflexivity.
Qed.

Section MoreAccessorProperties.

Variable cheerio : string -> outcome page.

(** X6.  In every reachable state of the cache and for every subsection
    identifier [d] of the taxonomy, when the snapshot is at hand,
    [getSubsection d] returns the subsection with identifier [d], the
    title that the table gives to [d], and the content cut out of the
    text of the snapshot for that identifier and title. *)
Theorem getSubsection_of_taxonomy :
  forall (st st' : cache) (e : env) (data : BrandBibleData) (d : string),
    reachable cheerio st ->
    In d (keys SUBSECTION_NAMES) ->
    getBrandBible cheerio e st = (Returned data, st') ->
    exists subTitle,
      lookup d SUBSECTION_NAMES = Some subTitle
      /\ getSubsection cheerio d e st
         = (Returned
              (Some (mkSubsection d subTitle
                                  (extractSubsectionContent (rawContent data) d subTitle))),
            st').
Proof.
  intros st st' e data d Hreach Hin Hget.
  pose proof (returned_segmented cheerio e st st' data Hreach Hget) as Hseg.
  destruct (find_subsection_known (rawContent data) d Hin) as (subTitle & Hlook & Hfind).
  exists subTitle. split; [exact Hlook|].
  unfold getSubsection, bind. rewrite Hget. unfold ret.
  rewrite Hseg, Hfind. reflexivity.
Qed.

(** X7.  In every reachable state of the cache, when the snapshot is at
    hand, the overview tool reports the version and the date of the
    snapshot and, whatever the page holds, the six sections of the table
    with 6, 10, 6, 7, 5 and 5 subsections; when the snapshot cannot be
    had, it answers with the error text and leaves the cache as it
    was. *)
Theorem overview_structure :
  forall (st : cache) (e : env),
    reachable cheerio st ->
    (forall data st',
        getBrandBible cheerio e st = (Returned data, st') ->
        exists out,
          sodax_get_brand_overview cheerio e st = (Returned (Structured out), st')
          /\ ov_version out = version data
          /\ ov_lastUpdated out = lastUpdated data
          /\ map (fun s => (os_id s, os_title s)) (ov_sections out) = SECTION_NAMES
          /\ map os_subsectionCount (ov_sections out) = [6; 10; 6; 7; 5; 5]%nat)
    /\ (forall err st',
           getBrandBible cheerio e st = (Threw err, st') ->
           sodax_get_brand_overview cheerio e st
           = (Returned (TextOnly ("Error fetching brand bible overview: " ++ err)), st)).
Proof.
  intros st e Hreach. split.
  - intros data st' Hget.
    pose proof (returned_segmented cheerio e st st' data Hreach Hget) as Hseg.
    unfold sodax_get_brand_overview, tryCatch, bind. rewrite Hget. unfold ret.
    eexists. split; [reflexivity|].
    cbn [ov_version ov_lastUpdated ov_sections].
    split; [reflexivity|]. split; [reflexivity|].
    rewrite !map_map. cbn [os_id os_title os_subsectionCount].
    rewrite Hseg. split.
    + apply parseSections_titles.
    + apply parseSections_counts.
  - intros err st' Hget.
    pose proof (getBrandBible_throw_keeps_cache cheerio st st' e err Hget) as ->.
    unfold sodax_get_brand_overview, tryCatch, bind. rewrite Hget. reflexivity.
Qed.

End MoreAccessorProperties.

(** X8.  The tool that lists the subsections needs neither the cache nor
    the network: in every state it succeeds and leaves the state as it
    is; its sections are those of the section table, its subsections,
    taken together, the entries of the subsection table in order, and
    section by section it lists what every snapshot holds. *)
Theorem list_subsections_complete :
  forall st : cache,
    exists out,
      sodax_list_subsections st = (Returned (Structured out), st)
      /\ map (fun s => (ls_id s, ls_title s)) (lo_sections out) = SECTION_NAMES
      /\ flat_map ls_subsections (lo_sections out) = SUBSECTION_NAMES
      /\ forall flatText,
          map (fun s => (ls_id s, ls_title s, ls_subsections s)) (lo_sections out)
          = map (fun s => (id s, title s,
                           map (fun sub => (sub_id sub, sub_title sub)) (subsections s)))
                (parseSections flatText).
Proof.
  intros st. eexists. split; [reflexivity|].
  cbn [lo_sections]. split; [reflexivity|]. split; [reflexivity|].
  intros flatText. rewrite parseSections_map.
  generalize (extractSectionContent flatText) (extractSubsectionContent flatText).
  intros sectionContent subsectionContent.
  rewrite !map_map. apply map_ext. intros [k v].
  cbn [ls_id ls_title ls_subsections id title subsections fst snd].
  rewrite map_map. cbn [sub_id sub_title].
  apply f_equal. unfold taxonomyUnder.
  apply map_ext. intros [a b]. reflexivity.
Qed.

(** ** The tools and the cache *)

Section MoreToolProperties.

Variable cheerio : string -> outcome page.

(** X10.  The refresh tool never reads the cache: its answer and the
    cache it leaves are the same from any two states.  When its fetch or
    parse throws, it answers with the error text and leaves the cache
    empty: the snapshot that was cached before is gone, where a failed
    [getBrandBible] alone would have kept it. *)
Theorem refresh_discards_cache :
  (forall (e : env) (st1 st2 : cache),
      sodax_refresh_brand_bible cheerio e st1 = sodax_refresh_brand_bible cheerio e st2)
  /\ (forall (st : cache) (e : env) (err : exn),
         (fetchBrandBibleHtml e = Threw err
          \/ exists html, fetchBrandBibleHtml e = Returned html
                          /\ parseBrandBible cheerio html e = Threw err) ->
         sodax_refresh_brand_bible cheerio e st
         = (Returned (TextOnly ("Error refreshing cache: " ++ err)), initialCache)).
Proof.
  split.
  - intros e st1 st2.
    unfold sodax_refresh_brand_bible, tryCatch, bind, clearCache, put.
    reflexivity.
  - intros st e err Hfail.
    unfold sodax_refresh_brand_bible, tryCatch.
    unfold bind at 1. unfold clearCache, put. unfold bind at 1.
    rewrite (getBrandBible_miss cheerio e (mkCache None 0) eq_refl).
    destruct Hfail as [Hfetch | (html & Hfetch & Hparse)]; rewrite Hfetch.
    + reflexivity.
    + rewrite Hparse. reflexivity.
Qed.

(** X12.  When a call finds no fresh snapshot and the rebuild throws,
    every tool that reads the snapshot answers with its own prefix
    followed by the message of the error, and the cache is as it was. *)
Theorem tools_report_failed_rebuild :
  forall (st : cache) (e : env) (err : exn)
         (section_id subsection_id query : string) (limit : nat),
    fresh e st = false ->
    (fetchBrandBibleHtml e = Threw err
     \/ exists html, fetchBrandBibleHtml e = Returned html
                     /\ parseBrandBible cheerio html e = Threw err) ->
    sodax_get_brand_overview cheerio e st
    = (Returned (TextOnly ("Error fetching brand bible overview: " ++ err)), st)
    /\ sodax_get_section cheerio section_id e st
       = (Returned (TextOnly ("Error fetching section: " ++ err)), st)
    /\ sodax_get_subsection cheerio subsection_id e st
       = (Returned (TextOnly ("Error fetching subsection: " ++ err)), st)
    /\ sodax_search_brand_bible cheerio query limit e st
       = (Returned (TextOnly ("Error searching brand bible: " ++ err)), st).
Proof.
  intros st e err section_id subsection_id query limit Hstale Hfail.
  assert (Hget : getBrandBible cheerio e st = (Threw err, st)).
  { rewrite (getBrandBible_miss cheerio e st Hstale).
    destruct Hfail as [Hfetch | (html & Hfetch & Hparse)]; rewrite Hfetch.
    - reflexivity.
    - rewrite Hparse. reflexivity. }
  repeat split.
  - unfold sodax_get_brand_overview, tryCatch, bind. rewrite Hget. reflexivity.
  - unfold sodax_get_section, tryCatch, getSection, bind. rewrite Hget. reflexivity.
  - unfold sodax_get_subsection, tryCatch, getSubsection, bind. rewrite Hget.
    reflexivity.
  - unfold sodax_search_brand_bible, tryCatch, searchBrandBible, bind.
    rewrite Hget. reflexivity.
Qed.

End MoreToolProperties.


(** ** More on strings *)

Lemma append_empty_r (s : string) : s ++ EmptyString = s.
Proof. induction s as [|c s IH]; simpl; [reflexivity | now rewrite IH]. Qed.

Lemma append_associative (a b c : string) : (a ++ b) ++ c = a ++ (b ++ c).
Proof. induction a as [|x a IH]; simpl; [reflexivity | now rewrite IH]. Qed.

Lemma rev_append_spec (a b : string) :
  JsString.rev_append a b = JsString.rev a ++ b.
Proof.
  revert b. unfold JsString.rev. induction a as [|c a IH]; intros b; simpl.
  - reflexivity.
  - rewrite IH, (IH (String c EmptyString)), append_associative. reflexivity.
Qed.

Lemma rev_cons (c : ascii) (a : string) :
  JsString.rev (String c a) = JsString.rev a ++ String c EmptyString.
Proof. unfold JsString.rev at 1. simpl. apply rev_append_spec. Qed.

Lemma rev_append_distr (a b : string) :
  JsString.rev (a ++ b) = JsString.rev b ++ JsString.rev a.
Proof.
  induction a as [|c a IH]; simpl.
  - now rewrite append_empty_r.
  - rewrite !rev_cons, IH, append_associative. reflexivity.
Qed.

Lemma rev_involutive (a : string) : JsString.rev (JsString.rev a) = a.
Proof.
  induction a as [|c a IH].
  - reflexivity.
  - rewrite rev_cons, rev_append_distr, IH. reflexivity.
Qed.

Lemma startsWith_append (t b : string) : startsWith t (t ++ b) = true.
Proof.
  induction t as [|c t IH]; simpl.
  - reflexivity.
  - now rewrite Ascii.eqb_refl, IH.
Qed.

Lemma startsWith_decompose (t s : string) :
  startsWith t s = true -> exists b, s = t ++ b.
Proof.
  revert s. induction t as [|c t IH]; intros s H; simpl in *.
  - now exists s.
  - destruct s as [|x s]; [discriminate|].
    apply andb_true_iff in H. destruct H as [Hc Ht].
    apply Ascii.eqb_eq in Hc. subst x.
    destruct (IH s Ht) as [b ->]. now exists b.
Qed.

(** [s.includes(t)] holds exactly when [t] is a part of [s]. *)
Lemma includes_iff (t s : string) :
  includes t s = true <-> isPartOf t s.
Proof.
  split.
  - induction s as [|c s IH]; simpl; intros H.
    + apply startsWith_empty_r in H. subst t. now exists EmptyString, EmptyString.
    + apply orb_true_iff in H. destruct H as [H|H].
      * destruct (startsWith_decompose _ _ H) as [b Hb].
        exists EmptyString, b. exact Hb.
      * destruct (IH H) as (a & b & ->). now exists (String c a), b.
  - intros (a & b & ->). induction a as [|c a IH]; simpl.
    + destruct (t ++ b) as [|x r] eqn:Htb.
      * simpl. destruct t; [reflexivity | discriminate].
      * simpl. rewrite <- Htb, startsWith_append. reflexivity.
    + rewrite IH. apply orb_true_r.
Qed.

Lemma isPartOf_trans (a b c : string) :
  isPartOf a b -> isPartOf b c -> isPartOf a c.
Proof.
  intros (x & y & ->) (u & v & ->).
  exists (u ++ x), (y ++ v). now rewrite !append_associative.
Qed.

Lemma isPartOf_refl (a : string) : isPartOf a a.
Proof. exists EmptyString, EmptyString. simpl. now rewrite append_empty_r. Qed.

Lemma trimStart_suffix (s : string) : exists a, s = a ++ trimStart s.
Proof.
  induction s as [|c s [a IH]]; simpl.
  - now exists EmptyString.
  - destruct (isSpace c).
    + exists (String c a). simpl. now rewrite <- IH.
    + now exists EmptyString.
Qed.

Lemma trim_part (s : string) : isPartOf (trim s) s.
Proof.
  unfold trim.
  destruct (trimStart_suffix s) as [a Ha].
  destruct (trimStart_suffix (JsString.rev (trimStart s))) as [b Hb].
  exists a, (JsString.rev b).
  rewrite <- rev_append_distr, <- Hb, rev_involutive. exact Ha.
Qed.

Lemma take_prefix (n : nat) (s : string) : exists b, s = take n s ++ b.
Proof.
  revert s. induction n as [|n IH]; intros s; simpl.
  - now exists s.
  - destruct s as [|c s]; [now exists EmptyString|].
    destruct (IH s) as [b Hb]. exists b. simpl. now rewrite <- Hb.
Qed.

Lemma take_part (n : nat) (s : string) : isPartOf (take n s) s.
Proof. destruct (take_prefix n s) as [b Hb]. now exists EmptyString, b. Qed.

Lemma headIsSpace_trimStart (s : string) : headIsSpace (trimStart s) = false.
Proof.
  induction s as [|c s IH]; simpl.
  - reflexivity.
  - destruct (isSpace c) eqn:Hc; [exact IH | simpl; exact Hc].
Qed.

Lemma lastIsSpace_append_char (a : string) (c : ascii) :
  lastIsSpace (a ++ String c EmptyString) = isSpace c.
Proof.
  induction a as [|x a IH]; simpl.
  - reflexivity.
  - destruct (a ++ String c EmptyString) eqn:Ha.
    + destruct a; discriminate.
    + exact IH.
Qed.

Lemma lastIsSpace_rev (s : string) : lastIsSpace (JsString.rev s) = headIsSpace s.
Proof.
  destruct s as [|c s]; [reflexivity|].
  rewrite rev_cons. apply lastIsSpace_append_char.
Qed.

Lemma headIsSpace_rev (s : string) : headIsSpace (JsString.rev s) = lastIsSpace s.
Proof.
  rewrite <- (rev_involutive s) at 2. now rewrite lastIsSpace_rev.
Qed.

Lemma lastIsSpace_append (a b : string) :
  b <> EmptyString -> lastIsSpace (a ++ b) = lastIsSpace b.
Proof.
  intros Hb. induction a as [|x a IH]; simpl.
  - reflexivity.
  - destruct (a ++ b) eqn:Hab.
    + destruct a; [simpl in Hab; contradiction | discriminate].
    + exact IH.
Qed.

Lemma lastIsSpace_trimStart (s : string) :
  lastIsSpace s = false -> lastIsSpace (trimStart s) = false.
Proof.
  intros H. destruct (trimStart s) as [|c t] eqn:Ht; [reflexivity|].
  destruct (trimStart_suffix s) as [a Ha]. rewrite Ht in Ha.
  rewrite Ha in H. rewrite lastIsSpace_append in H by discriminate. exact H.
Qed.

(** [trim] leaves white space at neither end. *)
Lemma trim_trimmed (s : string) :
  headIsSpace (trim s) = false /\ lastIsSpace (trim s) = false.
Proof.
  unfold trim. split.
  - rewrite headIsSpace_rev. apply lastIsSpace_trimStart.
    rewrite lastIsSpace_rev. apply headIsSpace_trimStart.
  - rewrite lastIsSpace_rev. apply headIsSpace_trimStart.
Qed.

Lemma headIsSpace_take (n : nat) (s : string) :
  headIsSpace s = false -> headIsSpace (take n s) = false.
Proof. destruct n, s; simpl; auto. Qed.

(** ** More on the matcher *)

Lemma isSuffixOf_refl (s : string) : isSuffixOf s s.
Proof. now exists EmptyString. Qed.

Lemma isSuffixOf_trans (a b c : string) :
  isSuffixOf a b -> isSuffixOf b c -> isSuffixOf a c.
Proof. intros [x ->] [y ->]. exists (y ++ x). now rewrite append_associative. Qed.

Lemma isSuffixOf_tail (c : ascii) (s : string) : isSuffixOf s (String c s).
Proof. now exists (String c EmptyString). Qed.

Lemma isPartOf_suffix (t s1 s : string) :
  isPartOf t s1 -> isSuffixOf s1 s -> isPartOf t s.
Proof.
  intros (a & b & ->) [x ->]. exists (x ++ a), b. now rewrite append_associative.
Qed.

Lemma repeatMatcher_traceable (body : matcher) (greedy : bool)
      (k : string -> string -> option string) :
  traceable body ->
  forall fuel s cap res,
    repeatMatcher body greedy k fuel s cap = Some res ->
    exists s1 cap1,
      k s1 cap1 = Some res
      /\ isSuffixOf s1 s
      /\ (cap1 = cap \/ isPartOf cap1 s).
Proof.
  intros Hbody. induction fuel as [|fuel IH]; intros s cap res Hrun.
  - discriminate.
  - cbn [repeatMatcher] in Hrun. cbv zeta in Hrun.
    assert (Hiter : forall res',
               body s cap
                    (fun s1 cap1 =>
                       if (String.length s1 <? String.length s)%nat
                       then repeatMatcher body greedy k fuel s1 cap1 else None)
               = Some res' ->
               exists s1 cap1,
                 k s1 cap1 = Some res'
                 /\ isSuffixOf s1 s /\ (cap1 = cap \/ isPartOf cap1 s)).
    { intros res' Hb. apply Hbody in Hb.
      destruct Hb as (s1 & cap1 & Hd & Hs1 & Hc1).
      destruct (String.length s1 <? String.length s)%nat; [|discriminate].
      apply IH in Hd. destruct Hd as (s2 & cap2 & Hk & Hs2 & Hc2).
      exists s2, cap2. split; [exact Hk|]. split.
      - exact (isSuffixOf_trans _ _ _ Hs2 Hs1).
      - destruct Hc2 as [->|Hpart]; [exact Hc1|].
        right. exact (isPartOf_suffix _ _ _ Hpart Hs1). }
    assert (Hstop : forall res',
               k s cap = Some res' ->
               exists s1 cap1,
                 k s1 cap1 = Some res'
                 /\ isSuffixOf s1 s /\ (cap1 = cap \/ isPartOf cap1 s)).
    { intros res' Hk. exists s, cap.
      split; [exact Hk|]. split; [apply isSuffixOf_refl | now left]. }
    destruct greedy.
    + destruct (body s cap _) as [res'|] eqn:Hb.
      * injection Hrun as <-. apply Hiter. reflexivity.
      * apply Hstop, Hrun.
    + destruct (k s cap) as [res'|] eqn:Hk.
      * injection Hrun as <-. apply Hstop. reflexivity.
      * apply Hiter, Hrun.
Qed.

Lemma run_traceable (ignoreCase : bool) (r : regex) : traceable (run ignoreCase r).
Proof.
  induction r as [| c | p | r1 IH1 r2 IH2 | r1 IH1 r2 IH2 | greedy r1 IH1
                 | r1 IH1 | r1 IH1 |];
    intros s cap k res Hrun.
  - exists s, cap. split; [exact Hrun|]. split; [apply isSuffixOf_refl | now left].
  - simpl in Hrun. destruct s as [|x s]; [discriminate|].
    destruct (litMatches ignoreCase c x); [|discriminate].
    exists s, cap. split; [exact Hrun|]. split; [apply isSuffixOf_tail | now left].
  - simpl in Hrun. destruct s as [|x s]; [discriminate|].
    destruct (classMatches ignoreCase p x); [|discriminate].
    exists s, cap. split; [exact Hrun|]. split; [apply isSuffixOf_tail | now left].
  - simpl in Hrun. apply IH1 in Hrun.
    destruct Hrun as (s1 & cap1 & Hrun2 & Hs1 & Hc1).
    apply IH2 in Hrun2. destruct Hrun2 as (s2 & cap2 & Hk & Hs2 & Hc2).
    exists s2, cap2. split; [exact Hk|]. split.
    + exact (isSuffixOf_trans _ _ _ Hs2 Hs1).
    + destruct Hc2 as [->|Hpart]; [exact Hc1|].
      right. exact (isPartOf_suffix _ _ _ Hpart Hs1).
  - simpl in Hrun. destruct (run ignoreCase r1 s cap k) as [res'|] eqn:H1.
    + injection Hrun as <-. apply IH1, H1.
    + apply IH2, Hrun.
  - change (repeatMatcher (run ignoreCase r1) greedy k (S (String.length s)) s cap
            = Some res) in Hrun.
    exact (repeatMatcher_traceable _ _ _ IH1 _ _ _ _ Hrun).
  - simpl in Hrun. apply IH1 in Hrun.
    destruct Hrun as (s1 & cap1 & Hk & Hs1 & _).
    exists s1, (take (String.length s - String.length s1) s).
    split; [exact Hk|]. split; [exact Hs1|]. right. apply take_part.
  - simpl in Hrun.
    destruct (run ignoreCase r1 s cap (fun _ cap1 => Some cap1)) as [cap1|] eqn:H1;
      [|discriminate].
    apply IH1 in H1. destruct H1 as (s1 & cap1' & Heq & _ & Hc1).
    injection Heq as ->.
    exists s, cap1. split; [exact Hrun|]. split; [apply isSuffixOf_refl | exact Hc1].
  - simpl in Hrun. destruct s; [|discriminate].
    exists EmptyString, cap.
    split; [exact Hrun|]. split; [apply isSuffixOf_refl | now left].
Qed.

(** What [match] captures is a part of the text that it is run on. *)
Lemma exec_part (ignoreCase : bool) (r : regex) (s capture : string) :
  exec ignoreCase r s = Some capture -> isPartOf capture s.
Proof.
  induction s as [|c s IH]; simpl.
  - destruct (run ignoreCase r EmptyString EmptyString _) as [cap|] eqn:Hrun;
      [|discriminate].
    intros [= <-]. apply run_traceable in Hrun.
    destruct Hrun as (s1 & cap1 & [= ->] & _ & [->|Hpart]).
    + now exists EmptyString, EmptyString.
    + exact Hpart.
  - destruct (run ignoreCase r (String c s) EmptyString _) as [cap|] eqn:Hrun.
    + intros [= <-]. apply run_traceable in Hrun.
      destruct Hrun as (s1 & cap1 & [= ->] & _ & [->|Hpart]).
      * exists EmptyString, (String c s). reflexivity.
      * exact Hpart.
    + intros Hexec. apply IH in Hexec.
      exact (isPartOf_suffix _ _ _ Hexec (isSuffixOf_tail c s)).
Qed.

Lemma run_literal (p s cap : string) (k : string -> string -> option string) :
  run true (literal p) s cap k
  = match stripPrefixIgnoreCase p s with
    | Some rest => k rest cap
    | None => None
    end.
Proof.
  revert s. induction p as [|a p IH]; intros s; simpl.
  - reflexivity.
  - destruct s as [|b s]; [reflexivity|].
    unfold litMatches.
    destruct (Ascii.eqb (upperChar a) (upperChar b)); [apply IH | reflexivity].
Qed.

Lemma stripPrefix_equalIgnoreCase (name heading rest : string) :
  equalIgnoreCase name heading = true ->
  stripPrefixIgnoreCase name (heading ++ rest) = Some rest.
Proof.
  revert heading. induction name as [|a name IH]; intros [|b heading] H; simpl in *;
    try discriminate.
  - reflexivity.
  - apply andb_true_iff in H. destruct H as [Hab Hrest].
    rewrite Hab. apply IH, Hrest.
Qed.

Lemma equalIgnoreCase_refl (s : string) : equalIgnoreCase s s = true.
Proof.
  induction s as [|c s IH]; simpl; [reflexivity|].
  now rewrite Ascii.eqb_refl, IH.
Qed.

(** ** More on segmentation *)

Lemma run_interpolated (identifier : string) :
  forall heading rest cap k,
    acceptedAs identifier heading = true ->
    run true (interpolated identifier) (heading ++ rest) cap k = k rest cap.
Proof.
  induction identifier as [|a identifier IH]; intros [|b heading] rest cap k H;
    simpl in H; try discriminate.
  - reflexivity.
  - apply andb_true_iff in H. destruct H as [Hab Hrest].
    cbn [interpolated]. 
    change (run true (Seq ?r1 ?r2) ?s ?c ?k0)
      with (run true r1 s c (fun s1 cap1 => run true r2 s1 cap1 k0)).
    destruct (Ascii.eqb a ".") eqn:Hdot.
    + unfold dot. simpl. unfold classMatches. rewrite Hab. simpl.
      apply IH, Hrest.
    + simpl. unfold litMatches. rewrite Hab. apply IH, Hrest.
Qed.

(** An identifier is accepted as itself. *)
Lemma acceptedAs_refl (identifier : string) : acceptedAs identifier identifier = true.
Proof.
  induction identifier as [|a identifier IH]; simpl; [reflexivity|].
  rewrite IH, andb_true_r.
  destruct (Ascii.eqb a ".") eqn:Hdot.
  - apply Ascii.eqb_eq in Hdot. subst a. reflexivity.
  - apply Ascii.eqb_refl.
Qed.

Lemma length_tail_lt (c : ascii) (s : string) :
  (String.length s <? String.length (String c s))%nat = true.
Proof. apply Nat.ltb_lt. simpl. lia. Qed.

Lemma run_class (ignoreCase : bool) (p : ascii -> bool) (x : ascii) (s cap : string)
      (k : string -> string -> option string) :
  run ignoreCase (Class p) (String x s) cap k
  = if classMatches ignoreCase p x then k s cap else None.
Proof. reflexivity. Qed.

Lemma run_spaces (ws : string) :
  forall rest cap k,
    allSpaces ws = true ->
    k rest cap <> None ->
    run true (Star true space) (ws ++ rest) cap k <> None.
Proof.
  induction ws as [|c ws IH]; intros rest cap k Hws Hk; rewrite run_star; cbv zeta.
  - simpl append.
    destruct (run true space rest cap _); [discriminate | exact Hk].
  - simpl in Hws. apply andb_true_iff in Hws. destruct Hws as [Hc Hws].
    change (String c ws ++ rest) with (String c (ws ++ rest)).
    unfold space at 1. rewrite run_class. unfold classMatches. rewrite Hc. cbn [orb].
    rewrite length_tail_lt. fold space.
    specialize (IH rest cap k Hws Hk).
    destruct (run true (Star true space) (ws ++ rest) cap k);
      [discriminate | exfalso; apply IH; reflexivity].
Qed.

(** A lazy repetition of any code unit succeeds as soon as what follows
    it succeeds at the end of the input. *)
Lemma run_lazy_anything (k : string -> string -> option string) :
  (forall cap, k EmptyString cap <> None) ->
  forall s cap, run true (Star false anything) s cap k <> None.
Proof.
  intros Hend. induction s as [|c s IH]; intros cap; rewrite run_star; cbv zeta.
  - specialize (Hend cap). destruct (k EmptyString cap); [discriminate | contradiction].
  - destruct (k (String c s) cap); [discriminate|].
    unfold anything at 1. rewrite run_class. unfold classMatches. cbn [orb].
    rewrite length_tail_lt. fold anything. apply IH.
Qed.

Lemma exec_found (ignoreCase : bool) (r : regex) (s : string) :
  run ignoreCase r s EmptyString (fun _ cap => Some cap) <> None ->
  forall pre, exec ignoreCase r (pre ++ s) <> None.
Proof.
  intros Hrun. induction pre as [|c pre IH].
  - simpl append. destruct s; simpl;
      destruct (run ignoreCase r _ EmptyString _); (discriminate || contradiction).
  - simpl. destruct (run ignoreCase r (String c (pre ++ s)) EmptyString _);
      [discriminate | exact IH].
Qed.

(** The end of both patterns: the capture and the lookahead that the end
    of the input satisfies. *)
Lemma run_capture_tail (ahead : regex) (s cap : string) :
  run true (Seq (Group (Star false anything)) (Look (Alt ahead Eoi))) s cap
      (fun _ cap1 => Some cap1) <> None.
Proof.
  change (run true (Star false anything) s cap
              (fun s1 _ =>
                 run true (Look (Alt ahead Eoi)) s1
                     (take (String.length s - String.length s1) s)
                     (fun _ cap1 => Some cap1)) <> None).
  apply run_lazy_anything. intros cap0. simpl.
  destruct (run true ahead EmptyString _ _); discriminate.
Qed.

Lemma run_capture_tail2 (ahead1 ahead2 : regex) (s cap : string) :
  run true (Seq (Group (Star false anything))
                (Look (Alt ahead1 (Alt ahead2 Eoi)))) s cap
      (fun _ cap1 => Some cap1) <> None.
Proof.
  change (run true (Star false anything) s cap
              (fun s1 _ =>
                 run true (Look (Alt ahead1 (Alt ahead2 Eoi))) s1
                     (take (String.length s - String.length s1) s)
                     (fun _ cap1 => Some cap1)) <> None).
  apply run_lazy_anything. intros cap0. simpl.
  destruct (run true ahead1 EmptyString _ _); [discriminate|].
  destruct (run true ahead2 EmptyString _ _); discriminate.
Qed.

Lemma sectionRegex_at_heading (sectionNum sectionName heading ws titleText post : string) :
  acceptedAs sectionNum heading = true ->
  allSpaces ws = true ->
  equalIgnoreCase sectionName titleText = true ->
  run true (sectionRegex sectionNum sectionName)
      (heading ++ "." ++ ws ++ titleText ++ post) EmptyString
      (fun _ cap => Some cap) <> None.
Proof.
  intros Hid Hws Htitle. unfold sectionRegex. cbn [seqs].
  change (run true (Seq ?r1 ?r2) ?s ?c ?k0)
    with (run true r1 s c (fun s1 cap1 => run true r2 s1 cap1 k0)).
  rewrite (run_interpolated sectionNum heading _ _ _ Hid).
  change (run true (Seq ?r1 ?r2) ?s ?c ?k0)
    with (run true r1 s c (fun s1 cap1 => run true r2 s1 cap1 k0)).
  change (run true (Lit ".") ("." ++ ?s) ?c ?k0) with (k0 s c). cbv beta.
  change (run true (Seq ?r1 ?r2) ?s ?c ?k0)
    with (run true r1 s c (fun s1 cap1 => run true r2 s1 cap1 k0)).
  apply run_spaces; [exact Hws|].
  change (run true (Seq ?r1 ?r2) ?s ?c ?k0)
    with (run true r1 s c (fun s1 cap1 => run true r2 s1 cap1 k0)).
  rewrite escaped_escapeRegex, run_literal.
  rewrite (stripPrefix_equalIgnoreCase _ _ post Htitle).
  apply run_capture_tail.
Qed.

Lemma subsectionRegex_at_heading (subId subName heading ws titleText post : string) :
  acceptedAs subId heading = true ->
  allSpaces ws = true ->
  equalIgnoreCase subName titleText = true ->
  run true (subsectionRegex subId subName)
      (heading ++ ws ++ titleText ++ post) EmptyString
      (fun _ cap => Some cap) <> None.
Proof.
  intros Hid Hws Htitle. unfold subsectionRegex. cbv zeta. cbn [seqs].
  change (run true (Seq ?r1 ?r2) ?s ?c ?k0)
    with (run true r1 s c (fun s1 cap1 => run true r2 s1 cap1 k0)).
  rewrite (run_interpolated subId heading _ _ _ Hid).
  change (run true (Seq ?r1 ?r2) ?s ?c ?k0)
    with (run true r1 s c (fun s1 cap1 => run true r2 s1 cap1 k0)).
  apply run_spaces; [exact Hws|].
  change (run true (Seq ?r1 ?r2) ?s ?c ?k0)
    with (run true r1 s c (fun s1 cap1 => run true r2 s1 cap1 k0)).
  rewrite escaped_escapeRegex, run_literal.
  rewrite (stripPrefix_equalIgnoreCase _ _ post Htitle).
  apply run_capture_tail2.
Qed.

Transparent extractSectionContent extractSubsectionContent.

Lemma extractSectionContent_matched (flatText sectionNum sectionName capture : string) :
  exec true (sectionRegex sectionNum sectionName) flatText = Some capture ->
  extractSectionContent flatText sectionNum sectionName = take 2000 (trim capture).
Proof. intros H. unfold extractSectionContent. now rewrite H. Qed.

Lemma extractSubsectionContent_matched (flatText subId subName capture : string) :
  exec true (subsectionRegex subId subName) flatText = Some capture ->
  extractSubsectionContent flatText subId subName = take 1500 (trim capture).
Proof. intros H. unfold extractSubsectionContent. now rewrite H. Qed.

Lemma default_description_head (sectionNum : string) :
  headIsSpace (getDefaultSectionDescription sectionNum) = false.
Proof.
  unfold getDefaultSectionDescription, lookup.
  repeat match goal with
         | |- context [String.eqb ?k sectionNum] => destruct (String.eqb k sectionNum)
         end; reflexivity.
Qed.

Lemma extractSectionContent_origin (flatText sectionNum sectionName : string) :
  (extractSectionContent flatText sectionNum sectionName
   = getDefaultSectionDescription sectionNum
   \/ includes (extractSectionContent flatText sectionNum sectionName) flatText = true)
  /\ headIsSpace (extractSectionContent flatText sectionNum sectionName) = false.
Proof.
  unfold extractSectionContent.
  destruct (exec true (sectionRegex sectionNum sectionName) flatText) as [capture|] eqn:Hexec.
  - split.
    + right. apply includes_iff.
      apply isPartOf_trans with (trim capture); [apply take_part|].
      apply isPartOf_trans with capture; [apply trim_part|].
      exact (exec_part _ _ _ _ Hexec).
    + apply headIsSpace_take, trim_trimmed.
  - split; [now left | apply default_description_head].
Qed.

Lemma extractSubsectionContent_origin (flatText subId subName : string) :
  (extractSubsectionContent flatText subId subName
   = "Content for " ++ subName ++ ". Please refer to the full Brand Bible for details."
   \/ includes (extractSubsectionContent flatText subId subName) flatText = true)
  /\ headIsSpace (extractSubsectionContent flatText subId subName) = false.
Proof.
  unfold extractSubsectionContent.
  destruct (exec true (subsectionRegex subId subName) flatText) as [capture|] eqn:Hexec.
  - split.
    + right. apply includes_iff.
      apply isPartOf_trans with (trim capture); [apply take_part|].
      apply isPartOf_trans with capture; [apply trim_part|].
      exact (exec_part _ _ _ _ Hexec).
    + apply headIsSpace_take, trim_trimmed.
  - split; [now left | reflexivity].
Qed.

Opaque extractSectionContent extractSubsectionContent.

(** X14.  A heading that stands in the flattened text is always found:
    when the text holds the identifier of a section, a dot, any white
    space and the title, the case of letters set aside, the pattern of
    the section matches and the content is cut out of the text, not
    canned; likewise for a subsection, without the dot.  In the place of
    a dot of the identifier any code unit other than a line terminator is
    accepted, since the identifier is interpolated without escaping. *)
Theorem heading_is_detected :
  forall (pre heading ws titleText post num name : string),
    acceptedAs num heading = true ->
    allSpaces ws = true ->
    equalIgnoreCase name titleText = true ->
    (exists capture,
        exec true (sectionRegex num name)
             (pre ++ heading ++ "." ++ ws ++ titleText ++ post) = Some capture
        /\ extractSectionContent (pre ++ heading ++ "." ++ ws ++ titleText ++ post)
                                 num name
           = take 2000 (trim capture))
    /\ (exists capture,
           exec true (subsectionRegex num name)
                (pre ++ heading ++ ws ++ titleText ++ post) = Some capture
           /\ extractSubsectionContent (pre ++ heading ++ ws ++ titleText ++ post)
                                       num name
              = take 1500 (trim capture)).
Proof.
  intros pre heading ws titleText post num name Hid Hws Htitle. split.
  - pose proof (exec_found true _ _
                  (sectionRegex_at_heading num name heading ws titleText post
                                           Hid Hws Htitle) pre) as Hfound.
    destruct (exec true (sectionRegex num name) _) as [capture|] eqn:Hexec;
      [|contradiction].
    exists capture. split; [reflexivity|].
    now apply extractSectionContent_matched.
  - pose proof (exec_found true _ _
                  (subsectionRegex_at_heading num name heading ws titleText post
                                              Hid Hws Htitle) pre) as Hfound.
    destruct (exec true (subsectionRegex num name) _) as [capture|] eqn:Hexec;
      [|contradiction].
    exists capture. split; [reflexivity|].
    now apply extractSubsectionContent_matched.
Qed.

(** X15.  Nothing is made up: whatever the flattened text is, the content
    of every section is its canned description or a part of the text, the
    content of every subsection is the placeholder for its title or a
    part of the text, and no content begins with white space. *)
Theorem contents_come_from_text :
  forall flatText : string,
    Forall (fun section =>
              (content section = getDefaultSectionDescription (id section)
               \/ includes (content section) flatText = true)
              /\ headIsSpace (content section) = false
              /\ Forall (fun sub =>
                           (sub_content sub
                            = "Content for " ++ sub_title sub
                                ++ ". Please refer to the full Brand Bible for details."
                            \/ includes (sub_content sub) flatText = true)
                           /\ headIsSpace (sub_content sub) = false)
                        (subsections section))
           (parseSections flatText).
Proof.
  intros flatText. rewrite parseSections_map.
  apply Forall_map, Forall_forall. intros entry _.
  cbn [content id subsections].
  destruct (extractSectionContent_origin flatText (fst entry) (snd entry)) as [Ho Hh].
  split; [exact Ho|]. split; [exact Hh|].
  apply Forall_map, Forall_forall. intros sub _. cbn [sub_content sub_title].
  apply extractSubsectionContent_origin.
Qed.

(** ** The end of the normalizer *)

Lemma collapseNewlines_runs (text : string) :
  forall run,
    includes threeNewlines (collapseNewlines run text) = false
    /\ ((1 <= run)%nat ->
        startsWith (newline ++ newline) (collapseNewlines run text) = false)
    /\ ((2 <= run)%nat ->
        startsWith newline (collapseNewlines run text) = false).
Proof.
  induction text as [|c rest IH]; intros run.
  - simpl. repeat split; reflexivity.
  - cbn [collapseNewlines].
    destruct (Ascii.eqb c (ascii_of_nat 10)) eqn:Hc.
    + apply Ascii.eqb_eq in Hc. subst c.
      destruct (Nat.ltb_spec run 2) as [Hlt|Hge].
      * destruct (IH (S run)) as (Hinc & Htwo & Hone).
        split; [|split].
        -- change (startsWith (newline ++ newline) (collapseNewlines (S run) rest)
                   || includes threeNewlines (collapseNewlines (S run) rest) = false).
           rewrite Hinc, Htwo by lia. reflexivity.
        -- intros Hrun.
           change (startsWith newline (collapseNewlines (S run) rest) = false).
           apply Hone. lia.
        -- intros Hrun. lia.
      * destruct (IH (S run)) as (Hinc & Htwo & Hone).
        split; [exact Hinc|]. split; intros _; [apply Htwo | apply Hone]; lia.
    + assert (Hc' : Ascii.eqb (ascii_of_nat 10) c = false)
        by (rewrite Ascii.eqb_sym; exact Hc).
      destruct (IH O) as (Hinc & _ & _).
      split; [|split].
      * change (Ascii.eqb (ascii_of_nat 10) c
                && startsWith (newline ++ newline) (collapseNewlines 0 rest)
                || includes threeNewlines (collapseNewlines 0 rest) = false).
        rewrite Hc', Hinc. reflexivity.
      * intros _.
        change (Ascii.eqb (ascii_of_nat 10) c
                && startsWith newline (collapseNewlines 0 rest) = false).
        now rewrite Hc'.
      * intros _.
        change (Ascii.eqb (ascii_of_nat 10) c
                && startsWith EmptyString (collapseNewlines 0 rest) = false).
        now rewrite Hc'.
Qed.

Lemma includes_trim (t s : string) :
  includes t s = false -> includes t (trim s) = false.
Proof.
  intros Hs. destruct (includes t (trim s)) eqn:Ht; [|reflexivity].
  apply includes_iff in Ht.
  pose proof (isPartOf_trans _ _ _ Ht (trim_part s)) as Hpart.
  apply includes_iff in Hpart. congruence.
Qed.

Lemma trimStart_fixed (s : string) : headIsSpace s = false -> trimStart s = s.
Proof. destruct s as [|c s]; simpl; [reflexivity | now intros ->]. Qed.

Lemma trim_fixed (s : string) :
  headIsSpace s = false -> lastIsSpace s = false -> trim s = s.
Proof.
  intros Hh Hl. unfold trim. rewrite (trimStart_fixed s Hh).
  rewrite trimStart_fixed by (rewrite headIsSpace_rev; exact Hl).
  apply rev_involutive.
Qed.

(** X16.  The text that the normalizer hands on never holds three line
    feeds in a row, has white space at neither end, and is left as it is
    by a further [trim]. *)
Theorem cleanText_normal :
  forall text : string,
    includes threeNewlines (cleanText text) = false
    /\ headIsSpace (cleanText text) = false
    /\ lastIsSpace (cleanText text) = false
    /\ trim (cleanText text) = cleanText text.
Proof.
  intros text. unfold cleanText.
  destruct (trim_trimmed (trim (collapseNewlines 0 text))) as [Hh Hl].
  split; [|split; [exact Hh | split; [exact Hl | exact (trim_fixed _ Hh Hl)]]].
  apply includes_trim, includes_trim.
  apply (collapseNewlines_runs text 0).
Qed.

(** ** The Markdown text of a section *)

Lemma join_length (x : string) (l : list string) :
  S (String.length (join newline (x :: l)))
  = list_sum (map (fun y => S (String.length y)) (x :: l)).
Proof.
  revert x. induction l as [|y l IH]; intros x.
  - simpl. lia.
  - change (join newline (x :: y :: l)) with (x ++ newline ++ join newline (y :: l)).
    rewrite !append_length.
    specialize (IH y). cbn [map list_sum fold_right] in IH |- *.
    change (String.length newline) with 1%nat. lia.
Qed.

Lemma pushed_lines_bound (subs : list BrandSubsection) :
  Forall (fun sub => (String.length (sub_id sub) <= 4)%nat
                     /\ (String.length (sub_title sub) <= 40)%nat
                     /\ (String.length (sub_content sub) <= 1500)%nat) subs ->
  (list_sum (map (fun y => S (String.length y))
                 (flat_map (fun sub =>
                              [ "### " ++ sub_id sub ++ " " ++ sub_title sub;
                                sub_content sub;
                                "" ]) subs))
   <= List.length subs * 1552)%nat.
Proof.
  induction 1 as [|sub subs (Hid & Htitle & Hcontent) _ IH].
  - simpl. lia.
  - cbn [flat_map]. rewrite map_app, list_sum_app.
    unfold list_sum in *. cbn [map fold_right List.length]. rewrite !append_length.
    change (String.length "### ") with 4%nat.
    change (String.length " ") with 1%nat.
    change (String.length "") with 0%nat.
    lia.
Qed.

Lemma sectionMarkdown_length (section : BrandSection) :
  (String.length (id section) <= 1)%nat ->
  (String.length (title section) <= 42)%nat ->
  (String.length (content section) <= 2000)%nat ->
  (List.length (subsections section) <= 10)%nat ->
  Forall (fun sub => (String.length (sub_id sub) <= 4)%nat
                     /\ (String.length (sub_title sub) <= 40)%nat
                     /\ (String.length (sub_content sub) <= 1500)%nat)
         (subsections section) ->
  Z.of_nat (String.length (sectionMarkdown section)) <= 17700.
Proof.
  intros Hid Htitle Hcontent Hcount Hsubs.
  pose proof (pushed_lines_bound (subsections section) Hsubs) as Hpushed.
  unfold sectionMarkdown, sectionMarkdownLines. cbv zeta.
  cbn [app].
  match goal with
  | |- Z.of_nat (String.length (join newline (?x :: ?l))) <= _ =>
      pose proof (join_length x l) as Hlen
  end.
  cbn [map] in Hlen.
  rewrite map_app in Hlen.
  repeat (rewrite list_sum_app in Hlen || (cbn [list_sum map fold_right] in Hlen)).
  unfold list_sum in *. cbn [map fold_right] in Hlen.
  rewrite !append_length in Hlen.
  change (String.length "# ") with 2%nat in Hlen.
  change (String.length ". ") with 2%nat in Hlen.
  change (String.length "") with 0%nat in Hlen.
  change (String.length "## Subsections") with 14%nat in Hlen.
  change (String.length "---") with 3%nat in Hlen.
  change (String.length "*Source: ") with 9%nat in Hlen.
  change (String.length BRAND_BIBLE_URL) with 49%nat in Hlen.
  change (String.length "*") with 1%nat in Hlen.
  lia.
Qed.

Lemma section_entries_short :
  Forall (fun entry => (String.length (fst entry) <= 1)%nat
                       /\ (String.length (snd entry) <= 42)%nat) SECTION_NAMES.
Proof.
  apply Forall_forall. intros entry Hin.
  assert (H : ((String.length (fst entry) <=? 1)%nat
               && (String.length (snd entry) <=? 42)%nat) = true).
  { revert entry Hin. apply Forall_forall. unfold SECTION_NAMES. repeat constructor. }
  apply andb_true_iff in H. destruct H as [H1 H2].
  split; apply Nat.leb_le; assumption.
Qed.

Lemma subsection_entries_short :
  Forall (fun entry => (String.length (fst entry) <= 4)%nat
                       /\ (String.length (snd entry) <= 40)%nat) SUBSECTION_NAMES.
Proof.
  apply Forall_forall. intros entry Hin.
  assert (H : ((String.length (fst entry) <=? 4)%nat
               && (String.length (snd entry) <=? 40)%nat) = true).
  { revert entry Hin. apply Forall_forall. unfold SUBSECTION_NAMES. repeat constructor. }
  apply andb_true_iff in H. destruct H as [H1 H2].
  split; apply Nat.leb_le; assumption.
Qed.

Lemma taxonomyUnder_count (s : string) :
  In s (keys SECTION_NAMES) -> (List.length (taxonomyUnder s) <= 10)%nat.
Proof.
  simpl. intros H.
  repeat (destruct H as [<-|H]; [apply Nat.leb_le; reflexivity|]).
  contradiction.
Qed.

(** A text within the limit is not cut. *)
Lemma truncateSectionText_short (textContent : string) :
  Z.of_nat (String.length textContent) <= CHARACTER_LIMIT ->
  truncateSectionText textContent = textContent.
Proof.
  intros Hshort. unfold truncateSectionText.
  destruct (Z.ltb_spec CHARACTER_LIMIT (Z.of_nat (String.length textContent)));
    [lia | reflexivity].
Qed.

Lemma taxonomyUnder_in (s : string) (sub : string * string) :
  In sub (taxonomyUnder s) -> In sub SUBSECTION_NAMES.
Proof.
  unfold taxonomyUnder. intros Hin. apply filter_In in Hin. tauto.
Qed.

(** The bound for a section with identifier, title, contents and number
    of subsections within the limits of the tables and of the
    segmenter. *)
Lemma sectionMarkdown_bound_generic
      (k v sectionContent : string) (subsectionContent : string -> string -> string)
      (subs : table) :
  (String.length k <= 1)%nat ->
  (String.length v <= 42)%nat ->
  (String.length sectionContent <= 2000)%nat ->
  (List.length subs <= 10)%nat ->
  Forall (fun sub => (String.length (fst sub) <= 4)%nat
                     /\ (String.length (snd sub) <= 40)%nat) subs ->
  (forall a b, (String.length b <= 40)%nat ->
               (String.length (subsectionContent a b) <= 1500)%nat) ->
  Z.of_nat (String.length
              (sectionMarkdown
                 (mkSection k v sectionContent
                            (map (fun sub =>
                                    mkSubsection (fst sub) (snd sub)
                                                 (subsectionContent (fst sub) (snd sub)))
                                 subs))))
  <= 17700.
Proof.
  intros Hk Hv HsectionContent Hcount Hshort HsubsectionContent.
  apply sectionMarkdown_length.
  - exact Hk.
  - exact Hv.
  - exact HsectionContent.
  - cbn [subsections]. rewrite length_map. exact Hcount.
  - cbn [subsections].
    apply Forall_map. apply (Forall_impl _ (P := fun sub =>
                                (String.length (fst sub) <= 4)%nat
                                /\ (String.length (snd sub) <= 40)%nat)); [|exact Hshort].
    intros sub [H1 H2]. cbn [sub_id sub_title sub_content].
    split; [exact H1|]. split; [exact H2|].
    apply HsubsectionContent. exact H2.
Qed.

(** X17.  Whatever the flattened text is, the Markdown text of each
    section of the snapshot has at most 17700 code units, so that the cut
    at [CHARACTER_LIMIT] leaves it whole. *)
Theorem section_markdown_never_truncated :
  forall flatText : string,
    Forall (fun section =>
              Z.of_nat (String.length (sectionMarkdown section)) <= 17700
              /\ truncateSectionText (sectionMarkdown section)
                 = sectionMarkdown section)
           (parseSections flatText).
Proof.
  intros flatText. rewrite parseSections_map.
  apply Forall_map, Forall_forall. intros entry Hentry.
  assert (Hlen : Z.of_nat (String.length
              (sectionMarkdown
                 (mkSection (fst entry) (snd entry)
                            (extractSectionContent flatText (fst entry) (snd entry))
                            (map (fun sub =>
                                    mkSubsection (fst sub) (snd sub)
                                      (extractSubsectionContent flatText (fst sub) (snd sub)))
                                 (taxonomyUnder (fst entry))))))
                 <= 17700).
  { pose proof section_entries_short as Hsec.
    rewrite Forall_forall in Hsec. destruct (Hsec entry Hentry) as [Hid Htitle].
    apply sectionMarkdown_bound_generic.
    - exact Hid.
    - exact Htitle.
    - apply extractSectionContent_length.
    - apply taxonomyUnder_count. unfold keys. apply in_map. exact Hentry.
    - apply Forall_forall. intros sub Hsub. apply taxonomyUnder_in in Hsub.
      pose proof subsection_entries_short as Hshort.
      rewrite Forall_forall in Hshort. exact (Hshort sub Hsub).
    - intros a b Hb. apply extractSubsectionContent_length. lia. }
  split; [exact Hlen|].
  apply truncateSectionText_short. unfold CHARACTER_LIMIT. lia.
Qed.

(** ** The results of a search *)

Lemma encounterOrder_nodup : NoDup encounterOrder.
Proof.
  let v := eval vm_compute in encounterOrder in change encounterOrder with v.
  repeat (constructor;
          [ cbn [In]; intros H;
            repeat (destruct H as [H|H]; [discriminate H|]); exact H | ]).
  constructor.
Qed.

Lemma encounterOrder_length : List.length encounterOrder = 45%nat.
Proof. reflexivity. Qed.

Lemma kept_entries_nodup :
  forall (Entry Key : Type) (keyOf : Entry -> Key) (keep : Entry -> bool)
         (entries : list Entry),
    NoDup (map keyOf entries) ->
    NoDup (map keyOf (filter keep entries)).
Proof.
  intros Entry Key keyOf keep entries.
  induction entries as [|entry rest IH]; simpl; intros Hnd; [constructor|].
  inversion Hnd as [|? ? Hnotin Hrest]; subst.
  destruct (keep entry); [|apply IH, Hrest].
  simpl. constructor; [|apply IH, Hrest].
  intros Hin. apply Hnotin.
  apply in_map_iff in Hin. destruct Hin as (other & Hkey & Hother).
  apply filter_In in Hother. destruct Hother as [Hother _].
  apply in_map_iff. exists other. split; assumption.
Qed.

Lemma filter_length_le {A : Type} (p : A -> bool) (l : list A) :
  (List.length (filter p l) <= List.length l)%nat.
Proof.
  induction l as [|x l IH]; simpl; [lia|].
  destruct (p x); simpl; lia.
Qed.

Lemma parseSections_contents (flatText : string) :
  Forall (fun section =>
            (String.length (content section) <= 2000)%nat
            /\ Forall (fun sub => (String.length (sub_content sub) <= 1500)%nat)
                      (subsections section))
         (parseSections flatText).
Proof.
  rewrite parseSections_map.
  apply Forall_map, Forall_forall. intros entry _. split.
  - apply extractSectionContent_length.
  - apply Forall_map, Forall_forall. intros sub Hsub.
    apply extractSubsectionContent_length.
    apply taxonomyUnder_in in Hsub.
    pose proof subsection_titles_short as Hshort.
    rewrite Forall_forall in Hshort. exact (Hshort sub Hsub).
Qed.

(** The content of every entry is within the bound of a section when the
    contents of the snapshot are within their bounds. *)
Lemma scoredEntries_contents (data : BrandBibleData) (queryTerms : list string) :
  Forall (fun section =>
            (String.length (content section) <= 2000)%nat
            /\ Forall (fun sub => (String.length (sub_content sub) <= 1500)%nat)
                      (subsections section))
         (sections data) ->
  Forall (fun r => (String.length (res_content r) <= 2000)%nat)
         (scoredEntries data queryTerms).
Proof.
  intros Hbounds. unfold scoredEntries.
  apply Forall_flat_map.
  apply (Forall_impl _ (P := fun section =>
            (String.length (content section) <= 2000)%nat
            /\ Forall (fun sub => (String.length (sub_content sub) <= 1500)%nat)
                      (subsections section))); [|exact Hbounds].
  intros section [Hcontent Hsubs]. constructor.
  - exact Hcontent.
  - apply Forall_map.
    apply (Forall_impl _ (P := fun sub =>
              (String.length (sub_content sub) <= 1500)%nat)); [|exact Hsubs].
    intros sub Hsub. cbn [res_content subsectionResult]. lia.
Qed.

(** X18.  For a segmented snapshot and any query, the ranked list holds at
    most 45 results; each has a positive score, names a section or a
    subsection of the taxonomy, a subsection under its own section, and
    carries a content of at most 2000 code units; and no section or
    subsection is listed twice. *)
Theorem search_results_wellformed :
  forall (data : BrandBibleData) (query : string),
    segmented data ->
    (List.length (rankSnapshot data query) <= 45)%nat
    /\ Forall (fun r => 0 < relevance r
                        /\ In (sectionId r, subsectionId r) encounterOrder
                        /\ (String.length (res_content r) <= 2000)%nat)
              (rankSnapshot data query)
    /\ NoDup (map (fun r => (sectionId r, subsectionId r)) (rankSnapshot data query)).
Proof.
  intros data query Hseg.
  assert (Hperm : Permutation (rankSnapshot data query)
                              (filter positive (scoredEntries data (queryTermsOf query)))).
  { unfold rankSnapshot. rewrite collectResults_filter. apply (sort_perm relevance). }
  pose proof (scoredEntries_order data (queryTermsOf query) Hseg) as Horder.
  split; [|split].
  - rewrite (Permutation_length Hperm).
    pose proof (filter_length_le positive (scoredEntries data (queryTermsOf query))) as Hle.
    rewrite <- encounterOrder_length, <- Horder, length_map. exact Hle.
  - apply Forall_forall. intros r Hr.
    apply (Permutation_in _ Hperm) in Hr.
    apply filter_In in Hr. destruct Hr as [Hr Hpos].
    split; [apply Z.ltb_lt; exact Hpos|]. split.
    + rewrite <- Horder.
      apply (in_map (fun r => (sectionId r, subsectionId r))). exact Hr.
    + assert (Hbounds : Forall (fun section =>
                (String.length (content section) <= 2000)%nat
                /\ Forall (fun sub => (String.length (sub_content sub) <= 1500)%nat)
                          (subsections section)) (sections data))
        by (rewrite Hseg; apply parseSections_contents).
      pose proof (scoredEntries_contents data (queryTermsOf query) Hbounds) as Hc.
      rewrite Forall_forall in Hc. exact (Hc r Hr).
  - apply (Permutation_NoDup
             (l := map (fun r => (sectionId r, subsectionId r))
                       (filter positive (scoredEntries data (queryTermsOf query))))).
    + apply Permutation_sym, Permutation_map, Hperm.
    + apply kept_entries_nodup. rewrite Horder. exact encounterOrder_nodup.
Qed.

(** ** The version of a snapshot *)

Lemma exec_run (ignoreCase : bool) (r : regex) (s capture : string) :
  exec ignoreCase r s = Some capture ->
  exists s', isSuffixOf s' s
             /\ run ignoreCase r s' EmptyString (fun _ cap => Some cap) = Some capture.
Proof.
  induction s as [|c s IH]; simpl.
  - destruct (run ignoreCase r EmptyString EmptyString _) as [cap|] eqn:Hrun;
      [|discriminate].
    intros [= <-]. exists EmptyString. split; [apply isSuffixOf_refl | exact Hrun].
  - destruct (run ignoreCase r (String c s) EmptyString _) as [cap|] eqn:Hrun.
    + intros [= <-]. exists (String c s). split; [apply isSuffixOf_refl | exact Hrun].
    + intros Hexec. destruct (IH Hexec) as (s' & Hsuf & Hrun').
      exists s'. split; [|exact Hrun'].
      exact (isSuffixOf_trans _ _ _ Hsuf (isSuffixOf_tail c s)).
Qed.

(** A repetition of one class consumes code units of the class only. *)
Lemma repeat_class_consumes (ignoreCase greedy : bool) (p : ascii -> bool)
      (k : string -> string -> option string) :
  forall fuel s cap res,
    repeatMatcher (run ignoreCase (Class p)) greedy k fuel s cap = Some res ->
    exists pre s1,
      s = pre ++ s1
      /\ allChars (classMatches ignoreCase p) pre = true
      /\ k s1 cap = Some res.
Proof.
  induction fuel as [|fuel IH]; intros s cap res Hrun.
  - discriminate.
  - cbn [repeatMatcher] in Hrun. cbv zeta in Hrun.
    assert (Hstop : forall res', k s cap = Some res' ->
                                 exists pre s1,
                                   s = pre ++ s1
                                   /\ allChars (classMatches ignoreCase p) pre = true
                                   /\ k s1 cap = Some res').
    { intros res' Hk. exists EmptyString, s. repeat split. exact Hk. }
    assert (Hiter : forall res',
               run ignoreCase (Class p) s cap
                   (fun s1 cap1 =>
                      if (String.length s1 <? String.length s)%nat
                      then repeatMatcher (run ignoreCase (Class p)) greedy k fuel s1 cap1
                      else None) = Some res' ->
               exists pre s1,
                 s = pre ++ s1
                 /\ allChars (classMatches ignoreCase p) pre = true
                 /\ k s1 cap = Some res').
    { intros res' Hb. destruct s as [|x s]; [discriminate|].
      rewrite run_class in Hb.
      destruct (classMatches ignoreCase p x) eqn:Hx; [|discriminate].
      destruct (String.length s <? String.length (String x s))%nat; [|discriminate].
      apply IH in Hb. destruct Hb as (pre & s1 & -> & Hpre & Hk).
      exists (String x pre), s1. simpl. rewrite Hx, Hpre. repeat split. exact Hk. }
    destruct greedy.
    + destruct (run ignoreCase (Class p) s cap _) as [res'|] eqn:Hb.
      * injection Hrun as <-. apply Hiter. reflexivity.
      * apply Hstop, Hrun.
    + destruct (k s cap) as [res'|] eqn:Hk.
      * injection Hrun as <-. apply Hstop. reflexivity.
      * apply Hiter, Hrun.
Qed.

Lemma take_appended (pre s : string) :
  take (String.length (pre ++ s) - String.length s) (pre ++ s) = pre.
Proof.
  rewrite append_length.
  replace (String.length pre + String.length s - String.length s)%nat
    with (String.length pre) by lia.
  induction pre as [|c pre IH]; simpl.
  - destruct s; reflexivity.
  - now rewrite IH.
Qed.

(** What [([\d.]+)] captures. *)
Lemma group_plus_class (ignoreCase : bool) (p : ascii -> bool) (s cap capture : string) :
  run ignoreCase (Group (plus (Class p))) s cap (fun _ cap1 => Some cap1) = Some capture ->
  capture <> EmptyString /\ allChars (classMatches ignoreCase p) capture = true.
Proof.
  intros Hrun.
  change (run ignoreCase (Class p) s cap
              (fun s1 cap1 =>
                 repeatMatcher (run ignoreCase (Class p)) true
                               (fun s2 _ => Some (take (String.length s - String.length s2) s))
                               (S (String.length s1)) s1 cap1) = Some capture) in Hrun.
  destruct s as [|x s]; [discriminate|].
  rewrite run_class in Hrun.
  destruct (classMatches ignoreCase p x) eqn:Hx; [|discriminate].
  apply repeat_class_consumes in Hrun.
  destruct Hrun as (pre & s1 & -> & Hpre & Hk).
  assert (Hcapture : capture = String x pre).
  { injection Hk as <-. exact (take_appended (String x pre) s1). }
  subst capture. split; [discriminate|].
  simpl. now rewrite Hx, Hpre.
Qed.

Section VersionProperties.

Variable cheerio : string -> outcome page.

(** X19.  The version of a snapshot is [unknown] or a string of digits and
    dots, not empty, that stands in the text of the page. *)
Theorem version_wellformed :
  forall (html : string) (e : env) (data : BrandBibleData),
    parseBrandBible cheerio html e = Returned data ->
    version data = "unknown"
    \/ (version data <> EmptyString
        /\ allChars (fun c => isDigit c || Ascii.eqb c ".") (version data) = true
        /\ exists doc, cheerio html = Returned doc
                       /\ includes (version data) (pageText doc) = true).
Proof.
  intros html e data. unfold parseBrandBible.
  destruct (cheerio html) as [doc|err]; [|discriminate].
  intros [= <-]. cbn [version].
  destruct (exec false versionRegex (pageText doc)) as [v|] eqn:Hexec; [|now left].
  right.
  pose proof (exec_part _ _ _ _ Hexec) as Hpart.
  apply exec_run in Hexec. destruct Hexec as (s' & _ & Hrun).
  unfold versionRegex in Hrun. cbn [seqs] in Hrun.
  change (run false (literal "Brand Bible v") s' EmptyString
              (fun s1 cap1 =>
                 run false
                     (Group (plus (Class (fun c => isDigit c || Ascii.eqb c "."))))
                     s1 cap1 (fun _ cap => Some cap)) = Some v) in Hrun.
  apply run_traceable in Hrun. destruct Hrun as (s1 & cap1 & Hgroup & _ & _).
  apply group_plus_class in Hgroup. destruct Hgroup as [Hne Hchars].
  split; [exact Hne|]. split; [exact Hchars|].
  exists doc. split; [reflexivity|]. now apply includes_iff.
Qed.

End VersionProperties.

(** ** Calls in a row *)

Section RepeatedCalls.

Variable cheerio : string -> outcome page.

(** X20.  What a successful call returns is served again without the
    network: a second call at the same clock, of [getBrandBible] or of an
    accessor, finds the snapshot that the first call returned and leaves
    the cache as the first call left it. *)
Theorem second_call_is_served_from_cache :
  forall (st st' : cache) (e e' : env) (data : BrandBibleData)
         (sectionId subsectionId query : string),
    getBrandBible cheerio e st = (Returned data, st') ->
    dateNow e' = dateNow e ->
    fresh e' st' = true
    /\ getBrandBible cheerio e' st' = (Returned data, st')
    /\ getSection cheerio sectionId e' st'
       = (Returned (find (fun s => String.eqb (id s) sectionId) (sections data)), st')
    /\ getSubsection cheerio subsectionId e' st'
       = (Returned (findSubsection subsectionId (sections data)), st')
    /\ searchBrandBible cheerio query e' st'
       = (Returned (rankSnapshot data query), st').
Proof.
  intros st st' e e' data sectionId subsectionId query Hcall Hnow.
  assert (Hcached : cachedData st' = Some data
                    /\ dateNow e - cacheTimestamp st' < CACHE_TTL_MS).
  { destruct (fresh e st) eqn:Hf.
    - destruct (fresh_true e st Hf) as (d & Hd & Hlt).
      rewrite (getBrandBible_hit cheerio e st d Hd Hlt) in Hcall.
      injection Hcall as <- <-. split; assumption.
    - rewrite (getBrandBible_miss cheerio e st Hf) in Hcall.
      destruct (fetchBrandBibleHtml e) as [html|err]; [|discriminate].
      destruct (parseBrandBible cheerio html e) as [d|err]; [|discriminate].
      injection Hcall as <- <-. cbn [cachedData cacheTimestamp].
      split; [reflexivity|]. unfold CACHE_TTL_MS. lia. }
  destruct Hcached as [Hdata Hlt]. rewrite <- Hnow in Hlt.
  pose proof (getBrandBible_hit cheerio e' st' data Hdata Hlt) as Hhit.
  split.
  - unfold fresh. rewrite Hdata. apply Z.ltb_lt. exact Hlt.
  - split; [exact Hhit|].
    unfold getSection, getSubsection, searchBrandBible, bind.
    rewrite Hhit. repeat split.
Qed.

End RepeatedCalls.

(** ** Longer queries *)

Lemma sumZ_app (l1 l2 : list Z) : sumZ (l1 ++ l2) = sumZ l1 + sumZ l2.
Proof. induction l1 as [|x l1 IH]; simpl; [reflexivity | rewrite IH; lia]. Qed.

Lemma related_app (terms extra : list string) (kw : string) :
  related terms kw = true -> related (terms ++ extra) kw = true.
Proof.
  unfold related. rewrite existsb_app. intros ->. reflexivity.
Qed.

Lemma keyword_fold_monotone (cl : string) (terms extra kws : list string) :
  fold_left (scoreKeyword cl terms) kws 0
  <= fold_left (scoreKeyword cl (terms ++ extra)) kws 0.
Proof.
  induction kws as [|kw kws IH]; cbn [fold_left].
  - lia.
  - rewrite (fold_scoreKeyword cl terms), (fold_scoreKeyword cl (terms ++ extra)).
    rewrite !scoreKeyword_step.
    destruct (related terms kw) eqn:Hrel.
    + rewrite (related_app terms extra kw Hrel). lia.
    + cbn [andb]. destruct (related (terms ++ extra) kw && includes kw cl); lia.
Qed.

(** X21.  More terms never lower a score: the score of a content against
    a list of terms is at most its score against the list with further
    terms added. *)
Theorem relevance_monotone :
  forall (c : string) (queryTerms extra : list string),
    calculateRelevance c queryTerms <= calculateRelevance c (queryTerms ++ extra).
Proof.
  intros c terms extra. rewrite !calculateRelevance_sum. unfold keywordBoost.
  rewrite map_app, sumZ_app.
  pose proof (sum_direct_range (toLowerCase c) extra).
  pose proof (keyword_fold_monotone (toLowerCase c) terms extra brandKeywords).
  lia.
Qed.

(** ** Concrete instances of the further statements *)

Lemma sampleSnapshot_segmented : segmented sampleSnapshot.
Proof. reflexivity. Qed.

Lemma firstVisit_returns_sample :
  getBrandBible plainText firstVisit initialCache
  = (Returned sampleSnapshot, mkCache (Some sampleSnapshot) 1000).
Proof.
  rewrite getBrandBible_miss by reflexivity. vm_compute. reflexivity.
Qed.

Lemma search_ignores_case_witness :
  calculateRelevance "LOGO Usage" ["logo"] = calculateRelevance "logo usage" ["logo"]
  /\ rankSnapshot sampleSnapshot "Tone Of VOICE" = rankSnapshot sampleSnapshot "tone of voice".
Proof.
  destruct search_ignores_case as (Hcontent & Hquery & _).
  split.
  - apply Hcontent. reflexivity.
  - apply Hquery. reflexivity.
Defined.

Lemma getSubsection_of_taxonomy_witness :
  getSubsection plainText "4.1" firstVisit initialCache
  = (Returned (Some (mkSubsection "4.1" "Logo Usage"
                                  (extractSubsectionContent samplePage "4.1" "Logo Usage"))),
     mkCache (Some sampleSnapshot) 1000).
Proof.
  destruct (getSubsection_of_taxonomy plainText initialCache _ firstVisit sampleSnapshot
              "4.1" (reach_init plainText) ltac:(simpl; tauto)
              firstVisit_returns_sample) as (subTitle & Hlook & Hget).
  injection Hlook as <-. exact Hget.
Defined.

Lemma overview_structure_witness :
  exists out,
    sodax_get_brand_overview plainText firstVisit initialCache
    = (Returned (Structured out), mkCache (Some sampleSnapshot) 1000)
    /\ ov_version out = "1.0"
    /\ map os_subsectionCount (ov_sections out) = [6; 10; 6; 7; 5; 5]%nat.
Proof.
  destruct (overview_structure plainText initialCache firstVisit (reach_init plainText))
    as [Hok _].
  destruct (Hok sampleSnapshot _ firstVisit_returns_sample)
    as (out & Hrun & Hversion & _ & _ & Hcounts).
  exists out. repeat split; assumption.
Defined.

Lemma refresh_discards_cache_witness :
  cachedData (mkCache (Some sampleSnapshot) 1000) = Some sampleSnapshot
  /\ sodax_refresh_brand_bible plainText visitNotFound (mkCache (Some sampleSnapshot) 1000)
     = (Returned (TextOnly "Error refreshing cache: Brand Bible page not found. The URL may have changed."),
        initialCache).
Proof.
  split; [reflexivity|].
  destruct (refresh_discards_cache plainText) as [_ Hfail].
  apply (Hfail _ visitNotFound "Brand Bible page not found. The URL may have changed.").
  left. reflexivity.
Defined.


Lemma tools_report_failed_rebuild_witness :
  sodax_get_section plainText "4" visitNotFound (mkCache (Some sampleSnapshot) 1000)
  = (Returned (TextOnly "Error fetching section: Brand Bible page not found. The URL may have changed."),
     mkCache (Some sampleSnapshot) 1000).
Proof.
  destruct (tools_report_failed_rebuild plainText (mkCache (Some sampleSnapshot) 1000)
              visitNotFound "Brand Bible page not found. The URL may have changed."
              "4" "4.1" "logo" 5%nat eq_refl (or_introl eq_refl))
    as (_ & Hsection & _).
  exact Hsection.
Defined.

Lemma heading_is_detected_witness :
  exists capture,
    exec true (subsectionRegex "1.2" "Brand Purpose")
         ("Contents " ++ "1-2" ++ "  " ++ "BRAND PURPOSE" ++ " Why SODAX exists.")
    = Some capture
    /\ extractSubsectionContent
         ("Contents " ++ "1-2" ++ "  " ++ "BRAND PURPOSE" ++ " Why SODAX exists.")
         "1.2" "Brand Purpose"
       = take 1500 (trim capture).
Proof.
  destruct (heading_is_detected "Contents " "1-2" "  " "BRAND PURPOSE"
              " Why SODAX exists." "1.2" "Brand Purpose" eq_refl eq_refl eq_refl)
    as [_ Hsub].
  exact Hsub.
Defined.

Lemma search_results_wellformed_witness :
  (List.length (rankSnapshot sampleSnapshot "logo usage") <= 45)%nat
  /\ NoDup (map (fun r => (sectionId r, subsectionId r))
                (rankSnapshot sampleSnapshot "logo usage")).
Proof.
  destruct (search_results_wellformed sampleSnapshot "logo usage"
              sampleSnapshot_segmented) as (Hlen & _ & Hnodup).
  split; assumption.
Defined.

Lemma version_wellformed_witness :
  parseBrandBible plainText samplePage firstVisit = Returned sampleSnapshot
  /\ (version sampleSnapshot = "unknown"
      \/ (version sampleSnapshot <> EmptyString
          /\ allChars (fun c => isDigit c || Ascii.eqb c ".") (version sampleSnapshot) = true
          /\ exists doc, plainText samplePage = Returned doc
                         /\ includes (version sampleSnapshot) (pageText doc) = true)).
Proof.
  assert (Hparse : parseBrandBible plainText samplePage firstVisit = Returned sampleSnapshot)
    by (vm_compute; reflexivity).
  split; [exact Hparse|].
  exact (version_wellformed plainText samplePage firstVisit sampleSnapshot Hparse).
Defined.

Lemma second_call_is_served_from_cache_witness :
  getBrandBible plainText firstVisit initialCache
  = (Returned sampleSnapshot, mkCache (Some sampleSnapshot) 1000)
  /\ getBrandBible plainText (mkEnv 1000 (OtherError "offline") 0)
                   (mkCache (Some sampleSnapshot) 1000)
     = (Returned sampleSnapshot, mkCache (Some sampleSnapshot) 1000).
Proof.
  split; [exact firstVisit_returns_sample|].
  destruct (second_call_is_served_from_cache plainText initialCache _ firstVisit
              (mkEnv 1000 (OtherError "offline") 0) sampleSnapshot "4" "4.1" "logo"
              firstVisit_returns_sample eq_refl) as (_ & Hagain & _).
  exact Hagain.
Defined.

(* ================================================================= *)
(** * The patterns and their sources *)

Section PatternSources.

Import PatternSyntax.

(** ** Equivalence of patterns *)

Lemma equivalent_refl (r : regex) : equivalent r r.
Proof. intros i s cap k. reflexivity. Qed.

Lemma equivalent_sym (r1 r2 : regex) : equivalent r1 r2 -> equivalent r2 r1.
Proof. intros H i s cap k. symmetry. apply H. Qed.

Lemma equivalent_trans (r1 r2 r3 : regex) :
  equivalent r1 r2 -> equivalent r2 r3 -> equivalent r1 r3.
Proof. intros H12 H23 i s cap k. rewrite H12. apply H23. Qed.

Lemma equivalent_Seq (a a' b b' : regex) :
  equivalent a a' -> equivalent b b' -> equivalent (Seq a b) (Seq a' b').
Proof.
  intros Ha Hb i s cap k. cbn [run].
  rewrite (run_ext i a s cap _ (fun s1 cap1 => run i b' s1 cap1 k)).
  - apply Ha.
  - intros s1 cap1. apply Hb.
Qed.

Lemma equivalent_Alt (a a' b b' : regex) :
  equivalent a a' -> equivalent b b' -> equivalent (Alt a b) (Alt a' b').
Proof.
  intros Ha Hb i s cap k. cbn [run]. rewrite Ha, Hb. reflexivity.
Qed.

Lemma repeatMatcher_body (body body' : matcher) (greedy : bool)
      (k : string -> string -> option string) :
  extensional body ->
  (forall s cap k0, body s cap k0 = body' s cap k0) ->
  forall fuel s cap,
    repeatMatcher body greedy k fuel s cap = repeatMatcher body' greedy k fuel s cap.
Proof.
  intros Hext Hsame. induction fuel as [|fuel IH]; intros s cap; simpl.
  - reflexivity.
  - rewrite (Hext s cap _
               (fun s1 cap1 =>
                  if (String.length s1 <? String.length s)%nat
                  then repeatMatcher body' greedy k fuel s1 cap1 else None)).
    + rewrite Hsame. reflexivity.
    + intros s1 cap1. destruct (String.length s1 <? String.length s)%nat.
      * apply IH.
      * reflexivity.
Qed.

Lemma equivalent_Star (greedy : bool) (a a' : regex) :
  equivalent a a' -> equivalent (Star greedy a) (Star greedy a').
Proof.
  intros Ha i s cap k.
  change (repeatMatcher (run i a) greedy k (S (String.length s)) s cap
          = repeatMatcher (run i a') greedy k (S (String.length s)) s cap).
  apply repeatMatcher_body.
  - apply run_ext.
  - intros s0 cap0 k0. apply Ha.
Qed.

Lemma equivalent_Group (a a' : regex) :
  equivalent a a' -> equivalent (Group a) (Group a').
Proof. intros Ha i s cap k. cbn [run]. apply Ha. Qed.

Lemma equivalent_Look (a a' : regex) :
  equivalent a a' -> equivalent (Look a) (Look a').
Proof. intros Ha i s cap k. cbn [run]. rewrite Ha. reflexivity. Qed.

Lemma equivalent_Class (p q : ascii -> bool) :
  (forall x, p x = q x) -> equivalent (Class p) (Class q).
Proof.
  intros Hpq i s cap k. cbn [run]. destruct s as [|x s]; [reflexivity|].
  unfold classMatches. rewrite !Hpq. reflexivity.
Qed.

Lemma equivalent_seqs_cons (r : regex) (rs : list regex) :
  equivalent (seqs (r :: rs)) (Seq r (seqs rs)).
Proof.
  intros i s cap k. destruct rs as [|r' rs].
  - cbn [seqs run]. apply run_ext. intros s1 cap1. reflexivity.
  - reflexivity.
Qed.

Lemma equivalent_seqs_app (rs1 rs2 : list regex) :
  equivalent (seqs (rs1 ++ rs2)) (Seq (seqs rs1) (seqs rs2)).
Proof.
  induction rs1 as [|r rs1 IH].
  - intros i s cap k. reflexivity.
  - change ((r :: rs1) ++ rs2)%list with (r :: (rs1 ++ rs2))%list.
    eapply equivalent_trans; [apply equivalent_seqs_cons|].
    eapply equivalent_trans; [apply equivalent_Seq; [apply equivalent_refl | exact IH]|].
    eapply equivalent_trans;
      [|apply equivalent_Seq; [apply equivalent_sym, equivalent_seqs_cons
                              | apply equivalent_refl]].
    intros i s cap k. reflexivity.
Qed.

(** ** Reading a source *)

Lemma readAll_app (src1 src2 : string) :
  forall st,
    readAll st (src1 ++ src2)
    = match readAll st src1 with
      | Some st' => readAll st' src2
      | None => None
      end.
Proof.
  induction src1 as [|c src1 IH]; intros st; simpl.
  - reflexivity.
  - destruct (step st c) as [st'|]; [apply IH | reflexivity].
Qed.

Lemma pushAll_alternatives (ts : list term) :
  forall f, alternatives (pushAll ts f) = alternatives f.
Proof.
  induction ts as [|t ts IH]; intros f; [reflexivity|].
  unfold pushAll in *. cbn [fold_left]. rewrite IH. reflexivity.
Qed.

Lemma pushAll_closedTerms (ts : list term) :
  forall f,
    closedTerms (pushAll ts f)
    = (List.rev (map termRegex ts) ++ closedTerms f)%list.
Proof.
  induction ts as [|t ts IH]; intros f; [reflexivity|].
  unfold pushAll in *. cbn [fold_left]. rewrite IH.
  cbn [map List.rev]. rewrite <- app_assoc. reflexivity.
Qed.

Lemma pushAll_app (ts1 ts2 : list term) (f : frame) :
  pushAll (ts1 ++ ts2) f = pushAll ts2 (pushAll ts1 f).
Proof. unfold pushAll. apply fold_left_app. Qed.

(** After a backslash a syntax character stands for itself. *)
Lemma escapeAtom_syntax (c : ascii) :
  isSyntaxChar c = true -> escapeAtom c = Some (One c).
Proof.
  destruct c as [[] [] [] [] [] [] [] []]; intros H;
    try (vm_compute in H; discriminate H); reflexivity.
Qed.

(** The escaped form of a string is read as the characters of the
    string, each a literal, whatever the characters are. *)
Lemma readAll_escapeRegex (str : string) :
  forall f enc cap,
    readAll (mkState f enc cap Normal) (escapeRegex str)
    = Some (mkState (pushAll (map (fun c => Atom (Lit c)) (list_ascii_of_string str)) f)
                    enc cap Normal).
Proof.
  induction str as [|c str IH]; intros f enc cap.
  - reflexivity.
  - cbn [escapeRegex list_ascii_of_string map].
    destruct (isSyntaxChar c) eqn:Hsyntax.
    + cbn [readAll]. unfold step at 1. cbn [reading]. unfold stepNormal.
      change (isSyntaxChar backslash) with true. cbn [negb].
      rewrite Ascii.eqb_refl.
      unfold step at 1. cbn [reading setMode].
      rewrite (escapeAtom_syntax c Hsyntax). cbn [option_map atomTerm].
      apply IH.
    + cbn [readAll]. unfold step at 1. cbn [reading]. unfold stepNormal.
      rewrite Hsyntax. cbn [negb]. apply IH.
Qed.

Lemma readAll_identifier (identifier : string) :
  forall f enc cap,
    plainIdentifier identifier = true ->
    readAll (mkState f enc cap Normal) identifier
    = Some (mkState (pushAll (map identifierTerm (list_ascii_of_string identifier)) f)
                    enc cap Normal).
Proof.
  induction identifier as [|c identifier IH]; intros f enc cap Hplain.
  - reflexivity.
  - unfold plainIdentifier in Hplain. cbn [allChars] in Hplain.
    apply andb_true_iff in Hplain. destruct Hplain as [Hc Hrest].
    cbn [readAll list_ascii_of_string map].
    unfold step at 1. cbn [reading]. unfold stepNormal, identifierTerm.
    destruct (Ascii.eqb c ".") eqn:Hdot.
    + apply Ascii.eqb_eq in Hdot. subst c.
      change (isSyntaxChar ".") with true. cbn [negb].
      change (Ascii.eqb "." backslash) with false.
      cbn [Ascii.eqb Bool.eqb andb].
      apply IH, Hrest.
    + rewrite orb_false_r in Hc. rewrite Hc. apply IH, Hrest.
Qed.

Lemma seqs_literals (str : string) :
  equivalent (seqs (map Lit (list_ascii_of_string str))) (literal str).
Proof.
  induction str as [|c str IH].
  - apply equivalent_refl.
  - cbn [list_ascii_of_string map literal].
    eapply equivalent_trans; [apply equivalent_seqs_cons|].
    apply equivalent_Seq; [apply equivalent_refl | exact IH].
Qed.

Lemma seqs_identifier (identifier : string) :
  equivalent (seqs (map (fun c => termRegex (identifierTerm c))
                        (list_ascii_of_string identifier)))
             (interpolated identifier).
Proof.
  induction identifier as [|c identifier IH].
  - apply equivalent_refl.
  - cbn [list_ascii_of_string map interpolated].
    eapply equivalent_trans; [apply equivalent_seqs_cons|].
    apply equivalent_Seq; [apply equivalent_refl | exact IH].
Qed.

Lemma read_section_joint (f : frame) (enc : list (groupKind * frame)) (cap : bool) :
  readAll (mkState f enc cap Normal) "\.\s*"
  = Some (mkState (pushAll [Atom (Lit "."); Greedy ZeroOrMore (Class isSpace)] f)
                  enc cap Normal).
Proof. reflexivity. Qed.

Lemma read_subsection_joint (f : frame) (enc : list (groupKind * frame)) (cap : bool) :
  readAll (mkState f enc cap Normal) "\s*"
  = Some (mkState (pushAll [Greedy ZeroOrMore (Class isSpace)] f) enc cap Normal).
Proof. reflexivity. Qed.

Lemma read_section_tail (f : frame) :
  readAll (mkState f [] false Normal) "([\s\S]*?)(?=\d+\.\s+[A-Z]|$)"
  = Some (mkState (pushAll [Atom captureRead; Fixed sectionLookRead] f) [] true Normal).
Proof. reflexivity. Qed.

Lemma read_subsection_tail (f : frame) :
  readAll (mkState f [] false Normal) "([\s\S]*?)(?=\d+\.\d+|\d+\.|$)"
  = Some (mkState (pushAll [Atom captureRead; Fixed subsectionLookRead] f) [] true Normal).
Proof. reflexivity. Qed.

Lemma parse_of_terms (src : string) (ts : list term) (cap : bool) :
  readAll initialState src = Some (mkState (pushAll ts emptyFrame) [] cap Normal) ->
  parsePattern src = Some (seqs (map termRegex ts)).
Proof.
  intros Hread. unfold parsePattern. rewrite Hread.
  unfold finish. cbn [reading enclosing current].
  unfold groupTakesPart, frameRegex. rewrite pushAll_alternatives. cbn [alternatives emptyFrame].
  cbn [List.rev app disjunction]. unfold alternativeOf.
  rewrite pushAll_closedTerms. cbn [closedTerms emptyFrame lastTerm terms].
  rewrite app_nil_r, List.rev_involutive. reflexivity.
Qed.

Lemma exec_equivalent (r r' : regex) (ignoreCase : bool) :
  equivalent r r' ->
  forall s, exec ignoreCase r s = exec ignoreCase r' s.
Proof.
  intros Hr. induction s as [|c s IH]; cbn [exec]; rewrite Hr.
  - reflexivity.
  - rewrite IH. reflexivity.
Qed.

Lemma literal_terms (str : string) :
  map termRegex (map (fun c => Atom (Lit c)) (list_ascii_of_string str))
  = map Lit (list_ascii_of_string str).
Proof. rewrite map_map. reflexivity. Qed.

Lemma identifier_terms (identifier : string) :
  map termRegex (map identifierTerm (list_ascii_of_string identifier))
  = map (fun c => termRegex (identifierTerm c)) (list_ascii_of_string identifier).
Proof. rewrite map_map. reflexivity. Qed.

Lemma captureRead_equivalent : equivalent captureRead (Group (Star false anything)).
Proof.
  apply equivalent_Group, equivalent_Star, equivalent_Class.
  intros x. unfold union, complement. destruct (isSpace x); reflexivity.
Qed.

Lemma sectionLookRead_equivalent :
  equivalent sectionLookRead
             (Look (Alt (seqs [plus digit; Lit "."; plus space; upper]) Eoi)).
Proof.
  apply equivalent_Look, equivalent_Alt; [|apply equivalent_refl].
  cbn [seqs].
  repeat (apply equivalent_Seq; [apply equivalent_refl|]).
  apply equivalent_Class. intros x. unfold union. cbn [orb].
  destruct (Ascii.eqb_spec "A" x) as [<-|_]; reflexivity.
Qed.

Lemma parse_sectionSource (identifier name : string) :
  plainIdentifier identifier = true ->
  parsePattern (sectionSource identifier name)
  = Some (seqs (map termRegex (sectionTerms identifier name))).
Proof.
  intros Hplain. apply (parse_of_terms _ _ true).
  unfold sectionSource, initialState, sectionTerms.
  rewrite readAll_app, (readAll_identifier identifier _ _ _ Hplain).
  rewrite readAll_app, read_section_joint.
  rewrite readAll_app, readAll_escapeRegex.
  rewrite read_section_tail.
  rewrite !pushAll_app. reflexivity.
Qed.

Lemma parse_subsectionSource (identifier name : string) :
  plainIdentifier identifier = true ->
  parsePattern (subsectionSource identifier name)
  = Some (seqs (map termRegex (subsectionTerms identifier name))).
Proof.
  intros Hplain. apply (parse_of_terms _ _ true).
  unfold subsectionSource, initialState, subsectionTerms. cbv zeta.
  rewrite readAll_app, (readAll_identifier identifier _ _ _ Hplain).
  rewrite readAll_app, read_subsection_joint.
  rewrite readAll_app, readAll_escapeRegex.
  rewrite read_subsection_tail.
  rewrite !pushAll_app. reflexivity.
Qed.

Lemma sectionTerms_equivalent (identifier name : string) :
  equivalent (seqs (map termRegex (sectionTerms identifier name)))
             (sectionRegex identifier name).
Proof.
  unfold sectionTerms, sectionRegex.
  rewrite !map_app, identifier_terms, literal_terms.
  cbn [map termRegex quantified].
  eapply equivalent_trans; [apply equivalent_seqs_app|].
  cbn [seqs]. apply equivalent_Seq; [apply seqs_identifier|].
  cbn [app].
  eapply equivalent_trans; [apply equivalent_seqs_cons|].
  apply equivalent_Seq; [apply equivalent_refl|].
  eapply equivalent_trans; [apply equivalent_seqs_cons|].
  apply equivalent_Seq; [apply equivalent_refl|].
  eapply equivalent_trans; [apply equivalent_seqs_app|].
  apply equivalent_Seq.
  - rewrite escaped_escapeRegex. apply seqs_literals.
  - cbn [seqs]. apply equivalent_Seq.
    + apply captureRead_equivalent.
    + apply sectionLookRead_equivalent.
Qed.

Lemma subsectionTerms_equivalent (identifier name : string) :
  equivalent (seqs (map termRegex (subsectionTerms identifier name)))
             (subsectionRegex identifier name).
Proof.
  unfold subsectionTerms, subsectionRegex. cbv zeta.
  rewrite !map_app, identifier_terms, literal_terms.
  cbn [map termRegex quantified].
  eapply equivalent_trans; [apply equivalent_seqs_app|].
  cbn [seqs]. apply equivalent_Seq; [apply seqs_identifier|].
  cbn [app].
  eapply equivalent_trans; [apply equivalent_seqs_cons|].
  apply equivalent_Seq; [apply equivalent_refl|].
  eapply equivalent_trans; [apply equivalent_seqs_app|].
  apply equivalent_Seq.
  - rewrite escaped_escapeRegex. apply seqs_literals.
  - cbn [seqs]. apply equivalent_Seq.
    + apply captureRead_equivalent.
    + apply equivalent_refl.
Qed.

Lemma taxonomy_identifiers_plain :
  Forall (fun entry => plainIdentifier (fst entry) = true)
         (SECTION_NAMES ++ SUBSECTION_NAMES)%list.
Proof.
  apply Forall_forall. intros entry Hin.
  assert (Hall : forallb (fun entry => plainIdentifier (fst entry))
                         (SECTION_NAMES ++ SUBSECTION_NAMES)%list = true)
    by (vm_compute; reflexivity).
  rewrite forallb_forall in Hall. apply Hall, Hin.
Qed.

(** The pattern of the version, [/Brand Bible v([\d.]+)/]. *)
Lemma version_source_parse :
  exists r,
    parsePattern "Brand Bible v([\d.]+)" = Some r /\ equivalent r versionRegex.
Proof.
  exists (seqs (map Lit (list_ascii_of_string "Brand Bible v")
                ++ [Group (quantified OneOrMore true
                             (Class (union (union (fun _ => false) isDigit)
                                           (Ascii.eqb "."))))])%list).
  split; [reflexivity|].
  unfold versionRegex.
  eapply equivalent_trans; [apply equivalent_seqs_app|].
  cbn [seqs]. apply equivalent_Seq; [apply seqs_literals|].
  assert (Hclass : equivalent
                     (Class (union (union (fun _ => false) isDigit) (Ascii.eqb ".")))
                     (Class (fun c => isDigit c || Ascii.eqb c "."%char))).
  { apply equivalent_Class. intros x. unfold union. cbn [orb].
    destruct (Ascii.eqb_spec "." x) as [<-|Hne]; [reflexivity|].
    destruct (Ascii.eqb_spec x ".") as [->|_]; [contradiction|reflexivity]. }
  apply equivalent_Group. unfold quantified, plus.
  apply equivalent_Seq; [exact Hclass | apply equivalent_Star, Hclass].
Qed.

(** X13.  Escaping makes a title a literal pattern.  Read by the grammar
    of patterns, in which an unescaped syntax character has its special
    meaning, the escaped form of every title is a pattern (there is no
    [SyntaxError]); that pattern matches at the front of an input exactly
    when the title stands there, the case of letters set aside, and
    consumes just the title, so that a title always matches itself; and
    it is the pattern that [escaped] gives, on every input. *)
Theorem escaped_title_matches_literally :
  forall name : string,
    exists r,
      parsePattern (escapeRegex name) = Some r
      /\ (forall (input cap : string) (k : string -> string -> option string),
             run true r input cap k
             = match stripPrefixIgnoreCase name input with
               | Some rest => k rest cap
               | None => None
               end)
      /\ (forall (rest cap : string) (k : string -> string -> option string),
             run true r (name ++ rest) cap k = k rest cap)
      /\ equivalent r (escaped (escapeRegex name)).
Proof.
  intros name.
  exists (seqs (map Lit (list_ascii_of_string name))).
  assert (Hliteral : equivalent (seqs (map Lit (list_ascii_of_string name)))
                                (literal name))
    by apply seqs_literals.
  split; [|split; [|split]].
  - rewrite <- literal_terms. apply (parse_of_terms _ _ false).
    unfold initialState. apply readAll_escapeRegex.
  - intros input cap k. rewrite Hliteral. apply run_literal.
  - intros rest cap k. rewrite Hliteral, run_literal.
    now rewrite (stripPrefix_equalIgnoreCase name name rest (equalIgnoreCase_refl name)).
  - rewrite escaped_escapeRegex. exact Hliteral.
Qed.

Transparent extractSectionContent extractSubsectionContent.

(** X22.  The patterns of the model are what the grammar of patterns
    gives for the sources that the code builds.  For every title and
    every identifier without syntax characters other than the dot, the
    source of the section pattern and the source of the subsection
    pattern are patterns, so that [new RegExp] throws no [SyntaxError]
    whatever the title holds, and the content cut out of a text is the
    result of matching the text against the pattern read from the source.
    All identifiers of the taxonomy are of that kind.  The pattern of the
    version is read as the model has it too. *)
Theorem pattern_sources_parse :
  (forall identifier name : string,
      plainIdentifier identifier = true ->
      (exists r,
          parsePattern (sectionSource identifier name) = Some r
          /\ equivalent r (sectionRegex identifier name)
          /\ forall content,
              extractSectionContent content identifier name
              = match exec true r content with
                | Some capture => take 2000 (trim capture)
                | None => getDefaultSectionDescription identifier
                end)
      /\ (exists r,
             parsePattern (subsectionSource identifier name) = Some r
             /\ equivalent r (subsectionRegex identifier name)
             /\ forall content,
                 extractSubsectionContent content identifier name
                 = match exec true r content with
                   | Some capture => take 1500 (trim capture)
                   | None =>
                       "Content for " ++ name
                         ++ ". Please refer to the full Brand Bible for details."
                   end))
  /\ Forall (fun entry => plainIdentifier (fst entry) = true)
            (SECTION_NAMES ++ SUBSECTION_NAMES)%list
  /\ (exists r,
         parsePattern "Brand Bible v([\d.]+)" = Some r /\ equivalent r versionRegex).
Proof.
  split; [|split; [exact taxonomy_identifiers_plain | exact version_source_parse]].
  intros identifier name Hplain. split.
  - exists (seqs (map termRegex (sectionTerms identifier name))).
    split; [exact (parse_sectionSource identifier name Hplain)|].
    split; [apply sectionTerms_equivalent|].
    intros content. unfold extractSectionContent.
    rewrite (exec_equivalent _ _ true (sectionTerms_equivalent identifier name)).
    reflexivity.
  - exists (seqs (map termRegex (subsectionTerms identifier name))).
    split; [exact (parse_subsectionSource identifier name Hplain)|].
    split; [apply subsectionTerms_equivalent|].
    intros content. unfold extractSubsectionContent.
    rewrite (exec_equivalent _ _ true (subsectionTerms_equivalent identifier name)).
    reflexivity.
Qed.

Opaque extractSectionContent extractSubsectionContent.

End PatternSources.

Lemma pattern_sources_parse_witness :
  exists r,
    PatternSyntax.parsePattern (subsectionSource "2.10" "Positioning Guardrails") = Some r
    /\ equivalent r (subsectionRegex "2.10" "Positioning Guardrails").
Proof.
  destruct pattern_sources_parse as [Hparse _].
  destruct (Hparse "2.10" "Positioning Guardrails" eq_refl)
    as [_ (r & Hr & Hequivalent & _)].
  exists r. split; assumption.
Defined.
